(** * PSCardTable: the parallel old-generation card-table scavenge engine

    A shallow embedding of [src/hotspot/share/gc/parallel/psCardTable.cpp]
    and the properties of its card scanners, the single-range object
    scanner, the large-array scanner, the stripe driver and the verifiers.

    Conventions of the embedding.
    - A [HeapWord*] is the index of a heap word (byte address divided by
      [HeapWordSize]); pointer arithmetic on [HeapWord*] is addition on [Z].
    - A [CardValue*] is the index of a card in the byte map; [*p] reads the
      card table at that index.
    - Every store to the card table and every call on the promotion manager
      is appended to an event trace, so that "never writes" and "calls once"
      are statements about the trace and not only about final values.
    - [assert] is compiled in only in debug builds: the configuration field
      [ASSERT] chooses the build; [guarantee] is always checked.
    - Prefetch hints have no effect on the state and are left out. *)

From Stdlib Require Import ZArith List Lia Bool String.
Import ListNotations.
Open Scope Z_scope.

(** ** Data model *)

Definition HeapWord := Z.
Definition CardPtr := Z.
Definition CardValue := Z.

(** Build-time and start-up constants. The header psCardTable.hpp is not
    part of the sources, so the four card values, the value that
    [set_card_newgen] stores, the card size and the stripe length are
    parameters. *)
Record Config := {
  ASSERT : bool;
  clean_card : CardValue;
  dirty_card : CardValue;
  youngergen_card : CardValue;
  verify_card : CardValue;
  set_card_newgen_val : CardValue;
  card_size_in_words : Z;
  num_cards_in_stripe : Z
}.

(** The collaborators the engine consumes as oracles: the object-start
    array, the objects' self-reported sizes, the object classifiers, the
    reference fields visited by [oop_iterate] (slot address and loaded
    referent) and the young generation's [is_in_reserved]. *)
Record Heap := {
  object_start : HeapWord -> HeapWord;
  object_starts_in_range : HeapWord -> HeapWord -> bool;
  size : HeapWord -> Z;
  is_oop : HeapWord -> bool;
  is_objArray : HeapWord -> bool;
  is_large_obj_array : HeapWord -> bool;
  oop_fields : HeapWord -> list (HeapWord * HeapWord);
  is_in_reserved : HeapWord -> bool
}.

Inductive event :=
| StoreCard (c : CardPtr) (v : CardValue)
| PushContents (obj : HeapWord)
| PushObjArrayContents (arr left right : HeapWord)
| DrainStacksCondDepth.

Record state := {
  cards : CardPtr -> CardValue;
  trace : list event
}.

Definition upd (f : CardPtr -> CardValue) (k : CardPtr) (v : CardValue) : CardPtr -> CardValue :=
  fun x => if x =? k then v else f x.

(** ** Outcomes and the state monad of the engine *)

Inductive outcome (A : Type) :=
| Ret (a : A) (s : state)
| Abort (msg : string) (s : state)
| OutOfFuel (s : state).
Arguments Ret {A} a s.
Arguments Abort {A} msg s.
Arguments OutOfFuel {A} s.

Definition M (A : Type) := state -> outcome A.

Definition ret {A} (a : A) : M A := fun s => Ret a s.

Definition bind {A B} (m : M A) (k : A -> M B) : M B :=
  fun s => match m s with
           | Ret a s' => k a s'
           | Abort msg s' => Abort msg s'
           | OutOfFuel s' => OutOfFuel s'
           end.

Notation "x <- m ;; k" := (bind m (fun x => k))
  (at level 61, m at next level, right associativity).
Notation "m ;;; k" := (bind m (fun _ => k))
  (at level 61, right associativity).

Definition abort {A} (msg : string) : M A := fun s => Abort msg s.
Definition out_of_fuel {A} : M A := fun s => OutOfFuel s.

Definition final_state {A} (o : outcome A) : state :=
  match o with Ret _ s => s | Abort _ s => s | OutOfFuel s => s end.

Definition guarantee (cond : bool) (msg : string) : M unit :=
  if cond then ret tt else abort msg.

Definition get_cards : M (CardPtr -> CardValue) := fun s => Ret (cards s) s.

Definition load_card (c : CardPtr) : M CardValue := fun s => Ret (cards s c) s.

Definition store_card (c : CardPtr) (v : CardValue) : M unit :=
  fun s => Ret tt {| cards := upd (cards s) c v; trace := trace s ++ [StoreCard c v] |}.

Definition emit (e : event) : M unit :=
  fun s => Ret tt {| cards := cards s; trace := trace s ++ [e] |}.

(** The integers (cards or heap words) [lo, lo+1, ..., hi-1] in increasing
    order. *)
Definition interval (lo hi : Z) : list Z :=
  map (fun k => lo + Z.of_nat k) (seq 0 (Z.to_nat (hi - lo))).

Section PSCardTable.

Variable cfg : Config.
Variable heap : Heap.

Definition assert (cond : bool) (msg : string) : M unit :=
  if ASSERT cfg then guarantee cond msg else ret tt.

(** ** Card primitives *)

(** Modelled from the spec: [byte_for], [addr_for], [is_card_aligned] and
    [align_up] to a card boundary are declared in cardTable.hpp, which is
    not part of the sources. A card covers [card_size_in_words] consecutive
    heap words; [byte_for] gives the card containing an address and
    [addr_for] the first word of a card. *)
Definition byte_for (addr : HeapWord) : CardPtr := addr / card_size_in_words cfg.
Definition addr_for (card : CardPtr) : HeapWord := card * card_size_in_words cfg.
Definition is_card_aligned (addr : HeapWord) : bool :=
  addr mod card_size_in_words cfg =? 0.
Definition align_up_card (addr : HeapWord) : HeapWord :=
  ((addr + card_size_in_words cfg - 1) / card_size_in_words cfg) * card_size_in_words cfg.

(** Modelled from the spec: the card predicates of psCardTable.hpp (not
    part of the sources) compare a value with one of the four card values. *)
Definition card_is_dirty (v : CardValue) : bool := v =? dirty_card cfg.
Definition card_is_newgen (v : CardValue) : bool := v =? youngergen_card cfg.
Definition card_is_clean (v : CardValue) : bool := v =? clean_card cfg.
Definition card_is_verify (v : CardValue) : bool := v =? verify_card cfg.

(** ** Dirty/clean scanners *)

Fixpoint find_first_dirty_card_loop (fuel : nat) (ct : CardPtr -> CardValue)
    (i_card end_card : CardPtr) : CardPtr :=
  match fuel with
  | O => end_card
  | S n =>
      if i_card <? end_card then
        if negb (ct i_card =? clean_card cfg) then i_card
        else find_first_dirty_card_loop n ct (i_card + 1) end_card
      else end_card
  end.

Definition find_first_dirty_card (ct : CardPtr -> CardValue)
    (start_card end_card : CardPtr) : CardPtr :=
  find_first_dirty_card_loop (Z.to_nat (end_card - start_card)) ct start_card end_card.

Fixpoint find_first_clean_card_loop (fuel : nat) (ct : CardPtr -> CardValue)
    (i_card end_card : CardPtr) : CardPtr :=
  match fuel with
  | O => end_card
  | S n =>
      if i_card <? end_card then
        if ct i_card =? clean_card cfg then i_card
        else find_first_clean_card_loop n ct (i_card + 1) end_card
      else end_card
  end.

Definition find_first_clean_card (ct : CardPtr -> CardValue)
    (start_card end_card : CardPtr) : CardPtr :=
  find_first_clean_card_loop (Z.to_nat (end_card - start_card)) ct start_card end_card.

(** ** clear_cards *)

Fixpoint clear_cards_loop (fuel : nat) (i_card end_ : CardPtr) : M unit :=
  if i_card <? end_ then
    match fuel with
    | O => out_of_fuel
    | S n => store_card i_card (clean_card cfg) ;;; clear_cards_loop n (i_card + 1) end_
    end
  else ret tt.

Definition clear_cards (start end_ : CardPtr) : M unit :=
  clear_cards_loop (Z.to_nat (end_ - start)) start end_.

(** ** Card-state queries *)

Definition addr_is_marked_imprecise (addr : HeapWord) : M bool :=
  val <- load_card (byte_for addr) ;;
  if card_is_dirty val then ret true
  else if card_is_newgen val then ret true
  else if card_is_clean val then ret false
  else assert false "Found unhandled card mark type" ;;; ret false.

Definition addr_is_marked_precise (addr : HeapWord) : M bool :=
  val <- load_card (byte_for addr) ;;
  if card_is_newgen val then ret true
  else if card_is_verify val then ret true
  else if card_is_clean val then ret false
  else if card_is_dirty val then ret false
  else assert false "Found unhandled card mark type" ;;; ret false.

(** ** The object-aware clean-card search

    The overload of [find_first_clean_card] that takes the start array. *)

Fixpoint find_first_clean_card_obj_loop (fuel : nat)
    (start_card i_card end_card : CardPtr) : M CardPtr :=
  if i_card <? end_card then
    match fuel with
    | O => out_of_fuel
    | S n =>
        v <- load_card i_card ;;
        if negb (v =? clean_card cfg) then
          find_first_clean_card_obj_loop n start_card (i_card + 1) end_card
        else
          assert (start_card <=? i_card - 1) "inv" ;;;
          prev <- load_card (i_card - 1) ;;
          assert (negb (prev =? clean_card cfg)) "prev card must be dirty" ;;;
          (* Find the final obj on the prev dirty card. *)
          let obj_addr := object_start heap (addr_for i_card - 1) in
          let obj_end_addr := obj_addr + size heap obj_addr in
          let final_card_by_obj := byte_for (obj_end_addr - 1) in
          assert (final_card_by_obj <? end_card) "inv" ;;;
          if final_card_by_obj <=? i_card then ret i_card
          else
            (* This final obj extends beyond i_card, check if this new card is dirty. *)
            f <- load_card final_card_by_obj ;;
            if f =? clean_card cfg then ret final_card_by_obj
            else
              (* This new card is dirty, continuing the search... *)
              find_first_clean_card_obj_loop n start_card (final_card_by_obj + 1) end_card
    end
  else ret end_card.

Definition find_first_clean_card_obj (start_card end_card : CardPtr) : M CardPtr :=
  v <- load_card start_card ;;
  assert ((start_card =? end_card) || negb (v =? clean_card cfg)) "precondition" ;;;
  (* Skip the first dirty card. *)
  find_first_clean_card_obj_loop (Z.to_nat (end_card - start_card))
    start_card (start_card + 1) end_card.

(** ** scan_objects_in_range *)

Fixpoint scan_objects_in_range_loop (fuel : nat) (obj_addr end_ : HeapWord) : M unit :=
  if obj_addr <? end_ then
    match fuel with
    | O => out_of_fuel
    | S n =>
        assert (is_oop heap obj_addr) "inv" ;;;
        assert (negb (is_objArray heap obj_addr) || negb (is_large_obj_array heap obj_addr))
               "single threaded scanning of large array" ;;;
        emit (PushContents obj_addr) ;;;
        scan_objects_in_range_loop n (obj_addr + size heap obj_addr) end_
    end
  else ret tt.

Definition scan_objects_in_range (start end_ : HeapWord) : M unit :=
  scan_objects_in_range_loop (Z.to_nat (end_ - start)) start end_ ;;;
  emit DrainStacksCondDepth.

(** ** scavenge_large_array_contents *)

Record limits := {
  iter_limit_l : CardPtr;
  iter_limit_r : CardPtr;
  clear_limit_l : CardPtr;
  clear_limit_r : CardPtr
}.

(** The four card limits of [scavenge_large_array_contents] as they stand
    when its dirty-chunk loop starts. *)
Definition large_array_limits (arr_addr stripe_addr stripe_end_addr : HeapWord)
    (first_card_already_cleared : bool) : limits :=
  let arr_end_addr := arr_addr + size heap arr_addr in
  let iter_limit_l0 := byte_for stripe_addr in
  let iter_limit_r0 := byte_for (stripe_end_addr - 1) + 1 in
  let clear_limit_l0 := byte_for stripe_addr in
  let clear_limit_r0 := byte_for stripe_end_addr in
  (* Adjust left limits if the array starts in the stripe. *)
  let '(iter_limit_l1, clear_limit_l1) :=
    if stripe_addr <=? arr_addr then
      if first_card_already_cleared
      then (byte_for arr_addr + 1, byte_for arr_addr + 1)
      else (byte_for arr_addr, byte_for (arr_addr - 1) + 1)
    else (iter_limit_l0, clear_limit_l0) in
  (* Adjust right limits if the array ends in the stripe *)
  let '(iter_limit_r1, clear_limit_r1) :=
    if arr_end_addr <=? stripe_end_addr
    then (byte_for (arr_end_addr - 1) + 1, byte_for arr_end_addr)
    else (iter_limit_r0, clear_limit_r0) in
  {| iter_limit_l := iter_limit_l1; iter_limit_r := iter_limit_r1;
     clear_limit_l := clear_limit_l1; clear_limit_r := clear_limit_r1 |}.

Fixpoint large_array_chunks (fuel : nat) (large_arr : HeapWord) (lim : limits)
    (cur_card : CardPtr) : M unit :=
  if cur_card <? iter_limit_r lim then
    match fuel with
    | O => out_of_fuel
    | S n =>
        ct <- get_cards ;;
        let dirty_l := find_first_dirty_card ct cur_card (iter_limit_r lim) in
        let dirty_r := find_first_clean_card ct dirty_l (iter_limit_r lim) in
        assert (dirty_l <=? dirty_r) "inv" ;;;
        if dirty_l =? dirty_r then
          (* empty *)
          assert (dirty_r =? iter_limit_r lim) "no more dirty cards in this stripe"
        else
          assert (negb (ct dirty_l =? clean_card cfg)) "inv" ;;;
          assert ((ct dirty_r =? clean_card cfg) || (clear_limit_r lim <=? dirty_r))
                 "clean card or belonging to next stripe" ;;;
          (* 1. Clear card in [dirty_l, dirty_r) subject to [clear_limit_l, clear_limit_r) *)
          clear_cards (Z.max dirty_l (clear_limit_l lim)) (Z.min dirty_r (clear_limit_r lim)) ;;;
          (* 2. Scan elements in [dirty_l, dirty_r) *)
          emit (PushObjArrayContents large_arr (addr_for dirty_l) (addr_for dirty_r)) ;;;
          large_array_chunks n large_arr lim (dirty_r + 1)
    end
  else ret tt.

Definition scavenge_large_array_contents (large_arr : HeapWord)
    (stripe_addr stripe_end_addr space_top : HeapWord)
    (first_card_already_cleared : bool) : M unit :=
  let arr_addr := large_arr in
  assert (is_card_aligned stripe_addr) "assumption" ;;;
  assert (is_card_aligned stripe_end_addr || (stripe_end_addr =? space_top)) "assumption" ;;;
  (if (stripe_addr <=? arr_addr) && first_card_already_cleared then
     assert (negb (is_card_aligned arr_addr)) "first card is not shared with other objects" ;;;
     emit (PushObjArrayContents large_arr arr_addr (align_up_card arr_addr))
   else ret tt) ;;;
  let lim := large_array_limits arr_addr stripe_addr stripe_end_addr first_card_already_cleared in
  large_array_chunks (Z.to_nat (iter_limit_r lim - iter_limit_l lim)) large_arr lim
    (iter_limit_l lim).

(** ** The stripe driver: scavenge_contents_parallel *)

Definition stripe_size_in_words : Z := num_cards_in_stripe cfg * card_size_in_words cfg.

(** The driver's local [StartCache]; [nullptr] is word 0 and [prev_query]
    exists in debug builds only (it is read by nothing but its assert). *)
Record StartCache := {
  obj_start : HeapWord;
  obj_end : HeapWord;
  prev_query : HeapWord
}.

Definition StartCache_init : StartCache :=
  {| obj_start := 0; obj_end := 0; prev_query := 0 |}.

Definition StartCache_object_start (c : StartCache) (addr : HeapWord)
    : M (HeapWord * StartCache) :=
  assert ((prev_query c =? 0) || (prev_query c <=? addr)) "inv" ;;;
  if obj_end c <=? addr then
    let o := object_start heap addr in
    ret (o, {| obj_start := o; obj_end := o + size heap o; prev_query := addr |})
  else
    ret (obj_start c, {| obj_start := obj_start c; obj_end := obj_end c; prev_query := addr |}).

(** "Identify left ends and the first obj-start inside this stripe":
    [first_obj_addr], [iter_limit_l] and [clear_limit_l] as they stand after
    that block. *)
Record left_ends := {
  first_obj_addr : HeapWord;
  left_iter_limit : CardPtr;
  left_clear_limit : CardPtr
}.

Definition identify_left_ends (cur_stripe_addr : HeapWord) : left_ends :=
  let first_obj_addr0 := object_start heap cur_stripe_addr in
  if first_obj_addr0 <? cur_stripe_addr then
    (* Continue with the first object that actually starts here. *)
    let first_obj_addr1 := first_obj_addr0 + size heap first_obj_addr0 in
    {| first_obj_addr := first_obj_addr1;
       left_iter_limit := byte_for first_obj_addr1;
       left_clear_limit := byte_for (first_obj_addr1 - 1) + 1 |}
  else
    {| first_obj_addr := first_obj_addr0;
       left_iter_limit := byte_for cur_stripe_addr;
       left_clear_limit := byte_for cur_stripe_addr |}.

(** "Identify right ends": either the stripe ends in a large array that
    started before it ([ScannedAbove], the [continue]), or the right limits
    with the large array that begins in the stripe, if any. *)
Inductive right_ends :=
| ScannedAbove
| RightEnds (large_arr : option HeapWord) (large_arr_cleared_first_card : bool)
            (right_iter_limit right_clear_limit : CardPtr).

Definition identify_right_ends (ct : CardPtr -> CardValue)
    (cur_stripe_addr cur_stripe_end_addr : HeapWord) : right_ends :=
  let obj_addr := object_start heap (cur_stripe_end_addr - 1) in
  let obj_end_addr := obj_addr + size heap obj_addr in
  if is_large_obj_array heap obj_addr then
    if obj_addr <? cur_stripe_addr then ScannedAbove
    else
      RightEnds (Some obj_addr)
        (negb (is_card_aligned obj_addr) && negb (ct (byte_for obj_addr) =? clean_card cfg))
        (byte_for (obj_addr - 1) + 1) (byte_for (obj_addr - 1) + 1)
  else
    RightEnds None false (byte_for (obj_end_addr - 1) + 1) (byte_for obj_end_addr).

(** The limits with which an iteration enters the dirty-chunk walk, when it
    does. *)
Definition stripe_limits (ct : CardPtr -> CardValue)
    (cur_stripe_addr cur_stripe_end_addr : HeapWord) : option limits :=
  let le := identify_left_ends cur_stripe_addr in
  match identify_right_ends ct cur_stripe_addr cur_stripe_end_addr with
  | ScannedAbove => None
  | RightEnds _ _ iter_r clear_r =>
      Some {| iter_limit_l := left_iter_limit le; iter_limit_r := iter_r;
              clear_limit_l := left_clear_limit le; clear_limit_r := clear_r |}
  end.

(** "Process dirty chunks ... chunk by chunk inside [iter_limit_l, iter_limit_r)". *)
Fixpoint dirty_chunks (fuel : nat) (first_obj : HeapWord) (cur_stripe_end_addr : HeapWord)
    (large_arr : option HeapWord) (lim : limits) (cur_card : CardPtr) : M unit :=
  if cur_card <? iter_limit_r lim then
    match fuel with
    | O => out_of_fuel
    | S n =>
        ct <- get_cards ;;
        let dirty_l := find_first_dirty_card ct cur_card (iter_limit_r lim) in
        dirty_r <- find_first_clean_card_obj dirty_l (iter_limit_r lim) ;;
        assert (dirty_l <=? dirty_r) "inv" ;;;
        if dirty_l =? dirty_r then
          (* empty *)
          assert (dirty_r =? iter_limit_r lim) "no more dirty cards in this stripe"
        else
          assert (negb (ct dirty_l =? clean_card cfg)) "inv" ;;;
          assert ((ct dirty_r =? clean_card cfg) || (clear_limit_r lim <=? dirty_r))
                 "clean card or belonging to next stripe" ;;;
          (* 1. Clear card in [dirty_l, dirty_r) subject to [clear_limit_l, clear_limit_r) *)
          clear_cards (Z.max dirty_l (clear_limit_l lim)) (Z.min dirty_r (clear_limit_r lim)) ;;;
          (* 2. Scan objs in [dirty_l, dirty_r) subject to [first_obj_addr, cur_stripe_end_addr) *)
          let obj_l := Z.max (object_start heap (addr_for dirty_l)) first_obj in
          let obj_r := Z.min (addr_for dirty_r)
                             (match large_arr with
                              | Some arr => arr
                              | None => cur_stripe_end_addr
                              end) in
          scan_objects_in_range obj_l obj_r ;;;
          dirty_chunks n first_obj cur_stripe_end_addr large_arr lim (dirty_r + 1)
    end
  else ret tt.

(** One iteration of the driver's [for] loop over the stripes of a worker. *)
Definition scavenge_stripe (space_top cur_stripe_addr : HeapWord) (start_cache : StartCache)
    : M StartCache :=
  let cur_stripe_end_addr := Z.min (cur_stripe_addr + stripe_size_in_words) space_top in
  if negb (object_starts_in_range heap cur_stripe_addr cur_stripe_end_addr) then
    (* No object start means nothing to do. Except if the large object that
       covers the stripe is a large object array. *)
    r <- StartCache_object_start start_cache cur_stripe_addr ;;
    (if is_large_obj_array heap (fst r) then
       scavenge_large_array_contents (fst r) cur_stripe_addr cur_stripe_end_addr space_top false
     else ret tt) ;;;
    ret (snd r)
  else
    (* Process objects starting in this stripe. *)
    let first_obj := object_start heap cur_stripe_addr in
    (if first_obj <? cur_stripe_addr then
       if is_large_obj_array heap first_obj then
         scavenge_large_array_contents first_obj cur_stripe_addr cur_stripe_end_addr space_top false
       else ret tt
     else assert (first_obj =? cur_stripe_addr) "inv") ;;;
    let le := identify_left_ends cur_stripe_addr in
    assert (cur_stripe_addr <=? first_obj_addr le) "inside this stripe" ;;;
    assert (first_obj_addr le <=? cur_stripe_end_addr) "can be empty" ;;;
    ct <- get_cards ;;
    match identify_right_ends ct cur_stripe_addr cur_stripe_end_addr with
    | ScannedAbove =>
        (* Scanned above already. *)
        assert (object_start heap (cur_stripe_end_addr - 1) =? object_start heap cur_stripe_addr)
               "assumption" ;;;
        ret start_cache
    | RightEnds large_arr large_arr_cleared_first_card iter_r clear_r =>
        (match large_arr with
         | Some _ => ret tt
         | None =>
             let obj_addr := object_start heap (cur_stripe_end_addr - 1) in
             assert (cur_stripe_end_addr <=? obj_addr + size heap obj_addr) "inv"
         end) ;;;
        let lim := {| iter_limit_l := left_iter_limit le; iter_limit_r := iter_r;
                      clear_limit_l := left_clear_limit le; clear_limit_r := clear_r |} in
        assert ((iter_limit_l lim <=? clear_limit_l lim) && (clear_limit_r lim <=? iter_limit_r lim))
               "clear cards only if we iterate over them" ;;;
        dirty_chunks (Z.to_nat (iter_limit_r lim - iter_limit_l lim))
          (first_obj_addr le) cur_stripe_end_addr large_arr lim (iter_limit_l lim) ;;;
        (match large_arr with
         | Some arr =>
             scavenge_large_array_contents arr cur_stripe_addr cur_stripe_end_addr space_top
               large_arr_cleared_first_card
         | None => ret tt
         end) ;;;
        ret start_cache
    end.

Fixpoint scavenge_stripes (fuel : nat) (space_top slice_size_in_words : Z)
    (cur_stripe_addr : HeapWord) (start_cache : StartCache) : M unit :=
  if cur_stripe_addr <? space_top then
    match fuel with
    | O => out_of_fuel
    | S n =>
        start_cache' <- scavenge_stripe space_top cur_stripe_addr start_cache ;;
        scavenge_stripes n space_top slice_size_in_words
          (cur_stripe_addr + slice_size_in_words) start_cache'
    end
  else ret tt.

Definition scavenge_contents_parallel (bottom space_top : HeapWord)
    (stripe_index n_stripes : Z) : M unit :=
  let slice_size_in_words := stripe_size_in_words * n_stripes in
  let cur_stripe_addr := bottom + stripe_index * stripe_size_in_words in
  scavenge_stripes (Z.to_nat (space_top - cur_stripe_addr)) space_top slice_size_in_words
    cur_stripe_addr StartCache_init.

(** ** Verifiers *)

(** [CheckForUnmarkedOops::do_oop_work] on the slot [p] holding [obj];
    [unmarked_addr] is the closure's field. *)
Definition CheckForUnmarkedOops_do_oop_work (unmarked_addr : option HeapWord)
    (p obj : HeapWord) : M (option HeapWord) :=
  if is_in_reserved heap obj then
    marked <- addr_is_marked_imprecise p ;;
    if negb marked then
      (* Don't overwrite the first missing card mark *)
      match unmarked_addr with
      | None => ret (Some p)
      | Some _ => ret unmarked_addr
      end
    else ret unmarked_addr
  else ret unmarked_addr.

Fixpoint CheckForUnmarkedOops_iterate (fields : list (HeapWord * HeapWord))
    (unmarked_addr : option HeapWord) : M (option HeapWord) :=
  match fields with
  | [] => ret unmarked_addr
  | (p, obj) :: rest =>
      u <- CheckForUnmarkedOops_do_oop_work unmarked_addr p obj ;;
      CheckForUnmarkedOops_iterate rest u
  end.

Definition has_unmarked_oop (unmarked_addr : option HeapWord) : bool :=
  match unmarked_addr with Some _ => true | None => false end.

Definition CheckForUnmarkedObjects_do_object (obj : HeapWord) : M unit :=
  object_check <- CheckForUnmarkedOops_iterate (oop_fields heap obj) None ;;
  if has_unmarked_oop object_check then
    marked <- addr_is_marked_imprecise obj ;;
    guarantee marked "Found unmarked young_gen object"
  else ret tt.

(** [old_gen_objects] is the sequence of objects that
    [old_gen->object_iterate] visits. *)
Fixpoint verify_all_young_refs_imprecise (old_gen_objects : list HeapWord) : M unit :=
  match old_gen_objects with
  | [] => ret tt
  | obj :: rest =>
      CheckForUnmarkedObjects_do_object obj ;;;
      verify_all_young_refs_imprecise rest
  end.

Definition set_card_newgen (addr : HeapWord) : M unit :=
  store_card (byte_for addr) (set_card_newgen_val cfg).

Definition CheckForPreciseMarks_do_oop_work (p obj : HeapWord) : M unit :=
  if is_in_reserved heap obj then
    marked <- addr_is_marked_precise p ;;
    assert marked "Found unmarked precise oop" ;;;
    set_card_newgen p
  else ret tt.

Fixpoint CheckForPreciseMarks_iterate (fields : list (HeapWord * HeapWord)) : M unit :=
  match fields with
  | [] => ret tt
  | (p, obj) :: rest =>
      CheckForPreciseMarks_do_oop_work p obj ;;;
      CheckForPreciseMarks_iterate rest
  end.

Fixpoint old_gen_oop_iterate (old_gen_objects : list HeapWord) : M unit :=
  match old_gen_objects with
  | [] => ret tt
  | obj :: rest =>
      CheckForPreciseMarks_iterate (oop_fields heap obj) ;;;
      old_gen_oop_iterate rest
  end.

Fixpoint verify_all_young_refs_precise_helper_loop (fuel : nat) (bot top : CardPtr) : M unit :=
  if bot <=? top then
    match fuel with
    | O => out_of_fuel
    | S n =>
        v <- load_card bot ;;
        assert ((v =? clean_card cfg) || (v =? verify_card cfg))
               "Found unwanted or unknown card mark" ;;;
        (if v =? verify_card cfg then store_card bot (youngergen_card cfg) else ret tt) ;;;
        verify_all_young_refs_precise_helper_loop n (bot + 1) top
    end
  else ret tt.

Definition verify_all_young_refs_precise_helper (mr_start mr_end : HeapWord) : M unit :=
  let bot := byte_for mr_start in
  let top := byte_for mr_end in
  verify_all_young_refs_precise_helper_loop (Z.to_nat (top - bot + 1)) bot top.

(** [used_start, used_end) is [old_gen->object_space()->used_region()]. *)
Definition verify_all_young_refs_precise (old_gen_objects : list HeapWord)
    (used_start used_end : HeapWord) : M unit :=
  old_gen_oop_iterate old_gen_objects ;;;
  verify_all_young_refs_precise_helper used_start used_end.

End PSCardTable.

(** * Specification-side notions *)

(** The four card values are pairwise different (the closed domain of the
    data model). *)
Definition card_values_distinct (cfg : Config) : Prop :=
  NoDup [clean_card cfg; dirty_card cfg; youngergen_card cfg; verify_card cfg].

(** Only stores to the card table among the events of a trace. *)
Definition stored_cards (tr : list event) : list CardPtr :=
  flat_map (fun e => match e with StoreCard c _ => [c] | _ => [] end) tr.

(** The start array and the sizes describe a parsable space [bottom, top):
    every word of the space lies in the object the start array names for
    it, that object starts in the space and ends in it, and the start array
    names the same object for each of its words. In particular [bottom] is
    an object start and no object straddles [top]. *)
Record heap_parsable (heap : Heap) (bottom top : HeapWord) : Prop := {
  parsable_start : forall a, bottom <= a < top ->
    bottom <= object_start heap a <= a;
  parsable_cover : forall a, bottom <= a < top ->
    a < object_start heap a + size heap (object_start heap a) <= top;
  parsable_same : forall a b, bottom <= a < top ->
    object_start heap a <= b < object_start heap a + size heap (object_start heap a) ->
    object_start heap b = object_start heap a
}.

(** The object starts in [lo, hi), in increasing address order. *)
Definition starts_in (heap : Heap) (lo hi : HeapWord) : list HeapWord :=
  filter (fun a => object_start heap a =? a) (interval lo hi).

(** Each element of the list is the previous one advanced by its size. *)
Fixpoint chained (heap : Heap) (l : list HeapWord) : Prop :=
  match l with
  | a :: (b :: _) as t => b = a + size heap a /\ chained heap t
  | _ => True
  end.

(** The last card of the object that covers the last word of card [c - 1],
    as the object-aware search computes it. *)
Definition final_card_by_obj (cfg : Config) (heap : Heap) (c : CardPtr) : CardPtr :=
  let obj_addr := object_start heap (addr_for cfg c - 1) in
  byte_for cfg (obj_addr + size heap obj_addr - 1).

(** A dirty run can end at card [c]: [c] is clean and the object that
    covers the last word of card [c - 1] does not extend beyond [c]. *)
Definition run_ends_at (cfg : Config) (heap : Heap) (ct : CardPtr -> CardValue)
    (c : CardPtr) : Prop :=
  ct c = clean_card cfg /\ final_card_by_obj cfg heap c <= c.

(** Some object that starts on a dirty card of [start, c) extends onto
    card [c]. *)
Definition covered_by_earlier_dirty_object (cfg : Config) (heap : Heap)
    (ct : CardPtr -> CardValue) (start c : CardPtr) : Prop :=
  exists obj, object_start heap obj = obj
              /\ start <= byte_for cfg obj < c
              /\ ct (byte_for cfg obj) <> clean_card cfg
              /\ c <= byte_for cfg (obj + size heap obj - 1).

(** C1 in the specification's words: the result is the first card of
    (start, end) that is clean and onto which no object starting on a
    preceding dirty card extends, or [end_card]. *)
Definition object_aware_search_as_specified (cfg : Config) (heap : Heap) (s : state)
    (start_card end_card : CardPtr) : Prop :=
  forall r, find_first_clean_card_obj cfg heap start_card end_card s = Ret r s ->
    (r = end_card
     \/ (start_card < r < end_card /\ cards s r = clean_card cfg
         /\ ~ covered_by_earlier_dirty_object cfg heap (cards s) start_card r))
    /\ (forall c, start_card < c < r ->
          ~ (cards s c = clean_card cfg
             /\ ~ covered_by_earlier_dirty_object cfg heap (cards s) start_card c)).

(** Every event a computation appends to the trace satisfies [P], whatever
    its outcome. *)
Definition emits {A} (P : event -> Prop) (m : M A) : Prop :=
  forall s, exists tr, trace (final_state (m s)) = trace s ++ tr /\ Forall P tr.

(** Events of a dirty-chunk loop of [scavenge_large_array_contents] that
    runs from card [lo]: stores of [clean_card] inside the clear limits and
    at or after [lo], and pushes of slices of [arr] that start at a card
    boundary at or after [lo]. *)
Definition large_array_chunk_event (cfg : Config) (arr : HeapWord) (lim : limits)
    (lo : CardPtr) (e : event) : Prop :=
  match e with
  | StoreCard c v =>
      v = clean_card cfg /\ lo <= c /\ clear_limit_l lim <= c < clear_limit_r lim
  | PushObjArrayContents a l r =>
      a = arr /\ exists dirty_l dirty_r,
        l = addr_for cfg dirty_l /\ r = addr_for cfg dirty_r
        /\ lo <= dirty_l < dirty_r /\ dirty_r <= iter_limit_r lim
  | _ => False
  end.

(** The preconditions that [scavenge_large_array_contents] asserts. *)
Definition large_array_preconditions (cfg : Config)
    (arr_addr stripe_addr stripe_end_addr space_top : HeapWord)
    (first_card_already_cleared : bool) : bool :=
  is_card_aligned cfg stripe_addr
  && (is_card_aligned cfg stripe_end_addr || (stripe_end_addr =? space_top))
  && (negb ((stripe_addr <=? arr_addr) && first_card_already_cleared)
      || negb (is_card_aligned cfg arr_addr)).

(** The explicit push of the array's elements on its first card. *)
Definition large_array_prefix_push (cfg : Config)
    (arr_addr stripe_addr : HeapWord) (first_card_already_cleared : bool) : list event :=
  if (stripe_addr <=? arr_addr) && first_card_already_cleared
  then [PushObjArrayContents arr_addr arr_addr (align_up_card cfg arr_addr)]
  else [].

(** An event that is a store to a card satisfying [R], or no store. *)
Definition stores_only (R : CardPtr -> Prop) (e : event) : Prop :=
  match e with StoreCard c _ => R c | _ => True end.

(** The driver's start cache answers a query at [addr] as the start array
    would: it is stale for [addr], or it holds the object covering [addr]. *)
Definition StartCache_valid (heap : Heap) (c : StartCache) (addr : HeapWord) : Prop :=
  obj_end c <= addr \/ obj_start c = object_start heap addr.

(** What a computation returns, when it returns, satisfies [Q]. *)
Definition returns {A} (Q : A -> Prop) (m : M A) : Prop :=
  forall s a s', m s = Ret a s' -> Q a.

(** The invariant of the driver's start cache in a space [bottom, top): the
    cache is still empty for the space, or it holds the object that the
    start array names for an earlier query. *)
Definition StartCache_inv (heap : Heap) (bottom top : HeapWord) (c : StartCache) : Prop :=
  obj_end c <= bottom
  \/ exists q, bottom <= q < top /\ q <= prev_query c
                /\ obj_start c = object_start heap q
                /\ obj_end c = obj_start c + size heap (obj_start c).

(** The limits are ordered as a chain. *)
Definition limits_chain (lim : limits) : Prop :=
  iter_limit_l lim <= clear_limit_l lim
  /\ clear_limit_l lim <= clear_limit_r lim
  /\ clear_limit_r lim <= iter_limit_r lim.

(** The end of the object that covers [cur_stripe_addr]: the driver's
    [first_obj_addr] when that object straddles into the stripe. *)
Definition straddler_end (heap : Heap) (cur_stripe_addr : HeapWord) : HeapWord :=
  object_start heap cur_stripe_addr + size heap (object_start heap cur_stripe_addr).

(** The driver's [cur_stripe_end_addr]. *)
Definition stripe_end (cfg : Config) (cur_stripe_addr space_top : HeapWord) : HeapWord :=
  Z.min (cur_stripe_addr + stripe_size_in_words cfg) space_top.

(** Where the worker of a stripe with a straddling object may store: to the
    right of the card on which the straddling object ends, or, if that
    object is a large array, on the array's cards of this stripe before the
    card of its end. *)
Definition store_allowed (cfg : Config) (heap : Heap) (cur_stripe_addr : HeapWord)
    (c : CardPtr) : Prop :=
  byte_for cfg (straddler_end heap cur_stripe_addr - 1) + 1 <= c
  \/ (is_large_obj_array heap (object_start heap cur_stripe_addr) = true
      /\ byte_for cfg cur_stripe_addr <= c < byte_for cfg (straddler_end heap cur_stripe_addr)).

(** The one layout in which the clear limits of a stripe are inverted: an
    object straddles into the stripe from the left, the stripe does not end
    in a large array, and the last word of the straddling object lies on
    the card on which the object covering the stripe's last word ends. *)
Definition straddler_shares_tail_card (cfg : Config) (heap : Heap)
    (cur_stripe_addr cur_stripe_end_addr : HeapWord) : Prop :=
  let tail := object_start heap (cur_stripe_end_addr - 1) in
  object_start heap cur_stripe_addr < cur_stripe_addr
  /\ is_large_obj_array heap tail = false
  /\ byte_for cfg (straddler_end heap cur_stripe_addr - 1)
     = byte_for cfg (tail + size heap tail).

(** C4 in the specification's words: in an iteration that reaches the
    dirty-chunk walk (some object starts in the stripe, and the stripe does
    not end in a large array scanned above), the limits are a chain. *)
Definition stripe_limits_as_specified (cfg : Config) (heap : Heap)
    (ct : CardPtr -> CardValue) (cur_stripe_addr cur_stripe_end_addr : HeapWord) : Prop :=
  object_starts_in_range heap cur_stripe_addr cur_stripe_end_addr = true ->
  forall lim, stripe_limits cfg heap ct cur_stripe_addr cur_stripe_end_addr = Some lim ->
              limits_chain lim.

(** C3 in the specification's words: in a stripe into which an object
    straddles from the left, the worker stores to no card below
    [byte_for(first_obj_addr - 1) + 1], where [first_obj_addr] is the end of
    the straddling object. *)
Definition stripe_worker_as_specified (cfg : Config) (heap : Heap)
    (space_top cur_stripe_addr : HeapWord) (start_cache : StartCache) (s : state) : Prop :=
  object_start heap cur_stripe_addr < cur_stripe_addr ->
  let first_obj_addr :=
    object_start heap cur_stripe_addr + size heap (object_start heap cur_stripe_addr) in
  forall tr,
    trace (final_state (scavenge_stripe cfg heap space_top cur_stripe_addr start_cache s))
      = trace s ++ tr ->
    Forall (fun c => byte_for cfg (first_obj_addr - 1) + 1 <= c) (stored_cards tr).

(** The card of [addr] is neither dirty nor newgen. *)
Definition card_unmarked (cfg : Config) (s : state) (addr : HeapWord) : Prop :=
  cards s (byte_for cfg addr) <> dirty_card cfg
  /\ cards s (byte_for cfg addr) <> youngergen_card cfg.

(** [obj] holds at least one reference into the young generation. *)
Definition holds_young_ref (heap : Heap) (obj : HeapWord) : Prop :=
  exists p o, In (p, o) (oop_fields heap obj) /\ is_in_reserved heap o = true.

(** [obj] holds a reference into the young generation in a slot whose own
    card is neither dirty nor newgen. *)
Definition holds_unmarked_young_ref (cfg : Config) (heap : Heap) (s : state)
    (obj : HeapWord) : Prop :=
  exists p o, In (p, o) (oop_fields heap obj) /\ is_in_reserved heap o = true
              /\ card_unmarked cfg s p.

Definition aborts {A} (o : outcome A) : Prop := exists msg s, o = Abort msg s.

(** The card of [addr] holds none of the values that
    [addr_is_marked_imprecise] handles. *)
Definition card_unhandled (cfg : Config) (s : state) (addr : HeapWord) : Prop :=
  cards s (byte_for cfg addr) <> dirty_card cfg
  /\ cards s (byte_for cfg addr) <> youngergen_card cfg
  /\ cards s (byte_for cfg addr) <> clean_card cfg.

(** The imprecise verifier examines a card with an unhandled value: the
    card of a slot that holds a young reference, or the card of the start
    of an object that has an unmarked young reference. *)
Definition examines_unhandled_card (cfg : Config) (heap : Heap) (s : state)
    (old_gen_objects : list HeapWord) : Prop :=
  exists obj, In obj old_gen_objects
    /\ ((exists p o, In (p, o) (oop_fields heap obj) /\ is_in_reserved heap o = true
                     /\ card_unhandled cfg s p)
        \/ (holds_unmarked_young_ref cfg heap s obj /\ card_unhandled cfg s obj)).

(** C7 in the specification's words: the imprecise verifier aborts as soon
    as some old object holds a young reference while the card of its start
    is neither dirty nor newgen. *)
Definition imprecise_verifier_as_specified (cfg : Config) (heap : Heap)
    (old_gen_objects : list HeapWord) (s : state) : Prop :=
  (exists obj, In obj old_gen_objects
               /\ holds_young_ref heap obj /\ card_unmarked cfg s obj) ->
  aborts (verify_all_young_refs_imprecise cfg heap old_gen_objects s).

(** A computation never runs out of steps, aborts only in a debug build,
    and what it returns satisfies [Q]. *)
Definition total (cfg : Config) {A} (Q : A -> Prop) (m : M A) : Prop :=
  forall s, match m s with
            | Ret a _ => Q a
            | Abort _ _ => ASSERT cfg = true
            | OutOfFuel _ => False
            end.

(** The slices [(left, right)] that a trace pushes with
    [push_objArray_contents], in order. *)
Definition pushed_slices (tr : list event) : list (HeapWord * HeapWord) :=
  flat_map (fun e => match e with PushObjArrayContents _ l r => [(l, r)] | _ => [] end) tr.

(** The slices are not empty, start at or after [lo] and each starts at or
    after the end of the one before: they are increasing and disjoint. *)
Fixpoint increasing_slices (lo : HeapWord) (l : list (HeapWord * HeapWord)) : Prop :=
  match l with
  | [] => True
  | (a, b) :: t => lo <= a /\ a < b /\ increasing_slices b t
  end.

(** [dirty_l, dirty_r) is a maximal run of cards of [lo, hi) that are not
    clean: it cannot be extended inside [lo, hi) on either side. *)
Definition dirty_run (cfg : Config) (ct : CardPtr -> CardValue)
    (lo hi dirty_l dirty_r : CardPtr) : Prop :=
  lo <= dirty_l < dirty_r /\ dirty_r <= hi
  /\ (forall c, dirty_l <= c < dirty_r -> ct c <> clean_card cfg)
  /\ (dirty_l = lo \/ ct (dirty_l - 1) = clean_card cfg)
  /\ (dirty_r = hi \/ ct dirty_r = clean_card cfg).

(** The slices are the maximal runs of non-clean cards of [lo, hi), each
    once and in increasing order: every slice is such a run, given by the
    addresses of its two cards, and every non-clean card of [lo, hi) lies
    in a slice. *)
Definition pushes_dirty_runs (cfg : Config) (ct : CardPtr -> CardValue)
    (lo hi : CardPtr) (slices : list (HeapWord * HeapWord)) : Prop :=
  increasing_slices (addr_for cfg lo) slices
  /\ (forall l r, In (l, r) slices ->
        exists dirty_l dirty_r,
          l = addr_for cfg dirty_l /\ r = addr_for cfg dirty_r
          /\ dirty_run cfg ct lo hi dirty_l dirty_r)
  /\ (forall c, lo <= c < hi -> ct c <> clean_card cfg ->
        exists dirty_l dirty_r,
          In (addr_for cfg dirty_l, addr_for cfg dirty_r) slices
          /\ dirty_l <= c < dirty_r).

(** What an event of a scavenging worker can be: a store of [clean_card];
    a push of an object, which in a debug build has passed the asserts of
    [scan_objects_in_range]; a push of a slice of an object classified as
    a large object array; a drain. *)
Definition worker_event (cfg : Config) (heap : Heap) (e : event) : Prop :=
  match e with
  | StoreCard _ v => v = clean_card cfg
  | PushContents obj =>
      ASSERT cfg = true ->
      is_oop heap obj = true
      /\ negb (is_objArray heap obj) || negb (is_large_obj_array heap obj) = true
  | PushObjArrayContents arr _ _ => is_large_obj_array heap arr = true
  | DrainStacksCondDepth => True
  end.

(** The slots of [obj], in the order [oop_iterate] visits them, that hold
    a reference into the young generation. *)
Definition young_slots_of (heap : Heap) (obj : HeapWord) : list HeapWord :=
  map fst (filter (fun f => is_in_reserved heap (snd f)) (oop_fields heap obj)).

Definition young_slots (heap : Heap) (old_gen_objects : list HeapWord) : list HeapWord :=
  flat_map (young_slots_of heap) old_gen_objects.

(** The store that [set_card_newgen] makes for the slot [p]. *)
Definition newgen_store (cfg : Config) (p : HeapWord) : event :=
  StoreCard (byte_for cfg p) (set_card_newgen_val cfg).

(** The card [c] holds one of the slots [slots]. *)
Definition holds_slot (cfg : Config) (slots : list HeapWord) (c : CardPtr) : bool :=
  existsb (fun p => byte_for cfg p =? c) slots.

(** * Example configuration and heaps *)

Module Examples.

(** A 64-bit configuration: 512-byte cards of 64 words, stripes of 128 cards. *)
Definition cfg (debug : bool) : Config :=
  {| ASSERT := debug;
     clean_card := 255; dirty_card := 0; youngergen_card := 2; verify_card := 6;
     set_card_newgen_val := 6;
     card_size_in_words := 64; num_cards_in_stripe := 128 |}.

(** A card table given by the list of its cards that are not clean. *)
Definition table (marks : list (CardPtr * CardValue)) : CardPtr -> CardValue :=
  fold_right (fun m ct => upd ct (fst m) (snd m)) (fun _ => 255) marks.

Definition st (marks : list (CardPtr * CardValue)) : state :=
  {| cards := table marks; trace := [] |}.

(** A heap given by its objects in address order (start, size in words,
    large object array or not), the reference fields of some of them, and
    a young generation reserved at [young_lo, young_hi). *)
Definition young_lo : HeapWord := 1000000.
Definition young_hi : HeapWord := 2000000.

Definition layout_start (objs : list (HeapWord * Z * bool)) (addr : HeapWord) : HeapWord :=
  fold_left (fun acc o => if fst (fst o) <=? addr then fst (fst o) else acc) objs 0.

Definition layout_find (objs : list (HeapWord * Z * bool)) (addr : HeapWord)
    : option (HeapWord * Z * bool) :=
  find (fun o => fst (fst o) =? addr) objs.

Definition mk_heap (objs : list (HeapWord * Z * bool))
    (fields : list (HeapWord * list (HeapWord * HeapWord))) : Heap :=
  {| object_start := layout_start objs;
     object_starts_in_range := fun lo hi =>
       existsb (fun o => (lo <=? fst (fst o)) && (fst (fst o) <? hi)) objs;
     size := fun a => match layout_find objs a with Some o => snd (fst o) | None => 0 end;
     is_oop := fun a => match layout_find objs a with Some _ => true | None => false end;
     is_objArray := fun a => match layout_find objs a with Some o => snd o | None => false end;
     is_large_obj_array :=
       fun a => match layout_find objs a with Some o => snd o | None => false end;
     oop_fields := fun a =>
       match find (fun f => fst f =? a) fields with Some f => snd f | None => [] end;
     is_in_reserved := fun a => (young_lo <=? a) && (a <? young_hi) |}.

(** One old object at word 0 with a reference to the young generation in
    the slot at word 10. *)
Definition heap_one_young_ref : Heap :=
  mk_heap [(0, 100, false)] [(0, [(10, young_lo + 8)])].

(** One old object at word 0 spanning cards 0 and 1, with a reference to
    the young generation in the slot at word 70, on card 1. *)
Definition heap_young_ref_on_second_card : Heap :=
  mk_heap [(0, 100, false)] [(0, [(70, young_lo + 8)])].

(** Two objects over four cards: words [0, 70) and [70, 256). *)
Definition heap_two_objects : Heap :=
  mk_heap [(0, 70, false); (70, 186, false)] [].

(** Two objects over four cards: words [0, 150) and [150, 256). *)
Definition heap_clean_island : Heap :=
  mk_heap [(0, 150, false); (150, 106, false)] [].

(** Three objects over four cards: words [0, 70), [70, 200) and [200, 256). *)
Definition heap_three_objects : Heap :=
  mk_heap [(0, 70, false); (70, 130, false); (200, 56, false)] [].

(** An ordinary object on words [0, 100) followed by a large object array
    on words [100, 20100): the array starts in the middle of card 1 and
    covers the rest of stripe 0, stripe 1 and the beginning of stripe 2. *)
Definition heap_large_array : Heap :=
  mk_heap [(0, 100, false); (100, 20000, true)] [].

(** A last, partial stripe: a primitive array on words [0, 8202) straddles
    from stripe 0 into stripe 1 and is followed by a small object on words
    [8202, 8212), where the space ends, in the middle of card 128. *)
Definition heap_partial_last_stripe : Heap :=
  mk_heap [(0, 8202, false); (8202, 10, false)] [].

(** Two full stripes: an object on words [8000, 8542) straddles from stripe
    0 into stripe 1 and ends in the middle of card 133, where the first
    object of stripe 1 starts. *)
Definition heap_straddle : Heap :=
  mk_heap [(0, 8000, false); (8000, 542, false); (8542, 458, false); (9000, 7384, false)] [].

(** Three full stripes: a large object array on words [100, 20542) covers
    stripe 1, straddles into stripe 2 and ends in the middle of card 320,
    where the first object of stripe 2 starts. *)
Definition heap_straddling_array : Heap :=
  mk_heap [(0, 100, false); (100, 20442, true); (20542, 458, false); (21000, 3576, false)] [].

(** A primitive array on words [100, 20100), not an object array, that
    covers stripe 1 entirely. *)
Definition heap_big_plain_object : Heap :=
  mk_heap [(0, 100, false); (100, 20000, false)] [].

End Examples.

(** * Properties *)

(** ** Monad and trace basics *)

Lemma interval_nil lo hi : hi <= lo -> interval lo hi = [].
Proof.
  intros H. unfold interval.
  replace (Z.to_nat (hi - lo)) with O by lia. reflexivity.
Qed.

Lemma interval_cons lo hi :
  lo < hi -> interval lo hi = lo :: interval (lo + 1) hi.
Proof.
  intros H. unfold interval.
  replace (Z.to_nat (hi - lo)) with (S (Z.to_nat (hi - (lo + 1)))) by lia.
  cbn [seq map]. f_equal; [lia|].
  rewrite <- seq_shift, map_map.
  apply map_ext. intros k. lia.
Qed.

Lemma in_interval lo hi c : In c (interval lo hi) <-> lo <= c < hi.
Proof.
  unfold interval. rewrite in_map_iff. split.
  - intros (k & <- & Hk). apply in_seq in Hk. lia.
  - intros Hc. exists (Z.to_nat (c - lo)). split; [lia|].
    apply in_seq. lia.
Qed.

(** ** clear_cards *)

Lemma clear_cards_loop_spec cfg n : forall i e s,
  (Z.to_nat (e - i) <= n)%nat ->
  exists s',
    clear_cards_loop cfg n i e s = Ret tt s'
    /\ trace s' = trace s ++ map (fun c => StoreCard c (clean_card cfg)) (interval i e)
    /\ forall c, cards s' c = if (i <=? c) && (c <? e) then clean_card cfg else cards s c.
Proof.
  induction n as [|n IH]; intros i e s Hn.
  - assert (e <= i) by lia.
    exists s. cbn. destruct (Z.ltb_spec i e); [lia|].
    rewrite interval_nil by lia. cbn. rewrite app_nil_r.
    repeat split. intros c.
    destruct (Z.leb_spec i c), (Z.ltb_spec c e); cbn; try reflexivity; lia.
  - cbn. destruct (Z.ltb_spec i e) as [Hlt|Hge].
    + unfold bind, store_card.
      destruct (IH (i + 1) e
        {| cards := upd (cards s) i (clean_card cfg);
           trace := trace s ++ [StoreCard i (clean_card cfg)] |}) as (s' & Hrun & Htr & Hc);
        [lia|].
      exists s'. split; [exact Hrun|]. split.
      * rewrite Htr. cbn. rewrite (interval_cons i e) by lia.
        cbn. rewrite <- app_assoc. reflexivity.
      * intros c. rewrite Hc. cbn. unfold upd.
        destruct (Z.leb_spec (i + 1) c), (Z.leb_spec i c), (Z.ltb_spec c e),
                 (Z.eqb_spec c i); cbn; try reflexivity; lia.
    + exists s. rewrite interval_nil by lia. cbn. rewrite app_nil_r.
      repeat split. intros c.
      destruct (Z.leb_spec i c), (Z.ltb_spec c e); cbn; try reflexivity; lia.
Qed.

(** C10. [clear_cards start end] always returns; it stores [clean_card]
    once to each card of [start, end), in increasing order, and to no other
    card: afterwards the cards of [start, end) are clean and every card
    outside the range has its old value; when [end <= start] the state is
    unchanged. *)
Theorem clear_cards_writes_exactly_range cfg start end_ s :
  exists s',
    clear_cards cfg start end_ s = Ret tt s'
    /\ trace s' = trace s ++ map (fun c => StoreCard c (clean_card cfg)) (interval start end_)
    /\ (forall c, start <= c < end_ -> cards s' c = clean_card cfg)
    /\ (forall c, ~ (start <= c < end_) -> cards s' c = cards s c)
    /\ (end_ <= start -> s' = s).
Proof.
  destruct (clear_cards_loop_spec cfg (Z.to_nat (end_ - start)) start end_ s (le_n _))
    as (s' & Hrun & Htr & Hc).
  exists s'. split; [exact Hrun|]. split; [exact Htr|]. split; [|split].
  - intros c Hin. rewrite Hc.
    destruct (Z.leb_spec start c), (Z.ltb_spec c end_); cbn; try reflexivity; lia.
  - intros c Hout. rewrite Hc.
    destruct (Z.leb_spec start c), (Z.ltb_spec c end_); cbn; try reflexivity; lia.
  - intros Hempty. unfold clear_cards in Hrun.
    replace (Z.to_nat (end_ - start)) with O in Hrun by lia.
    cbn in Hrun. destruct (Z.ltb_spec start end_); [lia|].
    unfold ret in Hrun. congruence.
Qed.

(** ** Card-state queries *)

Lemma card_values_distinct_neq cfg :
  card_values_distinct cfg ->
  clean_card cfg <> dirty_card cfg /\ clean_card cfg <> youngergen_card cfg
  /\ clean_card cfg <> verify_card cfg /\ dirty_card cfg <> youngergen_card cfg
  /\ dirty_card cfg <> verify_card cfg /\ youngergen_card cfg <> verify_card cfg.
Proof.
  unfold card_values_distinct. intros Hd.
  inversion Hd as [|? ? Hc Hd1]; subst. inversion Hd1 as [|? ? Hdi Hd2]; subst.
  inversion Hd2 as [|? ? Hy _]; subst. cbn in Hc, Hdi, Hy.
  repeat split; intros E; rewrite ?E in *; tauto.
Qed.

(** C9. On a dirty card the imprecise query answers true and the precise
    one false; on a clean card both answer false; on a newgen card both
    answer true; on a verify card the precise query answers true. *)
Theorem addr_is_marked_by_card_value cfg addr s :
  card_values_distinct cfg ->
  let val := cards s (byte_for cfg addr) in
  (val = dirty_card cfg ->
     addr_is_marked_imprecise cfg addr s = Ret true s
     /\ addr_is_marked_precise cfg addr s = Ret false s)
  /\ (val = clean_card cfg ->
     addr_is_marked_imprecise cfg addr s = Ret false s
     /\ addr_is_marked_precise cfg addr s = Ret false s)
  /\ (val = youngergen_card cfg ->
     addr_is_marked_imprecise cfg addr s = Ret true s
     /\ addr_is_marked_precise cfg addr s = Ret true s)
  /\ (val = verify_card cfg ->
     addr_is_marked_precise cfg addr s = Ret true s).
Proof.
  intros Hd val.
  apply card_values_distinct_neq in Hd.
  destruct Hd as (H1 & H2 & H3 & H4 & H5 & H6).
  unfold addr_is_marked_imprecise, addr_is_marked_precise, bind, load_card, ret,
    card_is_dirty, card_is_newgen, card_is_clean, card_is_verify.
  subst val.
  split; [|split; [|split]]; intros Hv; rewrite Hv;
    repeat match goal with
    | |- context [?a =? ?b] => destruct (Z.eqb_spec a b)
    end; try congruence; auto.
Qed.

(** A dirty card: marked imprecisely, not precisely. *)
Lemma addr_is_marked_by_card_value_witness :
  addr_is_marked_imprecise (Examples.cfg true) 200 (Examples.st [(3, 0)])
    = Ret true (Examples.st [(3, 0)])
  /\ addr_is_marked_precise (Examples.cfg true) 200 (Examples.st [(3, 0)])
    = Ret false (Examples.st [(3, 0)]).
Proof.
  apply (addr_is_marked_by_card_value (Examples.cfg true) 200 (Examples.st [(3, 0)])).
  - unfold card_values_distinct. cbn.
    repeat constructor; cbn; intuition lia.
  - reflexivity.
Defined.

(** ** The precise verifier *)

Lemma verify_helper_loop_spec cfg n : forall bot top s,
  (Z.to_nat (top - bot + 1) <= n)%nat ->
  match verify_all_young_refs_precise_helper_loop cfg n bot top s with
  | Ret _ s' =>
      (forall c, bot <= c <= top ->
         (ASSERT cfg = true -> cards s c = clean_card cfg \/ cards s c = verify_card cfg)
         /\ cards s' c = if cards s c =? verify_card cfg then youngergen_card cfg else cards s c)
      /\ (forall c, ~ (bot <= c <= top) -> cards s' c = cards s c)
  | Abort _ _ =>
      ASSERT cfg = true
      /\ exists c, bot <= c <= top
                   /\ cards s c <> clean_card cfg /\ cards s c <> verify_card cfg
  | OutOfFuel _ => False
  end.
Proof.
  induction n as [|n IH]; intros bot top s Hn.
  - cbn. destruct (Z.leb_spec bot top); [lia|]. cbn.
    split; intros c Hc; [lia|reflexivity].
  - cbn. destruct (Z.leb_spec bot top) as [Hle|Hgt].
    2:{ cbn. split; intros c Hc; [lia|reflexivity]. }
    unfold bind at 1. unfold load_card at 1.
    unfold bind at 1. unfold assert at 1, guarantee.
    destruct (ASSERT cfg) eqn:Hdbg.
    + destruct ((cards s bot =? clean_card cfg) || (cards s bot =? verify_card cfg)) eqn:Hok.
      2:{ cbn. split; [reflexivity|]. exists bot.
          apply orb_false_iff in Hok. destruct Hok as [H1 H2].
          apply Z.eqb_neq in H1, H2. repeat split; try lia; assumption. }
      unfold ret at 1. unfold bind at 1.
      destruct (Z.eqb_spec (cards s bot) (verify_card cfg)) as [Hv|Hnv].
      * unfold store_card at 1.
        specialize (IH (bot + 1) top
          {| cards := upd (cards s) bot (youngergen_card cfg);
             trace := trace s ++ [StoreCard bot (youngergen_card cfg)] |}).
        destruct (verify_all_young_refs_precise_helper_loop cfg n (bot + 1) top _)
          as [[] s'|msg s'|s']; cbn [cards] in IH.
        -- destruct IH as [Hin Hout]; [lia|]. split.
           ++ intros c Hc. destruct (Z.eq_dec c bot) as [->|Hne].
              ** split; [intros _; right; exact Hv|].
                 rewrite Hout by lia. unfold upd. rewrite Z.eqb_refl.
                 rewrite Hv, Z.eqb_refl. reflexivity.
              ** destruct (Hin c) as [Ha Hb]; [lia|].
                 unfold upd in Ha, Hb.
                 destruct (Z.eqb_spec c bot); [lia|]. split; assumption.
           ++ intros c Hc. rewrite Hout by lia. unfold upd.
              destruct (Z.eqb_spec c bot); [lia|reflexivity].
        -- destruct IH as [_ (c & Hc & H1 & H2)]; [lia|]. split; [reflexivity|].
           exists c. unfold upd in H1, H2.
           destruct (Z.eqb_spec c bot); [lia|]. repeat split; try lia; assumption.
        -- apply IH. lia.
      * unfold ret at 1.
        specialize (IH (bot + 1) top s).
        destruct (verify_all_young_refs_precise_helper_loop cfg n (bot + 1) top s)
          as [[] s'|msg s'|s'].
        -- destruct IH as [Hin Hout]; [lia|]. split.
           ++ intros c Hc. destruct (Z.eq_dec c bot) as [->|Hne].
              ** split.
                 { intros _. apply orb_true_iff in Hok.
                   destruct Hok as [H1|H1]; [apply Z.eqb_eq in H1; auto|discriminate]. }
                 rewrite Hout by lia.
                 destruct (Z.eqb_spec (cards s bot) (verify_card cfg)); [contradiction|reflexivity].
              ** apply Hin. lia.
           ++ intros c Hc. apply Hout. lia.
        -- destruct IH as [_ (c & Hc & H1 & H2)]; [lia|]. split; [reflexivity|].
           exists c. repeat split; try lia; assumption.
        -- apply IH. lia.
    + unfold ret at 1. unfold bind at 1.
      destruct (Z.eqb_spec (cards s bot) (verify_card cfg)) as [Hv|Hnv].
      * unfold store_card at 1.
        specialize (IH (bot + 1) top
          {| cards := upd (cards s) bot (youngergen_card cfg);
             trace := trace s ++ [StoreCard bot (youngergen_card cfg)] |}).
        destruct (verify_all_young_refs_precise_helper_loop cfg n (bot + 1) top _)
          as [[] s'|msg s'|s']; cbn [cards] in IH.
        -- destruct IH as [Hin Hout]; [lia|]. split.
           ++ intros c Hc. destruct (Z.eq_dec c bot) as [->|Hne].
              ** split; [intros; discriminate|].
                 rewrite Hout by lia. unfold upd. rewrite Z.eqb_refl.
                 rewrite Hv, Z.eqb_refl. reflexivity.
              ** destruct (Hin c) as [Ha Hb]; [lia|].
                 unfold upd in Ha, Hb.
                 destruct (Z.eqb_spec c bot); [lia|]. split; assumption.
           ++ intros c Hc. rewrite Hout by lia. unfold upd.
              destruct (Z.eqb_spec c bot); [lia|reflexivity].
        -- destruct IH as [Hf _]; [lia|]. discriminate.
        -- apply IH. lia.
      * unfold ret at 1.
        specialize (IH (bot + 1) top s).
        destruct (verify_all_young_refs_precise_helper_loop cfg n (bot + 1) top s)
          as [[] s'|msg s'|s'].
        -- destruct IH as [Hin Hout]; [lia|]. split.
           ++ intros c Hc. destruct (Z.eq_dec c bot) as [->|Hne].
              ** split; [intros; discriminate|].
                 rewrite Hout by lia.
                 destruct (Z.eqb_spec (cards s bot) (verify_card cfg)); [contradiction|reflexivity].
              ** apply Hin. lia.
           ++ intros c Hc. apply Hout. lia.
        -- destruct IH as [Hf _]; [lia|]. discriminate.
        -- apply IH. lia.
Qed.

(** C6. When the reference walk of [verify_all_young_refs_precise] has
    returned, the card walk that follows never runs out of steps. If the
    verifier returns, no card of [byte_for(used.start), byte_for(used.end)]
    holds [verify_card]: every card of the range that held [verify_card]
    after the reference walk now holds [youngergen_card], and every other
    card of the range has the value it had, which in a debug build was
    [clean_card]. The verifier aborts only in a debug build and only if
    some card of the range held a value other than clean and verify. *)
Theorem verify_all_young_refs_precise_no_verify_left
    cfg heap objs used_start used_end s s1 :
  youngergen_card cfg <> verify_card cfg ->
  old_gen_oop_iterate cfg heap objs s = Ret tt s1 ->
  match verify_all_young_refs_precise cfg heap objs used_start used_end s with
  | Ret _ s' =>
      forall c, byte_for cfg used_start <= c <= byte_for cfg used_end ->
        cards s' c <> verify_card cfg
        /\ (cards s1 c = verify_card cfg -> cards s' c = youngergen_card cfg)
        /\ (cards s1 c <> verify_card cfg ->
              cards s' c = cards s1 c
              /\ (ASSERT cfg = true -> cards s1 c = clean_card cfg))
  | Abort _ _ =>
      ASSERT cfg = true
      /\ exists c, byte_for cfg used_start <= c <= byte_for cfg used_end
                   /\ cards s1 c <> clean_card cfg /\ cards s1 c <> verify_card cfg
  | OutOfFuel _ => False
  end.
Proof.
  intros Hne Hwalk.
  unfold verify_all_young_refs_precise, bind. rewrite Hwalk.
  unfold verify_all_young_refs_precise_helper.
  pose proof (verify_helper_loop_spec cfg
                (Z.to_nat (byte_for cfg used_end - byte_for cfg used_start + 1))
                (byte_for cfg used_start) (byte_for cfg used_end) s1 (le_n _)) as H.
  destruct (verify_all_young_refs_precise_helper_loop cfg _ _ _ s1) as [[] s'|msg s'|s'].
  - destruct H as [Hin _]. intros c Hc. destruct (Hin c Hc) as [Hdom Hval].
    destruct (Z.eqb_spec (cards s1 c) (verify_card cfg)) as [Hv|Hnv].
    + rewrite Hval. repeat split; try congruence.
    + rewrite Hval. split; [exact Hnv|]. split; [congruence|].
      intros _. split; [reflexivity|].
      intros Hdbg. destruct (Hdom Hdbg) as [Hcl|Hv]; [exact Hcl|contradiction].
  - exact H.
  - exact H.
Qed.

(** The verifier on a heap with one old-to-young reference whose card was
    marked by the scavenge: the card ends as [youngergen_card]. *)
Lemma verify_all_young_refs_precise_no_verify_left_witness :
  match verify_all_young_refs_precise (Examples.cfg true) Examples.heap_one_young_ref
          [0] 0 100 (Examples.st [(0, 2)]) with
  | Ret _ s' =>
      forall c, byte_for (Examples.cfg true) 0 <= c <= byte_for (Examples.cfg true) 100 ->
        cards s' c <> 6
        /\ (upd (Examples.table [(0, 2)]) 0 6 c = 6 -> cards s' c = 2)
        /\ (upd (Examples.table [(0, 2)]) 0 6 c <> 6 ->
              cards s' c = upd (Examples.table [(0, 2)]) 0 6 c
              /\ (true = true -> upd (Examples.table [(0, 2)]) 0 6 c = 255))
  | Abort _ _ =>
      true = true
      /\ exists c, byte_for (Examples.cfg true) 0 <= c <= byte_for (Examples.cfg true) 100
                   /\ upd (Examples.table [(0, 2)]) 0 6 c <> 255
                   /\ upd (Examples.table [(0, 2)]) 0 6 c <> 6
  | OutOfFuel _ => False
  end.
Proof.
  apply (verify_all_young_refs_precise_no_verify_left
           (Examples.cfg true) Examples.heap_one_young_ref [0] 0 100
           (Examples.st [(0, 2)])
           {| cards := upd (Examples.table [(0, 2)]) 0 6; trace := [StoreCard 0 6] |}).
  - cbn. lia.
  - reflexivity.
Defined.

Example verify_all_young_refs_precise_one_young_ref :
  trace (final_state
           (verify_all_young_refs_precise (Examples.cfg true) Examples.heap_one_young_ref
              [0] 0 100 (Examples.st [(0, 2)])))
  = [StoreCard 0 6; StoreCard 0 2].
Proof. vm_compute. reflexivity. Qed.

(** ** The imprecise verifier *)

Lemma addr_is_marked_imprecise_outcome cfg addr s :
  (exists b, addr_is_marked_imprecise cfg addr s = Ret b s
             /\ (b = false <-> card_unmarked cfg s addr))
  \/ addr_is_marked_imprecise cfg addr s = Abort "Found unhandled card mark type" s.
Proof.
  unfold addr_is_marked_imprecise, card_unmarked, bind, load_card,
    card_is_dirty, card_is_newgen, card_is_clean, assert, guarantee, ret, abort.
  destruct (Z.eqb_spec (cards s (byte_for cfg addr)) (dirty_card cfg)) as [Hd|Hd].
  { left. exists true. split; [reflexivity|]. split; [discriminate|tauto]. }
  destruct (Z.eqb_spec (cards s (byte_for cfg addr)) (youngergen_card cfg)) as [Hy|Hy].
  { left. exists true. split; [reflexivity|]. split; [discriminate|tauto]. }
  destruct (Z.eqb_spec (cards s (byte_for cfg addr)) (clean_card cfg)) as [Hc|Hc].
  { left. exists false. split; [reflexivity|]. tauto. }
  destruct (ASSERT cfg).
  - right. reflexivity.
  - left. exists false. split; [reflexivity|]. tauto.
Qed.

Lemma CheckForUnmarkedOops_iterate_outcome cfg heap s fields : forall u,
  (exists u', CheckForUnmarkedOops_iterate cfg heap fields u s = Ret u' s
     /\ (has_unmarked_oop u' = true <->
          has_unmarked_oop u = true
          \/ exists p o, In (p, o) fields /\ is_in_reserved heap o = true
                          /\ card_unmarked cfg s p))
  \/ CheckForUnmarkedOops_iterate cfg heap fields u s
      = Abort "Found unhandled card mark type" s.
Proof.
  induction fields as [|[p o] rest IH]; intros u.
  - left. exists u. split; [reflexivity|]. split; [tauto|].
    intros [H|(p & o & [] & _)]. exact H.
  - cbn [CheckForUnmarkedOops_iterate]. unfold bind.
    unfold CheckForUnmarkedOops_do_oop_work.
    destruct (is_in_reserved heap o) eqn:Hyoung.
    + unfold bind.
      destruct (addr_is_marked_imprecise_outcome cfg p s) as [(b & -> & Hb)| -> ];
        [|right; reflexivity].
      destruct b; cbn [negb].
      * unfold ret.
        destruct (IH u) as [(u' & Hrun & Hu')|Hrun]; [left|right; exact Hrun].
        exists u'. split; [exact Hrun|]. rewrite Hu'. split.
        -- intros [H|(p' & o' & Hin & Hy & Hun)]; [tauto|].
           right. exists p', o'. split; [right; exact Hin|tauto].
        -- intros [H|(p' & o' & [Heq|Hin] & Hy & Hun)]; [tauto| |].
           ++ inversion Heq; subst. apply Hb in Hun. discriminate.
           ++ right. exists p', o'. tauto.
      * assert (Hun : card_unmarked cfg s p) by (apply Hb; reflexivity).
        destruct u as [a|]; unfold ret.
        -- destruct (IH (Some a)) as [(u' & Hrun & Hu')|Hrun]; [left|right; exact Hrun].
           exists u'. split; [exact Hrun|]. rewrite Hu'. cbn. tauto.
        -- destruct (IH (Some p)) as [(u' & Hrun & Hu')|Hrun]; [left|right; exact Hrun].
           exists u'. split; [exact Hrun|]. rewrite Hu'. cbn. split.
           ++ intros _. right. exists p, o. split; [left; reflexivity|tauto].
           ++ tauto.
    + unfold ret.
      destruct (IH u) as [(u' & Hrun & Hu')|Hrun]; [left|right; exact Hrun].
      exists u'. split; [exact Hrun|]. rewrite Hu'. split.
      * intros [H|(p' & o' & Hin & Hy & Hun)]; [tauto|].
        right. exists p', o'. split; [right; exact Hin|tauto].
      * intros [H|(p' & o' & [Heq|Hin] & Hy & Hun)]; [tauto| |].
        -- inversion Heq; subst. congruence.
        -- right. exists p', o'. tauto.
Qed.

Lemma CheckForUnmarkedObjects_do_object_outcome cfg heap s obj :
  (CheckForUnmarkedObjects_do_object cfg heap obj s = Ret tt s
   /\ ~ (holds_unmarked_young_ref cfg heap s obj /\ card_unmarked cfg s obj))
  \/ CheckForUnmarkedObjects_do_object cfg heap obj s
      = Abort "Found unhandled card mark type" s
  \/ (CheckForUnmarkedObjects_do_object cfg heap obj s
       = Abort "Found unmarked young_gen object" s
       /\ holds_unmarked_young_ref cfg heap s obj /\ card_unmarked cfg s obj).
Proof.
  unfold CheckForUnmarkedObjects_do_object, bind.
  destruct (CheckForUnmarkedOops_iterate_outcome cfg heap s (oop_fields heap obj) None)
    as [(u' & -> & Hu')| -> ]; [|right; left; reflexivity].
  cbn [has_unmarked_oop] in Hu'.
  destruct (has_unmarked_oop u') eqn:Hhas.
  - assert (Hbad : holds_unmarked_young_ref cfg heap s obj).
    { destruct Hu' as [Hu' _]. destruct (Hu' eq_refl) as [H|H]; [discriminate|exact H]. }
    unfold bind.
    destruct (addr_is_marked_imprecise_outcome cfg obj s) as [(b & -> & Hb)| -> ];
      [|right; left; reflexivity].
    destruct b; cbn.
    + left. split; [reflexivity|]. intros [_ Hun]. apply Hb in Hun. discriminate.
    + right; right. split; [reflexivity|]. split; [exact Hbad|]. apply Hb. reflexivity.
  - left. split; [reflexivity|]. intros [Hbad _].
    destruct Hu' as [_ Hu']. discriminate Hu'. right. exact Hbad.
Qed.

Lemma verify_all_young_refs_imprecise_outcome cfg heap s objs :
  (verify_all_young_refs_imprecise cfg heap objs s = Ret tt s
   /\ forall obj, In obj objs ->
        ~ (holds_unmarked_young_ref cfg heap s obj /\ card_unmarked cfg s obj))
  \/ verify_all_young_refs_imprecise cfg heap objs s
      = Abort "Found unhandled card mark type" s
  \/ (verify_all_young_refs_imprecise cfg heap objs s
       = Abort "Found unmarked young_gen object" s
       /\ exists obj, In obj objs
            /\ holds_unmarked_young_ref cfg heap s obj /\ card_unmarked cfg s obj).
Proof.
  induction objs as [|obj rest IH].
  - left. split; [reflexivity|]. intros obj [].
  - cbn [verify_all_young_refs_imprecise]. unfold bind.
    destruct (CheckForUnmarkedObjects_do_object_outcome cfg heap s obj)
      as [[-> Hok] | [-> | [-> Hbad]]].
    + destruct IH as [[-> Hrest] | [-> | [-> (o & Hin & Hbad)]]].
      * left. split; [reflexivity|]. intros o [<-|Hin]; auto.
      * right; left; reflexivity.
      * right; right. split; [reflexivity|]. exists o. split; [right; exact Hin|exact Hbad].
    + right; left; reflexivity.
    + right; right. split; [reflexivity|]. exists obj. split; [left; reflexivity|exact Hbad].
Qed.

Lemma addr_is_marked_imprecise_abort cfg addr s msg s' :
  addr_is_marked_imprecise cfg addr s = Abort msg s' ->
  ASSERT cfg = true /\ card_unhandled cfg s addr.
Proof.
  unfold addr_is_marked_imprecise, card_unhandled, bind, load_card,
    card_is_dirty, card_is_newgen, card_is_clean, assert, guarantee, ret, abort.
  destruct (Z.eqb_spec (cards s (byte_for cfg addr)) (dirty_card cfg)); [discriminate|].
  destruct (Z.eqb_spec (cards s (byte_for cfg addr)) (youngergen_card cfg)); [discriminate|].
  destruct (Z.eqb_spec (cards s (byte_for cfg addr)) (clean_card cfg)); [discriminate|].
  destruct (ASSERT cfg); [auto|discriminate].
Qed.

Lemma CheckForUnmarkedOops_iterate_abort cfg heap s fields msg s' : forall u,
  CheckForUnmarkedOops_iterate cfg heap fields u s = Abort msg s' ->
  ASSERT cfg = true
  /\ exists p o, In (p, o) fields /\ is_in_reserved heap o = true /\ card_unhandled cfg s p.
Proof.
  induction fields as [|[p o] rest IH]; intros u Hrun; [discriminate|].
  assert (Hrest : forall u', CheckForUnmarkedOops_iterate cfg heap rest u' s = Abort msg s' ->
            ASSERT cfg = true
            /\ exists p' o', In (p', o') ((p, o) :: rest) /\ is_in_reserved heap o' = true
                             /\ card_unhandled cfg s p').
  { intros u' Hr. destruct (IH u' Hr) as (Hd & p' & o' & Hin & Hy & Hun).
    split; [exact Hd|]. exists p', o'. split; [right; exact Hin|auto]. }
  cbn [CheckForUnmarkedOops_iterate] in Hrun. unfold bind in Hrun.
  unfold CheckForUnmarkedOops_do_oop_work in Hrun.
  destruct (is_in_reserved heap o) eqn:Hyoung; [|exact (Hrest u Hrun)].
  unfold bind in Hrun.
  destruct (addr_is_marked_imprecise_outcome cfg p s) as [(b & Hb & _)|Hb];
    rewrite Hb in Hrun.
  - destruct b; cbn [negb] in Hrun; [exact (Hrest u Hrun)|].
    destruct u; exact (Hrest _ Hrun).
  - destruct (addr_is_marked_imprecise_abort cfg p s _ _ Hb) as [Hd Hun].
    split; [exact Hd|]. exists p, o. split; [left; reflexivity|auto].
Qed.

(** The assert of [addr_is_marked_imprecise] stops the verifier only in a
    debug build and only at an examined card with an unhandled value. *)
Lemma verify_all_young_refs_imprecise_assert_only cfg heap objs s s' :
  verify_all_young_refs_imprecise cfg heap objs s
    = Abort "Found unhandled card mark type" s' ->
  ASSERT cfg = true /\ examines_unhandled_card cfg heap s objs.
Proof.
  induction objs as [|obj rest IH]; intros Hrun; [discriminate|].
  assert (Hrest : verify_all_young_refs_imprecise cfg heap rest s
                    = Abort "Found unhandled card mark type" s' ->
                  ASSERT cfg = true /\ examines_unhandled_card cfg heap s (obj :: rest)).
  { intros Hr. destruct (IH Hr) as (Hd & o & Hin & Hex).
    split; [exact Hd|]. exists o. split; [right; exact Hin|exact Hex]. }
  cbn [verify_all_young_refs_imprecise] in Hrun. unfold bind at 1 in Hrun.
  unfold CheckForUnmarkedObjects_do_object, bind in Hrun.
  destruct (CheckForUnmarkedOops_iterate cfg heap (oop_fields heap obj) None s)
    as [u' s1|msg s1|s1] eqn:Hit; [|clear Hrun|discriminate].
  - destruct (CheckForUnmarkedOops_iterate_outcome cfg heap s (oop_fields heap obj) None)
      as [(u'' & Hrun' & Hu')|Hrun']; rewrite Hrun' in Hit; [|discriminate].
    inversion Hit; subst u'' s1; clear Hit.
    destruct (has_unmarked_oop u') eqn:Hhas; [|exact (Hrest Hrun)].
    assert (Hbad : holds_unmarked_young_ref cfg heap s obj).
    { destruct Hu' as [Hu' _]. destruct (Hu' eq_refl) as [H|H]; [discriminate|exact H]. }
    destruct (addr_is_marked_imprecise_outcome cfg obj s) as [(b & Hb & _)|Hb];
      rewrite Hb in Hrun.
    + destruct b; cbn in Hrun; [exact (Hrest Hrun)|discriminate].
    + destruct (addr_is_marked_imprecise_abort cfg obj s _ _ Hb) as [Hd Hun].
      split; [exact Hd|]. exists obj. split; [left; reflexivity|right; auto].
  - destruct (CheckForUnmarkedOops_iterate_abort cfg heap s _ _ _ _ Hit)
      as (Hd & p & o & Hin & Hy & Hun).
    split; [exact Hd|]. exists obj. split; [left; reflexivity|left].
    exists p, o. auto.
Qed.

(** C7, as the code has it. When some old object holds a reference into the
    young generation in a slot whose card is neither dirty nor newgen and
    the card of the object's start is neither dirty nor newgen either, the
    imprecise verifier aborts: at the guarantee
    [Found unmarked young_gen object], or, in a debug build only, at the
    assert [Found unhandled card mark type] on an examined card whose value
    is none of dirty, newgen and clean. When no old object holds a young
    reference in a slot whose card is neither dirty nor newgen, the
    verifier returns, whatever the cards of the objects' starts. In every
    case the state is as before. *)
Theorem verify_all_young_refs_imprecise_aborts cfg heap objs s :
  ((exists obj, In obj objs
                /\ holds_unmarked_young_ref cfg heap s obj /\ card_unmarked cfg s obj) ->
   verify_all_young_refs_imprecise cfg heap objs s
     = Abort "Found unmarked young_gen object" s
   \/ (ASSERT cfg = true
       /\ examines_unhandled_card cfg heap s objs
       /\ verify_all_young_refs_imprecise cfg heap objs s
          = Abort "Found unhandled card mark type" s))
  /\ ((forall obj, In obj objs -> ~ holds_unmarked_young_ref cfg heap s obj) ->
      verify_all_young_refs_imprecise cfg heap objs s = Ret tt s).
Proof.
  split.
  - intros (obj & Hin & Hbad).
    destruct (verify_all_young_refs_imprecise_outcome cfg heap s objs)
      as [[_ Hok] | [Hrun | [Hrun _]]].
    + exfalso. exact (Hok obj Hin Hbad).
    + right. destruct (verify_all_young_refs_imprecise_assert_only cfg heap objs s s Hrun)
        as [Hd Hex]. auto.
    + left. exact Hrun.
  - intros Hnone.
    destruct (verify_all_young_refs_imprecise_outcome cfg heap s objs)
      as [[Hrun _] | [Hrun | [_ (obj & Hin & Hbad & _)]]].
    + exact Hrun.
    + exfalso.
      destruct (verify_all_young_refs_imprecise_assert_only cfg heap objs s s Hrun)
        as [_ (obj & Hin & [(p & o & Hf & Hy & Hun)|[Hbad _]])].
      * apply (Hnone obj Hin). exists p, o. split; [exact Hf|]. split; [exact Hy|].
        destruct Hun as (H1 & H2 & _). split; assumption.
      * exact (Hnone obj Hin Hbad).
    + exfalso. exact (Hnone obj Hin Hbad).
Qed.

(** An object with a young reference on a clean card and a clean start card
    stops the verifier at the guarantee; the same object with the reference
    on a dirty card passes. *)
Lemma verify_all_young_refs_imprecise_aborts_witness :
  verify_all_young_refs_imprecise (Examples.cfg true) Examples.heap_one_young_ref
    [0] (Examples.st []) = Abort "Found unmarked young_gen object" (Examples.st [])
  /\ verify_all_young_refs_imprecise (Examples.cfg true)
       Examples.heap_young_ref_on_second_card [0] (Examples.st [(1, 0)])
     = Ret tt (Examples.st [(1, 0)]).
Proof.
  split.
  - destruct (proj1 (verify_all_young_refs_imprecise_aborts
                       (Examples.cfg true) Examples.heap_one_young_ref [0] (Examples.st [])))
      as [Hrun|(_ & _ & Hrun)].
    + exists 0. split; [left; reflexivity|]. split.
      * exists 10, (Examples.young_lo + 8). split; [left; reflexivity|].
        split; [reflexivity|]. split; vm_compute; discriminate.
      * split; vm_compute; discriminate.
    + exact Hrun.
    + vm_compute in Hrun. discriminate.
  - apply (proj2 (verify_all_young_refs_imprecise_aborts
                    (Examples.cfg true) Examples.heap_young_ref_on_second_card [0]
                    (Examples.st [(1, 0)]))).
    intros obj [<-|[]] (p & o & [Hf|[]] & _ & Hun & _).
    inversion Hf; subst p o. apply Hun. reflexivity.
Defined.

(** The guarantee fires only for such an object, and the verifier accepts a
    heap without one unless a card holds an unhandled value. *)
Lemma verify_all_young_refs_imprecise_guarantee_only cfg heap objs s s' :
  verify_all_young_refs_imprecise cfg heap objs s
    = Abort "Found unmarked young_gen object" s' ->
  exists obj, In obj objs
              /\ holds_unmarked_young_ref cfg heap s obj /\ card_unmarked cfg s obj.
Proof.
  intros Hrun.
  destruct (verify_all_young_refs_imprecise_outcome cfg heap s objs)
    as [[Hr _] | [Hr | [_ Hbad]]]; [congruence|congruence|exact Hbad].
Qed.

(** C7 as specified fails: an object spanning cards 0 and 1 whose only young
    reference sits on the dirty card 1 passes the verifier although the card
    of its start is clean. *)
Lemma imprecise_verifier_as_specified_fails :
  ~ imprecise_verifier_as_specified (Examples.cfg true)
      Examples.heap_young_ref_on_second_card [0] (Examples.st [(1, 0)]).
Proof.
  unfold imprecise_verifier_as_specified. intros H.
  destruct H as (msg & s' & Hrun).
  - exists 0. split; [left; reflexivity|]. split.
    + exists 70, (Examples.young_lo + 8). split; [left; reflexivity|reflexivity].
    + split; vm_compute; discriminate.
  - vm_compute in Hrun. discriminate.
Qed.

(** ** Parsable spaces *)

Lemma interval_app lo mid hi :
  lo <= mid <= hi -> interval lo hi = interval lo mid ++ interval mid hi.
Proof.
  remember (Z.to_nat (mid - lo)) as n eqn:Hn.
  revert lo Hn. induction n as [|n IH]; intros lo Hn H.
  - replace mid with lo by lia. rewrite (interval_nil lo lo) by lia. reflexivity.
  - rewrite (interval_cons lo hi), (interval_cons lo mid) by lia.
    cbn. f_equal. apply IH; lia.
Qed.

Lemma filter_interval_skip (f : Z -> bool) lo mid hi :
  lo <= mid <= hi ->
  (forall x, lo <= x < mid -> f x = false) ->
  filter f (interval lo hi) = filter f (interval mid hi).
Proof.
  intros H Hf. rewrite (interval_app lo mid hi) by lia.
  rewrite filter_app.
  rewrite (filter_ext_in f (fun _ => false)), filter_false; [reflexivity|].
  intros x Hx. apply in_interval in Hx. auto.
Qed.

Lemma starts_in_cons heap bottom top a :
  heap_parsable heap bottom top ->
  bottom <= a < top -> object_start heap a = a ->
  starts_in heap a top = a :: starts_in heap (a + size heap a) top
  /\ a < a + size heap a <= top
  /\ (a + size heap a < top -> object_start heap (a + size heap a) = a + size heap a).
Proof.
  intros Hp Ha Hs.
  pose proof (parsable_cover _ _ _ Hp a Ha) as Hcov. rewrite Hs in Hcov.
  assert (Hsame : forall b, a <= b < a + size heap a -> object_start heap b = a).
  { intros b Hb. transitivity (object_start heap a); [|exact Hs].
    apply (parsable_same _ _ _ Hp a b Ha). rewrite Hs. exact Hb. }
  split; [|split; [exact Hcov|]].
  - unfold starts_in. rewrite (interval_cons a top) by lia.
    cbn [filter]. rewrite Hs, Z.eqb_refl. f_equal.
    apply filter_interval_skip; [lia|].
    intros x Hx. rewrite Hsame by lia. apply Z.eqb_neq. lia.
  - intros He. set (e := a + size heap a) in *.
    pose proof (parsable_start _ _ _ Hp e ltac:(lia)) as Hst.
    pose proof (parsable_cover _ _ _ Hp e ltac:(lia)) as Hce.
    destruct (Z.eq_dec (object_start heap e) e) as [|Hne]; [assumption|exfalso].
    assert (H1 : object_start heap (e - 1) = object_start heap e).
    { apply (parsable_same _ _ _ Hp e (e - 1)); lia. }
    rewrite (Hsame (e - 1)) in H1 by lia.
    rewrite <- H1 in Hce. lia.
Qed.

(** ** scan_objects_in_range *)

Lemma scan_objects_in_range_loop_spec cfg heap bottom top n : forall a s,
  heap_parsable heap bottom top ->
  (ASSERT cfg = true -> forall x, bottom <= x < top -> object_start heap x = x ->
     is_oop heap x = true /\ is_objArray heap x && is_large_obj_array heap x = false) ->
  bottom <= a <= top -> (a < top -> object_start heap a = a) ->
  (Z.to_nat (top - a) <= n)%nat ->
  scan_objects_in_range_loop cfg heap n a top s
    = Ret tt {| cards := cards s;
                trace := trace s ++ map PushContents (starts_in heap a top) |}
  /\ chained heap (starts_in heap a top).
Proof.
  induction n as [|n IH]; intros a s Hp Hdbg Ha Hs Hn.
  - assert (a = top) by lia. subst a. cbn.
    rewrite Z.ltb_irrefl. unfold starts_in. rewrite interval_nil by lia.
    cbn. rewrite app_nil_r. destruct s; split; [reflexivity|exact I].
  - cbn [scan_objects_in_range_loop].
    destruct (Z.ltb_spec a top) as [Hlt|Hge].
    2:{ unfold starts_in. rewrite interval_nil by lia.
        cbn. rewrite app_nil_r. destruct s; split; [reflexivity|exact I]. }
    destruct (starts_in_cons heap bottom top a Hp ltac:(lia) (Hs Hlt))
      as (Hcons & Hsz & Hnext).
    destruct (IH (a + size heap a)
                {| cards := cards s; trace := trace s ++ [PushContents a] |}
                Hp Hdbg ltac:(lia) Hnext ltac:(lia)) as [Hrun Hch].
    split.
    + unfold bind, assert, guarantee, emit, ret.
      destruct (ASSERT cfg) eqn:Hd.
      * destruct (Hdbg eq_refl a ltac:(lia) (Hs Hlt)) as [-> Hla].
        replace (negb (is_objArray heap a) || negb (is_large_obj_array heap a)) with true
          by (destruct (is_objArray heap a), (is_large_obj_array heap a);
              cbn in *; congruence).
        rewrite Hrun. cbn [cards trace]. rewrite Hcons. cbn [map].
        rewrite <- app_assoc. reflexivity.
      * rewrite Hrun. cbn [cards trace]. rewrite Hcons. cbn [map].
        rewrite <- app_assoc. reflexivity.
    + rewrite Hcons. destruct (starts_in heap (a + size heap a) top) as [|b t] eqn:Hrest.
      * exact I.
      * split; [|exact Hch].
        destruct (Z.ltb_spec (a + size heap a) top) as [Hl|Hg].
        -- destruct (starts_in_cons heap bottom top (a + size heap a) Hp ltac:(lia) (Hnext Hl))
             as (Hc2 & _). rewrite Hc2 in Hrest. congruence.
        -- unfold starts_in in Hrest. rewrite interval_nil in Hrest by lia. discriminate.
Qed.

(** C8. On a range [start, end) that is parsable (its first word is an object
    start and its objects end at [end] at the latest),
    [scan_objects_in_range] returns after calling [push_contents] exactly
    once for each object starting in the range, in increasing address
    order, each next object being the previous one advanced by its size,
    and then [drain_stacks_cond_depth] once; it stores to no card. In a debug
    build this needs the objects to pass the function's two asserts. *)
Theorem scan_objects_in_range_pushes_each_object cfg heap start end_ s :
  heap_parsable heap start end_ ->
  start <= end_ ->
  (ASSERT cfg = true -> forall x, start <= x < end_ -> object_start heap x = x ->
     is_oop heap x = true /\ is_objArray heap x && is_large_obj_array heap x = false) ->
  scan_objects_in_range cfg heap start end_ s
    = Ret tt {| cards := cards s;
                trace := trace s ++ map PushContents (starts_in heap start end_)
                                 ++ [DrainStacksCondDepth] |}
  /\ chained heap (starts_in heap start end_)
  /\ (forall a, In a (starts_in heap start end_) <->
                 start <= a < end_ /\ object_start heap a = a).
Proof.
  intros Hp Hle Hdbg.
  assert (Hs : start < end_ -> object_start heap start = start).
  { intros Hlt. pose proof (parsable_start _ _ _ Hp start ltac:(lia)). lia. }
  destruct (scan_objects_in_range_loop_spec cfg heap start end_
              (Z.to_nat (end_ - start)) start s Hp Hdbg ltac:(lia) Hs (le_n _))
    as [Hrun Hch].
  split; [|split; [exact Hch|]].
  - unfold scan_objects_in_range, bind. rewrite Hrun.
    unfold emit. cbn [cards trace]. rewrite <- app_assoc. reflexivity.
  - intros a. unfold starts_in. rewrite filter_In, in_interval, Z.eqb_eq. tauto.
Qed.

Ltac layout_cases :=
  repeat match goal with
  | H : context [?a <=? ?b] |- _ => destruct (Z.leb_spec a b)
  | |- context [?a <=? ?b] => destruct (Z.leb_spec a b)
  | H : context [?a =? ?b] |- _ => destruct (Z.eqb_spec a b)
  | |- context [?a =? ?b] => destruct (Z.eqb_spec a b)
  end.

Ltac layout_parsable :=
  constructor; intros; cbn in *; unfold Examples.layout_start, Examples.layout_find in *;
  cbn in *; layout_cases; cbn in *; lia.

Lemma heap_three_objects_parsable : heap_parsable Examples.heap_three_objects 0 256.
Proof. layout_parsable. Qed.

Lemma heap_two_objects_parsable : heap_parsable Examples.heap_two_objects 0 256.
Proof. layout_parsable. Qed.

Lemma heap_clean_island_parsable : heap_parsable Examples.heap_clean_island 0 256.
Proof. layout_parsable. Qed.

(** Three objects in four cards are pushed in address order, then the
    stacks are drained. *)
Lemma scan_objects_in_range_pushes_each_object_witness :
  scan_objects_in_range (Examples.cfg true) Examples.heap_three_objects 0 256 (Examples.st [])
    = Ret tt {| cards := cards (Examples.st []);
                trace := trace (Examples.st [])
                         ++ map PushContents (starts_in Examples.heap_three_objects 0 256)
                         ++ [DrainStacksCondDepth] |}
  /\ chained Examples.heap_three_objects (starts_in Examples.heap_three_objects 0 256)
  /\ (forall a, In a (starts_in Examples.heap_three_objects 0 256) <->
                 0 <= a < 256 /\ object_start Examples.heap_three_objects a = a).
Proof.
  apply (scan_objects_in_range_pushes_each_object
           (Examples.cfg true) Examples.heap_three_objects 0 256 (Examples.st [])).
  - exact heap_three_objects_parsable.
  - lia.
  - intros _ x Hx Hs.
    assert (Hcases : x = 0 \/ x = 70 \/ x = 200).
    { cbn in Hs. unfold Examples.layout_start in Hs. cbn in Hs. layout_cases; lia. }
    destruct Hcases as [-> | [-> | ->]]; split; reflexivity.
Defined.

Example scan_objects_in_range_three_objects :
  trace (final_state (scan_objects_in_range (Examples.cfg true) Examples.heap_three_objects
                        0 256 (Examples.st [])))
  = [PushContents 0; PushContents 70; PushContents 200; DrainStacksCondDepth].
Proof. vm_compute. reflexivity. Qed.

(** ** Card arithmetic *)

Section CardArithmetic.

Variable cfg : Config.
Hypothesis card_size_pos : 0 < card_size_in_words cfg.

Lemma byte_for_spec a :
  addr_for cfg (byte_for cfg a) <= a < addr_for cfg (byte_for cfg a + 1).
Proof.
  unfold addr_for, byte_for.
  pose proof (Z.div_mod a (card_size_in_words cfg) ltac:(lia)).
  pose proof (Z.mod_pos_bound a (card_size_in_words cfg) card_size_pos).
  nia.
Qed.

Lemma byte_for_unique a c :
  addr_for cfg c <= a < addr_for cfg (c + 1) -> byte_for cfg a = c.
Proof.
  intros H. pose proof (byte_for_spec a) as Hs.
  unfold addr_for in *. nia.
Qed.

Lemma byte_for_mono a b : a <= b -> byte_for cfg a <= byte_for cfg b.
Proof. intros H. unfold byte_for. apply Z.div_le_mono; lia. Qed.

Lemma byte_for_addr_for c : byte_for cfg (addr_for cfg c) = c.
Proof. apply byte_for_unique. unfold addr_for. nia. Qed.

Lemma addr_for_le_iff c a : c <= byte_for cfg a <-> addr_for cfg c <= a.
Proof.
  pose proof (byte_for_spec a) as Hs. unfold addr_for in *. split; intros H; nia.
Qed.

Lemma addr_for_mono c d : c <= d -> addr_for cfg c <= addr_for cfg d.
Proof. unfold addr_for. nia. Qed.

Lemma byte_for_pred a : byte_for cfg a <= byte_for cfg (a - 1) + 1.
Proof.
  pose proof (byte_for_spec a) as Ha. pose proof (byte_for_spec (a - 1)) as Hb.
  unfold addr_for in *. nia.
Qed.

Lemma byte_for_pred_aligned a :
  is_card_aligned cfg a = true -> byte_for cfg (a - 1) + 1 = byte_for cfg a.
Proof.
  unfold is_card_aligned. intros H. apply Z.eqb_eq in H.
  pose proof (Z.div_mod a (card_size_in_words cfg) ltac:(lia)) as Hd.
  rewrite H in Hd.
  assert (byte_for cfg (a - 1) = byte_for cfg a - 1); [|lia].
  apply byte_for_unique. unfold addr_for, byte_for. nia.
Qed.

Lemma byte_for_pred_unaligned a :
  is_card_aligned cfg a = false -> byte_for cfg (a - 1) = byte_for cfg a.
Proof.
  unfold is_card_aligned. intros H. apply Z.eqb_neq in H.
  pose proof (Z.div_mod a (card_size_in_words cfg) ltac:(lia)) as Hd.
  pose proof (Z.mod_pos_bound a (card_size_in_words cfg) card_size_pos).
  apply byte_for_unique. unfold addr_for, byte_for. nia.
Qed.

Lemma is_card_aligned_addr_for c : is_card_aligned cfg (addr_for cfg c) = true.
Proof.
  unfold is_card_aligned, addr_for. apply Z.eqb_eq. apply Z.mod_mul. lia.
Qed.

End CardArithmetic.

(** ** The object-aware clean-card search *)

Section ObjectAwareSearch.

Variable cfg : Config.
Variable heap : Heap.
Variable s : state.
Variables bottom top : HeapWord.
Variables start_card end_card : CardPtr.

Hypothesis card_size_pos : 0 < card_size_in_words cfg.
Hypothesis Hparsable : heap_parsable heap bottom top.
Hypothesis Hbottom : bottom < addr_for cfg (start_card + 1).
Hypothesis Htop : addr_for cfg (end_card - 1) <= top.
Hypothesis Hend : forall c, start_card < c < end_card ->
  cards s c = clean_card cfg ->
  (forall c', start_card < c' < c -> ~ run_ends_at cfg heap (cards s) c') ->
  final_card_by_obj cfg heap c < end_card.

Lemma final_card_by_obj_same i j :
  start_card < i < end_card -> i < j <= final_card_by_obj cfg heap i ->
  final_card_by_obj cfg heap j = final_card_by_obj cfg heap i.
Proof.
  intros Hi Hj. unfold final_card_by_obj in *. cbv zeta in *.
  pose proof (addr_for_mono cfg card_size_pos (start_card + 1) i ltac:(lia)).
  pose proof (addr_for_mono cfg card_size_pos i (end_card - 1) ltac:(lia)).
  pose proof (addr_for_mono cfg card_size_pos (i + 1) j ltac:(lia)).
  assert (Hai : addr_for cfg i < addr_for cfg (i + 1)) by (unfold addr_for; nia).
  assert (Ha : bottom <= addr_for cfg i - 1 < top) by lia.
  pose proof (parsable_start _ _ _ Hparsable _ Ha).
  assert (Hb : object_start heap (addr_for cfg j - 1) = object_start heap (addr_for cfg i - 1)).
  { apply (parsable_same _ _ _ Hparsable _ _ Ha). split; [lia|].
    destruct Hj as [_ Hj]. apply (addr_for_le_iff cfg card_size_pos) in Hj. lia. }
  rewrite Hb. reflexivity.
Qed.

Lemma find_first_clean_card_obj_loop_spec n : forall i,
  start_card < i <= end_card ->
  cards s (i - 1) <> clean_card cfg ->
  (forall c, start_card < c < i -> ~ run_ends_at cfg heap (cards s) c) ->
  (Z.to_nat (end_card - i) <= n)%nat ->
  exists r,
    find_first_clean_card_obj_loop cfg heap n start_card i end_card s = Ret r s
    /\ i <= r <= end_card
    /\ (r < end_card -> run_ends_at cfg heap (cards s) r)
    /\ (forall c, start_card < c < r -> ~ run_ends_at cfg heap (cards s) c).
Proof.
  induction n as [|n IH]; intros i Hi Hprev Hnone Hn.
  - assert (i = end_card) by lia. subst i. cbn. rewrite Z.ltb_irrefl.
    exists end_card. repeat split; try lia; auto.
  - cbn [find_first_clean_card_obj_loop].
    destruct (Z.ltb_spec i end_card) as [Hlt|Hge].
    2:{ exists end_card. assert (i = end_card) by lia. subst i.
        repeat split; try lia; auto. }
    unfold bind at 1. unfold load_card at 1.
    destruct (Z.eqb_spec (cards s i) (clean_card cfg)) as [Hclean|Hdirty]; cbn [negb].
    2:{ destruct (IH (i + 1)) as (r & Hrun & Hr & Hstop & Hfirst); try lia.
        - replace (i + 1 - 1) with i by lia. exact Hdirty.
        - intros c Hc. destruct (Z.eq_dec c i) as [->|Hne].
          + intros [Hcl _]. contradiction.
          + apply Hnone. lia.
        - exists r. split; [exact Hrun|]. split; [lia|]. split; assumption. }
    fold (final_card_by_obj cfg heap i).
    pose proof (Hend i ltac:(lia) Hclean Hnone) as Hfin.
    assert (E1 : (start_card <=? i - 1) = true) by (apply Z.leb_le; lia).
    assert (E2 : negb (cards s (i - 1) =? clean_card cfg) = true).
    { apply negb_true_iff, Z.eqb_neq. exact Hprev. }
    assert (E3 : (final_card_by_obj cfg heap i <? end_card) = true) by (apply Z.ltb_lt; lia).
    assert (Hasserts : forall (k : M CardPtr),
      (assert cfg (start_card <=? i - 1) "inv" ;;;
       prev <- load_card (i - 1) ;;
       assert cfg (negb (prev =? clean_card cfg)) "prev card must be dirty" ;;;
       assert cfg (final_card_by_obj cfg heap i <? end_card) "inv" ;;; k) s = k s).
    { intros k. unfold bind, assert, guarantee, load_card, ret.
      destruct (ASSERT cfg); [|reflexivity].
      rewrite E1. cbv beta iota. rewrite E2. cbv beta iota. rewrite E3. reflexivity. }
    cbv zeta. fold (final_card_by_obj cfg heap i). rewrite Hasserts.
    destruct (Z.leb_spec (final_card_by_obj cfg heap i) i) as [Hle|Hgt].
    { exists i. unfold ret. repeat split; try lia; auto. }
    assert (Hskip : forall c, i <= c < final_card_by_obj cfg heap i ->
                              ~ run_ends_at cfg heap (cards s) c).
    { intros c Hc [_ Hf]. destruct (Z.eq_dec c i) as [->|Hne]; [lia|].
      rewrite (final_card_by_obj_same i c) in Hf; lia. }
    unfold bind at 1. unfold load_card at 1.
    destruct (Z.eqb_spec (cards s (final_card_by_obj cfg heap i)) (clean_card cfg))
      as [Hfc|Hfd].
    + exists (final_card_by_obj cfg heap i). unfold ret.
      split; [reflexivity|]. split; [lia|]. split.
      * intros _. split; [exact Hfc|].
        rewrite (final_card_by_obj_same i (final_card_by_obj cfg heap i)); lia.
      * intros c Hc. destruct (Z.lt_ge_cases c i); [apply Hnone; lia|apply Hskip; lia].
    + destruct (IH (final_card_by_obj cfg heap i + 1)) as (r & Hrun & Hr & Hstop & Hfirst);
        try lia.
      * replace (final_card_by_obj cfg heap i + 1 - 1)
          with (final_card_by_obj cfg heap i) by lia. exact Hfd.
      * intros c Hc. destruct (Z.lt_ge_cases c i); [apply Hnone; lia|].
        destruct (Z.eq_dec c (final_card_by_obj cfg heap i)) as [->|Hne].
        -- intros [Hcl _]. contradiction.
        -- apply Hskip. lia.
      * exists r. split; [exact Hrun|]. split; [lia|]. split; assumption.
Qed.

End ObjectAwareSearch.

(** C1, as the code has it. In a parsable space, for a card range
    [start, end) whose first card is not clean and in which no examined
    object ends on or after [end], the object-aware search returns the first
    card [c] of (start, end) such that [c] is clean and the object covering
    the last word of card [c - 1] has its last word on card [c] or earlier,
    or [end] if there is no such card. The card returned may hold the tail
    of an object that starts on an earlier dirty card. The bound on the
    examined objects is asked only at the clean cards that no such card
    precedes: the search stops at the first of them, so it examines no
    clean card after it. *)
Theorem find_first_clean_card_obj_first_run_end
    cfg heap s bottom top start_card end_card :
  0 < card_size_in_words cfg ->
  heap_parsable heap bottom top ->
  bottom < addr_for cfg (start_card + 1) ->
  addr_for cfg (end_card - 1) <= top ->
  (forall c, start_card < c < end_card ->
     cards s c = clean_card cfg ->
     (forall c', start_card < c' < c -> ~ run_ends_at cfg heap (cards s) c') ->
     final_card_by_obj cfg heap c < end_card) ->
  start_card < end_card ->
  cards s start_card <> clean_card cfg ->
  exists r,
    find_first_clean_card_obj cfg heap start_card end_card s = Ret r s
    /\ start_card < r <= end_card
    /\ (r < end_card -> run_ends_at cfg heap (cards s) r)
    /\ (forall c, start_card < c < r -> ~ run_ends_at cfg heap (cards s) c).
Proof.
  intros Hcs Hp Hb Ht Hend Hlt Hdirty.
  destruct (find_first_clean_card_obj_loop_spec cfg heap s bottom top start_card end_card
              Hcs Hp Hb Ht Hend (Z.to_nat (end_card - start_card)) (start_card + 1))
    as (r & Hrun & Hr & Hstop & Hfirst).
  - lia.
  - replace (start_card + 1 - 1) with start_card by lia. exact Hdirty.
  - intros c Hc. lia.
  - lia.
  - exists r. split; [|split; [lia|split; assumption]].
    unfold find_first_clean_card_obj, bind, load_card, assert, guarantee, ret.
    assert (E : (start_card =? end_card) || negb (cards s start_card =? clean_card cfg) = true).
    { apply orb_true_iff. right. apply negb_true_iff, Z.eqb_neq. exact Hdirty. }
    rewrite E. destruct (ASSERT cfg); exact Hrun.
Qed.

(** Card 0 dirty, cards 1 and 2 clean, the object of words [0, 70) ending
    on card 1 and the next one reaching card 3, the end of the range: the
    search examines card 1 only and stops there, so the object that
    precedes card 2 is not examined and may end on card 3. *)
Lemma find_first_clean_card_obj_first_run_end_witness :
  exists r,
    find_first_clean_card_obj (Examples.cfg true) Examples.heap_two_objects 0 3
      (Examples.st [(0, 0)]) = Ret r (Examples.st [(0, 0)])
    /\ 0 < r <= 3
    /\ (r < 3 -> run_ends_at (Examples.cfg true) Examples.heap_two_objects
                   (cards (Examples.st [(0, 0)])) r)
    /\ (forall c, 0 < c < r ->
          ~ run_ends_at (Examples.cfg true) Examples.heap_two_objects
              (cards (Examples.st [(0, 0)])) c).
Proof.
  apply (find_first_clean_card_obj_first_run_end
           (Examples.cfg true) Examples.heap_two_objects
           (Examples.st [(0, 0)]) 0 256 0 3).
  - reflexivity.
  - exact heap_two_objects_parsable.
  - reflexivity.
  - vm_compute. discriminate.
  - intros c Hc _ Hnone.
    assert (Hcases : c = 1 \/ c = 2) by lia.
    destruct Hcases as [-> | ->]; [reflexivity|].
    exfalso. apply (Hnone 1); [lia|].
    split; [reflexivity|vm_compute; discriminate].
  - lia.
  - vm_compute. discriminate.
Defined.

Example find_first_clean_card_obj_clean_island :
  find_first_clean_card_obj (Examples.cfg true) Examples.heap_clean_island 0 4
    (Examples.st [(0, 0); (2, 0)]) = Ret 3 (Examples.st [(0, 0); (2, 0)]).
Proof. vm_compute. reflexivity. Qed.

(** C1 as specified fails: with card 0 dirty, card 1 clean and an object
    from word 0 into card 1, the search returns card 1 although an object
    that starts on the dirty card 0 extends onto it. *)
Lemma object_aware_search_as_specified_fails :
  ~ object_aware_search_as_specified (Examples.cfg true) Examples.heap_two_objects
      (Examples.st [(0, 0)]) 0 3.
Proof.
  unfold object_aware_search_as_specified. intros H.
  assert (Hrun : find_first_clean_card_obj (Examples.cfg true) Examples.heap_two_objects 0 3
                   (Examples.st [(0, 0)]) = Ret 1 (Examples.st [(0, 0)]))
    by (vm_compute; reflexivity).
  destruct (H 1 Hrun) as [[Heq | (_ & _ & Hnc)] _].
  - discriminate.
  - apply Hnc. exists 0. repeat split; vm_compute; discriminate.
Qed.

(** ** The byte scanners *)

Lemma find_first_dirty_card_loop_spec cfg ct end_card n : forall i,
  i <= end_card -> (Z.to_nat (end_card - i) <= n)%nat ->
  let d := find_first_dirty_card_loop cfg n ct i end_card in
  i <= d <= end_card
  /\ (d < end_card -> ct d <> clean_card cfg)
  /\ (forall c, i <= c < d -> ct c = clean_card cfg).
Proof.
  induction n as [|n IH]; intros i Hi Hn; cbn.
  - repeat split; intros; lia.
  - destruct (Z.ltb_spec i end_card) as [Hlt|Hge].
    + destruct (Z.eqb_spec (ct i) (clean_card cfg)) as [Hc|Hd]; cbn.
      * destruct (IH (i + 1) ltac:(lia) ltac:(lia)) as (H1 & H2 & H3).
        split; [lia|]. split; [exact H2|].
        intros c Hc'. destruct (Z.eq_dec c i) as [->|]; [exact Hc|apply H3; lia].
      * split; [lia|]. split; [intros _; exact Hd|]. intros c Hc'. lia.
    + repeat split; intros; lia.
Qed.

Lemma find_first_dirty_card_spec cfg ct start_card end_card :
  start_card <= end_card ->
  let d := find_first_dirty_card cfg ct start_card end_card in
  start_card <= d <= end_card
  /\ (d < end_card -> ct d <> clean_card cfg)
  /\ (forall c, start_card <= c < d -> ct c = clean_card cfg).
Proof.
  intros H. apply find_first_dirty_card_loop_spec; [exact H|apply le_n].
Qed.

Lemma find_first_clean_card_loop_spec cfg ct end_card n : forall i,
  i <= end_card -> (Z.to_nat (end_card - i) <= n)%nat ->
  let d := find_first_clean_card_loop cfg n ct i end_card in
  i <= d <= end_card
  /\ (d < end_card -> ct d = clean_card cfg)
  /\ (forall c, i <= c < d -> ct c <> clean_card cfg).
Proof.
  induction n as [|n IH]; intros i Hi Hn; cbn.
  - repeat split; intros; lia.
  - destruct (Z.ltb_spec i end_card) as [Hlt|Hge].
    + destruct (Z.eqb_spec (ct i) (clean_card cfg)) as [Hc|Hd]; cbn.
      * split; [lia|]. split; [intros _; exact Hc|]. intros c Hc'. lia.
      * destruct (IH (i + 1) ltac:(lia) ltac:(lia)) as (H1 & H2 & H3).
        split; [lia|]. split; [exact H2|].
        intros c Hc'. destruct (Z.eq_dec c i) as [->|]; [exact Hd|apply H3; lia].
    + repeat split; intros; lia.
Qed.

Lemma find_first_clean_card_spec cfg ct start_card end_card :
  start_card <= end_card ->
  let d := find_first_clean_card cfg ct start_card end_card in
  start_card <= d <= end_card
  /\ (d < end_card -> ct d = clean_card cfg)
  /\ (forall c, start_card <= c < d -> ct c <> clean_card cfg).
Proof.
  intros H. apply find_first_clean_card_loop_spec; [exact H|apply le_n].
Qed.

(** ** Traces of computations *)

Lemma emits_ret {A} P (a : A) : emits P (ret a).
Proof. intros s. exists []. cbn. rewrite app_nil_r. auto. Qed.

Lemma emits_abort {A} P msg : emits P (@abort A msg).
Proof. intros s. exists []. cbn. rewrite app_nil_r. auto. Qed.

Lemma emits_out_of_fuel {A} P : emits P (@out_of_fuel A).
Proof. intros s. exists []. cbn. rewrite app_nil_r. auto. Qed.

Lemma emits_bind {A B} P (m : M A) (k : A -> M B) :
  emits P m -> (forall a, emits P (k a)) -> emits P (bind m k).
Proof.
  intros Hm Hk s. unfold bind.
  destruct (Hm s) as (tr1 & Htr1 & HP1).
  destruct (m s) as [a s1|msg s1|s1]; cbn in *.
  - destruct (Hk a s1) as (tr2 & Htr2 & HP2).
    exists (tr1 ++ tr2). rewrite Htr2, Htr1, app_assoc. split; [reflexivity|].
    apply Forall_app; auto.
  - exists tr1. auto.
  - exists tr1. auto.
Qed.

Lemma emits_guarantee P cond msg : emits P (guarantee cond msg).
Proof. unfold guarantee. destruct cond; [apply emits_ret|apply emits_abort]. Qed.

Lemma emits_assert cfg P cond msg : emits P (assert cfg cond msg).
Proof. unfold assert. destruct (ASSERT cfg); [apply emits_guarantee|apply emits_ret]. Qed.

Lemma emits_get_cards P : emits P get_cards.
Proof. intros s. exists []. cbn. rewrite app_nil_r. auto. Qed.

Lemma emits_load_card P c : emits P (load_card c).
Proof. intros s. exists []. cbn. rewrite app_nil_r. auto. Qed.

Lemma emits_emit (P : event -> Prop) e : P e -> emits P (emit e).
Proof. intros He s. exists [e]. cbn. auto. Qed.

Lemma emits_store_card (P : event -> Prop) c v : P (StoreCard c v) -> emits P (store_card c v).
Proof. intros He s. exists [StoreCard c v]. cbn. auto. Qed.

Lemma emits_weaken {A} (P Q : event -> Prop) (m : M A) :
  (forall e, P e -> Q e) -> emits P m -> emits Q m.
Proof.
  intros HPQ Hm s. destruct (Hm s) as (tr & Htr & HP).
  exists tr. split; [exact Htr|]. eapply Forall_impl; eauto.
Qed.

Lemma emits_clear_cards cfg (P : event -> Prop) start end_ :
  (forall c, start <= c < end_ -> P (StoreCard c (clean_card cfg))) ->
  emits P (clear_cards cfg start end_).
Proof.
  intros HP s.
  destruct (clear_cards_loop_spec cfg (Z.to_nat (end_ - start)) start end_ s (le_n _))
    as (s' & Hrun & Htr & _).
  unfold clear_cards. rewrite Hrun. cbn. eexists. split; [exact Htr|].
  apply Forall_forall. intros e He. apply in_map_iff in He.
  destruct He as (c & <- & Hc). apply in_interval in Hc. auto.
Qed.

Lemma assert_true_bind {A} cfg cond msg (k : M A) s :
  cond = true -> (assert cfg cond msg ;;; k) s = k s.
Proof.
  intros ->. unfold bind, assert, guarantee, ret. destruct (ASSERT cfg); reflexivity.
Qed.

Lemma assert_true cfg cond msg s : cond = true -> assert cfg cond msg s = Ret tt s.
Proof.
  intros ->. unfold assert, guarantee, ret. destruct (ASSERT cfg); reflexivity.
Qed.

(** ** scavenge_large_array_contents *)

Lemma large_array_chunks_spec cfg arr lim lo n : forall cur s,
  clear_limit_r lim <= iter_limit_r lim ->
  lo <= cur ->
  (Z.to_nat (iter_limit_r lim - cur) <= n)%nat ->
  exists s' tr,
    large_array_chunks cfg n arr lim cur s = Ret tt s'
    /\ trace s' = trace s ++ tr
    /\ Forall (large_array_chunk_event cfg arr lim lo) tr
    /\ (forall c, ~ (lo <= c /\ clear_limit_l lim <= c < clear_limit_r lim) ->
                  cards s' c = cards s c).
Proof.
  induction n as [|n IH]; intros cur s Hlim Hlo Hn.
  - cbn. destruct (Z.ltb_spec cur (iter_limit_r lim)); [lia|].
    exists s, []. rewrite app_nil_r. auto.
  - cbn [large_array_chunks].
    destruct (Z.ltb_spec cur (iter_limit_r lim)) as [Hlt|Hge].
    2:{ exists s, []. rewrite app_nil_r. auto. }
    unfold bind at 1. unfold get_cards at 1. cbv zeta.
    pose proof (find_first_dirty_card_spec cfg (cards s) cur (iter_limit_r lim) ltac:(lia))
      as Hdl.
    set (dirty_l := find_first_dirty_card cfg (cards s) cur (iter_limit_r lim)) in *.
    cbv zeta in Hdl. destruct Hdl as (Hdl1 & Hdl2 & _).
    pose proof (find_first_clean_card_spec cfg (cards s) dirty_l (iter_limit_r lim) ltac:(lia))
      as Hdr.
    set (dirty_r := find_first_clean_card cfg (cards s) dirty_l (iter_limit_r lim)) in *.
    cbv zeta in Hdr. destruct Hdr as (Hdr1 & Hdr2 & Hdr3).
    rewrite assert_true_bind by (apply Z.leb_le; lia).
    destruct (Z.eqb_spec dirty_l dirty_r) as [Heq|Hne].
    + exists s, []. rewrite app_nil_r. split; [|auto].
      apply assert_true. apply Z.eqb_eq.
      destruct (Z.eq_dec dirty_r (iter_limit_r lim)) as [|Hn']; [assumption|exfalso].
      apply (Hdl2 ltac:(lia)). rewrite Heq. apply Hdr2. lia.
    + rewrite assert_true_bind.
      2:{ apply negb_true_iff, Z.eqb_neq. apply Hdl2. lia. }
      rewrite assert_true_bind.
      2:{ apply orb_true_iff.
          destruct (Z.eq_dec dirty_r (iter_limit_r lim)) as [He|Hn'].
          - right. apply Z.leb_le. lia.
          - left. apply Z.eqb_eq. apply Hdr2. lia. }
      unfold bind at 1.
      destruct (clear_cards_loop_spec cfg
                  (Z.to_nat (Z.min dirty_r (clear_limit_r lim) - Z.max dirty_l (clear_limit_l lim)))
                  (Z.max dirty_l (clear_limit_l lim)) (Z.min dirty_r (clear_limit_r lim))
                  s (le_n _)) as (s1 & Hrun1 & Htr1 & Hc1).
      unfold clear_cards at 1. rewrite Hrun1.
      unfold bind at 1. unfold emit at 1.
      destruct (IH (dirty_r + 1)
                  {| cards := cards s1;
                     trace := trace s1 ++ [PushObjArrayContents arr (addr_for cfg dirty_l)
                                             (addr_for cfg dirty_r)] |}
                  Hlim ltac:(lia) ltac:(lia)) as (s' & tr & Hrun & Htr & HP & Hc).
      exists s'. eexists. split; [exact Hrun|]. split; [|split].
      * rewrite Htr. cbn [trace]. rewrite Htr1. rewrite <- !app_assoc. reflexivity.
      * apply Forall_app. split; [|apply Forall_app; split; [|exact HP]].
        -- apply Forall_forall. intros e He. apply in_map_iff in He.
           destruct He as (c & <- & Hc'). apply in_interval in Hc'. cbn. lia.
        -- constructor; [|constructor]. cbn. split; [reflexivity|].
           exists dirty_l, dirty_r. repeat split; lia.
      * intros c Hc'. rewrite Hc by exact Hc'. cbn [cards]. rewrite Hc1.
        destruct (Z.leb_spec (Z.max dirty_l (clear_limit_l lim)) c),
                 (Z.ltb_spec c (Z.min dirty_r (clear_limit_r lim))); cbn; try reflexivity.
        exfalso. apply Hc'. lia.
Qed.

Lemma large_array_limits_clear_r_le_iter_r cfg heap arr stripe_addr stripe_end_addr flag :
  0 < card_size_in_words cfg ->
  clear_limit_r (large_array_limits cfg heap arr stripe_addr stripe_end_addr flag)
  <= iter_limit_r (large_array_limits cfg heap arr stripe_addr stripe_end_addr flag).
Proof.
  intros Hcs. unfold large_array_limits.
  destruct (stripe_addr <=? arr), flag, (arr + size heap arr <=? stripe_end_addr);
    cbn; apply byte_for_pred; exact Hcs.
Qed.

(** A debug build aborts at once when an asserted precondition fails;
    otherwise the function returns, having pushed the prefix (if asked to)
    and then only events of its dirty-chunk loop. *)
Lemma scavenge_large_array_contents_outcome
    cfg heap arr stripe_addr stripe_end_addr space_top flag s :
  0 < card_size_in_words cfg ->
  let lim := large_array_limits cfg heap arr stripe_addr stripe_end_addr flag in
  let o := scavenge_large_array_contents cfg heap arr stripe_addr stripe_end_addr
             space_top flag s in
  if ASSERT cfg
     && negb (large_array_preconditions cfg arr stripe_addr stripe_end_addr space_top flag)
  then exists msg, o = Abort msg s
  else exists s' tr,
    o = Ret tt s'
    /\ trace s' = trace s ++ large_array_prefix_push cfg arr stripe_addr flag ++ tr
    /\ Forall (large_array_chunk_event cfg arr lim (iter_limit_l lim)) tr
    /\ (forall c, ~ (iter_limit_l lim <= c /\ clear_limit_l lim <= c < clear_limit_r lim) ->
                  cards s' c = cards s c).
Proof.
  intros Hcs lim o.
  assert (Hloop : forall s0, exists s' tr,
    large_array_chunks cfg (Z.to_nat (iter_limit_r lim - iter_limit_l lim)) arr lim
      (iter_limit_l lim) s0 = Ret tt s'
    /\ trace s' = trace s0 ++ tr
    /\ Forall (large_array_chunk_event cfg arr lim (iter_limit_l lim)) tr
    /\ (forall c, ~ (iter_limit_l lim <= c /\ clear_limit_l lim <= c < clear_limit_r lim) ->
                  cards s' c = cards s0 c)).
  { intros s0. apply large_array_chunks_spec; [|lia|apply le_n].
    apply large_array_limits_clear_r_le_iter_r. exact Hcs. }
  subst o. unfold scavenge_large_array_contents, large_array_preconditions,
    large_array_prefix_push.
  fold lim. unfold bind, assert, guarantee, ret, abort, emit.
  destruct (ASSERT cfg); cbn [andb negb].
  - destruct (is_card_aligned cfg stripe_addr); cbn [andb negb orb]; [|eexists; reflexivity].
    destruct (is_card_aligned cfg stripe_end_addr || (stripe_end_addr =? space_top));
      cbn [andb negb orb]; [|eexists; reflexivity].
    destruct ((stripe_addr <=? arr) && flag); cbn [andb negb orb].
    + destruct (is_card_aligned cfg arr); cbn [negb]; [eexists; reflexivity|].
      destruct (Hloop {| cards := cards s;
                         trace := trace s ++ [PushObjArrayContents arr arr (align_up_card cfg arr)] |})
        as (s' & tr & Hrun & Htr & HP & Hc).
      exists s', tr. rewrite Hrun. split; [reflexivity|]. split; [|split; assumption].
      rewrite Htr. cbn [trace]. rewrite <- app_assoc. reflexivity.
    + destruct (Hloop s) as (s' & tr & Hrun & Htr & HP & Hc).
      exists s', tr. rewrite Hrun. split; [reflexivity|]. split; [|split; assumption].
      rewrite Htr. reflexivity.
  - destruct ((stripe_addr <=? arr) && flag).
    + destruct (Hloop {| cards := cards s;
                         trace := trace s ++ [PushObjArrayContents arr arr (align_up_card cfg arr)] |})
        as (s' & tr & Hrun & Htr & HP & Hc).
      exists s', tr. rewrite Hrun. split; [reflexivity|]. split; [|split; assumption].
      rewrite Htr. cbn [trace]. rewrite <- app_assoc. reflexivity.
    + destruct (Hloop s) as (s' & tr & Hrun & Htr & HP & Hc).
      exists s', tr. rewrite Hrun. split; [reflexivity|]. split; [|split; assumption].
      rewrite Htr. reflexivity.
Qed.





Example scavenge_large_array_contents_first_card_cleared :
  trace (final_state
           (scavenge_large_array_contents (Examples.cfg true) Examples.heap_large_array
              100 0 8192 20100 true (Examples.st [(3, 0); (4, 0)])))
  = [PushObjArrayContents 100 100 128; StoreCard 3 255; StoreCard 4 255;
     PushObjArrayContents 100 192 320].
Proof. vm_compute. reflexivity. Qed.

(** ** Stores of the stripe driver *)

Lemma emits_find_first_clean_card_obj_loop cfg heap P n : forall start_card i end_card,
  emits P (find_first_clean_card_obj_loop cfg heap n start_card i end_card).
Proof.
  induction n as [|n IH]; intros start_card i end_card; cbn [find_first_clean_card_obj_loop];
    destruct (i <? end_card); try apply emits_ret; try apply emits_out_of_fuel.
  apply emits_bind; [apply emits_load_card|]. intros v.
  destruct (negb (v =? clean_card cfg)); [apply IH|].
  apply emits_bind; [apply emits_assert|]. intros _.
  apply emits_bind; [apply emits_load_card|]. intros prev.
  apply emits_bind; [apply emits_assert|]. intros _.
  cbv zeta.
  apply emits_bind; [apply emits_assert|]. intros _.
  destruct (_ <=? i); [apply emits_ret|].
  apply emits_bind; [apply emits_load_card|]. intros f.
  destruct (f =? clean_card cfg); [apply emits_ret|apply IH].
Qed.

Lemma emits_find_first_clean_card_obj cfg heap P start_card end_card :
  emits P (find_first_clean_card_obj cfg heap start_card end_card).
Proof.
  unfold find_first_clean_card_obj.
  apply emits_bind; [apply emits_load_card|]. intros v.
  apply emits_bind; [apply emits_assert|]. intros _.
  apply emits_find_first_clean_card_obj_loop.
Qed.

Lemma emits_scan_objects_in_range_loop cfg heap R n : forall a end_,
  emits (stores_only R) (scan_objects_in_range_loop cfg heap n a end_).
Proof.
  induction n as [|n IH]; intros a end_; cbn [scan_objects_in_range_loop];
    destruct (a <? end_); try apply emits_ret; try apply emits_out_of_fuel.
  apply emits_bind; [apply emits_assert|]. intros _.
  apply emits_bind; [apply emits_assert|]. intros _.
  apply emits_bind; [apply emits_emit; exact I|]. intros _.
  apply IH.
Qed.

Lemma emits_scan_objects_in_range cfg heap R start end_ :
  emits (stores_only R) (scan_objects_in_range cfg heap start end_).
Proof.
  unfold scan_objects_in_range.
  apply emits_bind; [apply emits_scan_objects_in_range_loop|]. intros _.
  apply emits_emit. exact I.
Qed.

Lemma emits_dirty_chunks cfg heap first_obj cur_stripe_end_addr large_arr lim n :
  forall cur_card,
  emits (stores_only (fun c => clear_limit_l lim <= c < clear_limit_r lim))
    (dirty_chunks cfg heap n first_obj cur_stripe_end_addr large_arr lim cur_card).
Proof.
  induction n as [|n IH]; intros cur_card; cbn [dirty_chunks];
    destruct (cur_card <? iter_limit_r lim);
    try apply emits_ret; try apply emits_out_of_fuel.
  apply emits_bind; [apply emits_get_cards|]. intros ct. cbv zeta.
  apply emits_bind; [apply emits_find_first_clean_card_obj|]. intros dirty_r.
  apply emits_bind; [apply emits_assert|]. intros _.
  destruct (_ =? dirty_r); [apply emits_assert|].
  apply emits_bind; [apply emits_assert|]. intros _.
  apply emits_bind; [apply emits_assert|]. intros _.
  apply emits_bind.
  { apply emits_clear_cards. intros c Hc. cbn. lia. }
  intros _.
  apply emits_bind; [apply emits_scan_objects_in_range|]. intros _.
  apply IH.
Qed.

Lemma emits_scavenge_large_array_contents
    cfg heap arr stripe_addr stripe_end_addr space_top flag :
  0 < card_size_in_words cfg ->
  let lim := large_array_limits cfg heap arr stripe_addr stripe_end_addr flag in
  emits (stores_only (fun c => clear_limit_l lim <= c < clear_limit_r lim))
    (scavenge_large_array_contents cfg heap arr stripe_addr stripe_end_addr space_top flag).
Proof.
  intros Hcs lim s.
  pose proof (scavenge_large_array_contents_outcome cfg heap arr stripe_addr
                stripe_end_addr space_top flag s Hcs) as Ho.
  cbv zeta in Ho. fold lim in Ho.
  destruct (ASSERT cfg && negb _).
  - destruct Ho as (msg & ->). exists []. cbn. rewrite app_nil_r. auto.
  - destruct Ho as (s' & tr & -> & Htr & HP & _). cbn [final_state].
    eexists. split; [exact Htr|].
    apply Forall_app. split.
    + unfold large_array_prefix_push. destruct (_ && flag); repeat constructor.
    + eapply Forall_impl; [|exact HP]. intros [c v| | |]; cbn; try tauto.
Qed.

(** ** Parsable spaces and the stripe limits *)

Lemma parsable_start_idem heap bottom top a :
  heap_parsable heap bottom top -> bottom <= a < top ->
  object_start heap (object_start heap a) = object_start heap a.
Proof.
  intros Hp Ha.
  pose proof (parsable_start _ _ _ Hp a Ha). pose proof (parsable_cover _ _ _ Hp a Ha).
  apply (parsable_same _ _ _ Hp a); [exact Ha|lia].
Qed.

Lemma parsable_disjoint heap bottom top a b :
  heap_parsable heap bottom top -> bottom <= a < top -> bottom <= b < top ->
  object_start heap a < object_start heap b ->
  object_start heap a + size heap (object_start heap a) <= object_start heap b.
Proof.
  intros Hp Ha Hb Hlt.
  destruct (Z.le_gt_cases (object_start heap a + size heap (object_start heap a))
                          (object_start heap b)) as [|Hgt]; [assumption|exfalso].
  pose proof (parsable_same _ _ _ Hp a (object_start heap b) Ha ltac:(lia)) as H1.
  rewrite (parsable_start_idem heap bottom top b Hp Hb) in H1. lia.
Qed.

Lemma heap_large_array_parsable : heap_parsable Examples.heap_large_array 0 20100.
Proof. layout_parsable. Qed.

(** C2. In a parsable space, when the object covering the last word of a
    stripe is a large array that starts before the stripe (the branch that
    ends in [continue]), that array is the object the start array names for
    [cur_stripe_addr], so the assertion of the branch holds; the array covers
    the whole stripe and no object starts in the stripe. *)
Theorem stripe_ending_in_earlier_large_array_is_covered
    cfg heap bottom top ct cur_stripe_addr cur_stripe_end_addr :
  heap_parsable heap bottom top ->
  bottom <= cur_stripe_addr ->
  cur_stripe_addr < cur_stripe_end_addr ->
  cur_stripe_end_addr <= top ->
  identify_right_ends cfg heap ct cur_stripe_addr cur_stripe_end_addr = ScannedAbove ->
  (object_start heap (cur_stripe_end_addr - 1) =? object_start heap cur_stripe_addr) = true
  /\ is_large_obj_array heap (object_start heap cur_stripe_addr) = true
  /\ object_start heap cur_stripe_addr < cur_stripe_addr
  /\ cur_stripe_end_addr
     <= object_start heap cur_stripe_addr + size heap (object_start heap cur_stripe_addr)
  /\ starts_in heap cur_stripe_addr cur_stripe_end_addr = [].
Proof.
  intros Hp Hb Hlt Ht Hre.
  unfold identify_right_ends in Hre. cbv zeta in Hre.
  destruct (is_large_obj_array heap (object_start heap (cur_stripe_end_addr - 1))) eqn:Hlarge;
    [|discriminate].
  destruct (Z.ltb_spec (object_start heap (cur_stripe_end_addr - 1)) cur_stripe_addr)
    as [Htail|]; [clear Hre|discriminate].
  assert (He : bottom <= cur_stripe_end_addr - 1 < top) by lia.
  pose proof (parsable_cover _ _ _ Hp _ He) as Hcov.
  assert (Hsame : forall x, cur_stripe_addr <= x < cur_stripe_end_addr ->
            object_start heap x = object_start heap (cur_stripe_end_addr - 1)).
  { intros x Hx. apply (parsable_same _ _ _ Hp _ x He). lia. }
  rewrite (Hsame cur_stripe_addr) by lia.
  split; [apply Z.eqb_refl|]. split; [exact Hlarge|]. split; [exact Htail|].
  split; [lia|].
  unfold starts_in.
  rewrite (filter_ext_in _ (fun _ => false)), filter_false; [reflexivity|].
  intros x Hx. apply in_interval in Hx. rewrite (Hsame x Hx). apply Z.eqb_neq. lia.
Qed.

(** Stripe 1 of [heap_large_array] lies inside the large array. *)
Lemma stripe_ending_in_earlier_large_array_is_covered_witness :
  (object_start Examples.heap_large_array (16384 - 1)
     =? object_start Examples.heap_large_array 8192) = true
  /\ is_large_obj_array Examples.heap_large_array
       (object_start Examples.heap_large_array 8192) = true
  /\ object_start Examples.heap_large_array 8192 < 8192
  /\ 16384 <= object_start Examples.heap_large_array 8192
              + size Examples.heap_large_array (object_start Examples.heap_large_array 8192)
  /\ starts_in Examples.heap_large_array 8192 16384 = [].
Proof.
  apply (stripe_ending_in_earlier_large_array_is_covered
           (Examples.cfg true) Examples.heap_large_array 0 20100
           (Examples.table []) 8192 16384).
  - exact heap_large_array_parsable.
  - lia.
  - lia.
  - lia.
  - reflexivity.
Defined.

Lemma heap_partial_last_stripe_parsable :
  heap_parsable Examples.heap_partial_last_stripe 0 8212.
Proof. layout_parsable. Qed.

(** C4, as the code has it. In a parsable space, whatever the start
    array's range query answered, the limits with which an iteration enters
    the dirty-chunk walk satisfy [iter_limit_l <= clear_limit_l] and
    [clear_limit_r <= iter_limit_r]. The middle inequality
    [clear_limit_l <= clear_limit_r] fails in exactly one layout: an object
    straddles into the stripe, the stripe does not end in a large array,
    and the last word of the straddling object lies on the card on which
    the object covering the stripe's last word ends; then
    [clear_limit_l = clear_limit_r + 1]. *)
Theorem stripe_limits_ordered
    cfg heap bottom top ct cur_stripe_addr cur_stripe_end_addr lim :
  0 < card_size_in_words cfg ->
  heap_parsable heap bottom top ->
  bottom <= cur_stripe_addr ->
  cur_stripe_addr < cur_stripe_end_addr ->
  cur_stripe_end_addr <= top ->
  stripe_limits cfg heap ct cur_stripe_addr cur_stripe_end_addr = Some lim ->
  iter_limit_l lim <= clear_limit_l lim
  /\ clear_limit_r lim <= iter_limit_r lim
  /\ (clear_limit_l lim <= clear_limit_r lim
      <-> ~ straddler_shares_tail_card cfg heap cur_stripe_addr cur_stripe_end_addr)
  /\ (straddler_shares_tail_card cfg heap cur_stripe_addr cur_stripe_end_addr ->
      clear_limit_l lim = clear_limit_r lim + 1).
Proof.
  intros Hcs Hp Hb Hlt Ht Hlim.
  assert (Hc : bottom <= cur_stripe_addr < top) by lia.
  assert (He : bottom <= cur_stripe_end_addr - 1 < top) by lia.
  pose proof (parsable_start _ _ _ Hp _ Hc) as Hs1.
  pose proof (parsable_cover _ _ _ Hp _ Hc) as Hc1.
  pose proof (parsable_start _ _ _ Hp _ He) as Hs2.
  pose proof (parsable_cover _ _ _ Hp _ He) as Hc2.
  (* the object covering the stripe's last word is the straddling object or
     starts at or after its end *)
  assert (HT : object_start heap cur_stripe_addr
                 + size heap (object_start heap cur_stripe_addr)
               <= object_start heap (cur_stripe_end_addr - 1)
               \/ object_start heap (cur_stripe_end_addr - 1)
                  = object_start heap cur_stripe_addr).
  { destruct (Z.lt_ge_cases (cur_stripe_end_addr - 1)
                (object_start heap cur_stripe_addr
                 + size heap (object_start heap cur_stripe_addr))) as [Hin|Hout].
    - right. apply (parsable_same _ _ _ Hp _ _ Hc). lia.
    - left.
      destruct (Z.lt_ge_cases (object_start heap cur_stripe_addr)
                  (object_start heap (cur_stripe_end_addr - 1))) as [Hlt'|Hge'].
      + apply (parsable_disjoint heap bottom top cur_stripe_addr
                 (cur_stripe_end_addr - 1) Hp Hc He Hlt').
      + exfalso.
        pose proof (parsable_same _ _ _ Hp (cur_stripe_end_addr - 1)
                      (object_start heap cur_stripe_addr) He ltac:(lia)) as Hsame.
        rewrite (parsable_start_idem heap bottom top cur_stripe_addr Hp Hc) in Hsame.
        rewrite <- Hsame in Hc2. lia. }
  unfold stripe_limits, identify_left_ends, identify_right_ends in Hlim. cbv zeta in Hlim.
  unfold straddler_shares_tail_card, straddler_end. cbv zeta.
  set (o1 := object_start heap cur_stripe_addr) in *.
  set (tail := object_start heap (cur_stripe_end_addr - 1)) in *.
  destruct (is_large_obj_array heap tail) eqn:Hlarge.
  - destruct (Z.ltb_spec tail cur_stripe_addr) as [|Htail]; [discriminate|].
    destruct (Z.ltb_spec o1 cur_stripe_addr) as [Hstr|Hnostr];
      inversion Hlim; subst lim; clear Hlim; cbn.
    + pose proof (byte_for_pred cfg Hcs (o1 + size heap o1)).
      pose proof (byte_for_mono cfg Hcs (o1 + size heap o1 - 1) (tail - 1) ltac:(lia)).
      split; [lia|]. split; [lia|]. split.
      * split; [intros _ (_ & Hf & _); discriminate|intros _; lia].
      * intros (_ & Hf & _). discriminate.
    + pose proof (byte_for_pred cfg Hcs cur_stripe_addr).
      pose proof (byte_for_mono cfg Hcs (cur_stripe_addr - 1) (tail - 1) ltac:(lia)).
      split; [lia|]. split; [lia|]. split.
      * split; [intros _ (_ & Hf & _); discriminate|intros _; lia].
      * intros (_ & Hf & _). discriminate.
  - destruct (Z.ltb_spec o1 cur_stripe_addr) as [Hstr|Hnostr];
      inversion Hlim; subst lim; clear Hlim; cbn.
    + pose proof (byte_for_pred cfg Hcs (o1 + size heap o1)).
      pose proof (byte_for_pred cfg Hcs (tail + size heap tail)).
      assert (Hle : byte_for cfg (o1 + size heap o1 - 1) <= byte_for cfg (tail + size heap tail)).
      { apply byte_for_mono; [exact Hcs|]. destruct HT as [HT|HT]; [lia|rewrite HT; lia]. }
      split; [lia|]. split; [lia|]. split.
      * split.
        -- intros Hmid (_ & _ & Heq). lia.
        -- intros Hno.
           destruct (Z.eq_dec (byte_for cfg (o1 + size heap o1 - 1))
                       (byte_for cfg (tail + size heap tail))) as [Heq|Hne]; [|lia].
           exfalso. apply Hno. split; [exact Hstr|]. split; [reflexivity|exact Heq].
      * intros (_ & _ & Heq). lia.
    + pose proof (byte_for_pred cfg Hcs (tail + size heap tail)).
      pose proof (byte_for_mono cfg Hcs cur_stripe_addr (tail + size heap tail) ltac:(lia)).
      split; [lia|]. split; [lia|]. split.
      * split; [intros _ (Hf & _); lia|intros _; lia].
      * intros (Hf & _). lia.
Qed.

Lemma heap_straddle_parsable : heap_parsable Examples.heap_straddle 0 16384.
Proof. layout_parsable. Qed.

(** Stripe 1 of [heap_straddle]: the limits are 133 <= 134 <= 256 <= 256. *)
Lemma stripe_limits_ordered_witness :
  let lim := {| iter_limit_l := 133; iter_limit_r := 256;
                clear_limit_l := 134; clear_limit_r := 256 |} in
  iter_limit_l lim <= clear_limit_l lim
  /\ clear_limit_r lim <= iter_limit_r lim
  /\ (clear_limit_l lim <= clear_limit_r lim
      <-> ~ straddler_shares_tail_card (Examples.cfg true) Examples.heap_straddle 8192 16384)
  /\ (straddler_shares_tail_card (Examples.cfg true) Examples.heap_straddle 8192 16384 ->
      clear_limit_l lim = clear_limit_r lim + 1).
Proof.
  apply (stripe_limits_ordered (Examples.cfg true) Examples.heap_straddle 0 16384
           (Examples.table []) 8192 16384).
  - reflexivity.
  - exact heap_straddle_parsable.
  - lia.
  - lia.
  - lia.
  - reflexivity.
Defined.

(** C4 as specified fails in the last, partial stripe of
    [heap_partial_last_stripe]: the straddling object ends on card 128, the
    card of [space_top], and the limits are [iter_limit_l = 128],
    [clear_limit_l = 129], [clear_limit_r = 128], [iter_limit_r = 129]. *)
Lemma stripe_limits_as_specified_fails :
  ~ stripe_limits_as_specified (Examples.cfg true) Examples.heap_partial_last_stripe
      (Examples.table [(128, 0)]) 8192 8212.
Proof.
  unfold stripe_limits_as_specified. intros H.
  specialize (H eq_refl
                {| iter_limit_l := 128; iter_limit_r := 129;
                   clear_limit_l := 129; clear_limit_r := 128 |} eq_refl).
  destruct H as (_ & H & _). cbn in H. lia.
Qed.

(** The driver itself passes its asserts on that stripe and scans the small
    object without clearing card 128. *)
Example scavenge_stripe_partial_last_stripe :
  trace (final_state
           (scavenge_stripe (Examples.cfg true) Examples.heap_partial_last_stripe
              8212 8192 StartCache_init (Examples.st [(128, 0)])))
  = [PushContents 8202; DrainStacksCondDepth]
  /\ exists s', scavenge_stripe (Examples.cfg true) Examples.heap_partial_last_stripe
                  8212 8192 StartCache_init (Examples.st [(128, 0)])
                = Ret StartCache_init s'.
Proof. split; [vm_compute; reflexivity|]. eexists. vm_compute. reflexivity. Qed.

Lemma emits_bind_post {A B} P (Q : A -> Prop) (m : M A) (k : A -> M B) :
  (forall s a s', m s = Ret a s' -> Q a) ->
  emits P m -> (forall a, Q a -> emits P (k a)) -> emits P (bind m k).
Proof.
  intros HQ Hm Hk s. unfold bind.
  destruct (Hm s) as (tr1 & Htr1 & HP1).
  destruct (m s) as [a s1|msg s1|s1] eqn:Hrun; cbn in *.
  - destruct (Hk a (HQ s a s1 Hrun) s1) as (tr2 & Htr2 & HP2).
    exists (tr1 ++ tr2). rewrite Htr2, Htr1, app_assoc. split; [reflexivity|].
    apply Forall_app; auto.
  - exists tr1. auto.
  - exists tr1. auto.
Qed.

Lemma Forall_stored_cards (R : CardPtr -> Prop) tr :
  Forall (stores_only R) tr -> Forall R (stored_cards tr).
Proof.
  induction 1 as [|e tr He _ IH]; cbn; [constructor|].
  destruct e; cbn in *; auto.
Qed.

Lemma StartCache_object_start_valid cfg heap c addr s r s' :
  StartCache_valid heap c addr ->
  StartCache_object_start cfg heap c addr s = Ret r s' ->
  fst r = object_start heap addr.
Proof.
  intros Hv. unfold StartCache_object_start, bind, assert, guarantee, ret, abort.
  destruct (ASSERT cfg); [destruct (_ || _); [|discriminate]|];
    (destruct (Z.leb_spec (obj_end c) addr);
     intros Hr; inversion Hr; subst; cbn; [reflexivity|destruct Hv; [lia|assumption]]).
Qed.

Lemma emits_StartCache_object_start cfg heap P c addr :
  emits P (StartCache_object_start cfg heap c addr).
Proof.
  unfold StartCache_object_start.
  apply emits_bind; [apply emits_assert|]. intros _.
  destruct (_ <=? addr); apply emits_ret.
Qed.

Section StripeStores.

Variable cfg : Config.
Variable heap : Heap.
Variables bottom space_top cur_stripe_addr : HeapWord.

Hypothesis card_size_pos : 0 < card_size_in_words cfg.
Hypothesis stripe_size_pos : 0 < stripe_size_in_words cfg.
Hypothesis Hparsable : heap_parsable heap bottom space_top.
Hypothesis Hcur : bottom <= cur_stripe_addr < space_top.
Hypothesis Hstraddle : object_start heap cur_stripe_addr < cur_stripe_addr.

Lemma stripe_end_bounds :
  cur_stripe_addr < stripe_end cfg cur_stripe_addr space_top <= space_top.
Proof. unfold stripe_end. lia. Qed.

Lemma emits_scavenge_straddling_array :
  is_large_obj_array heap (object_start heap cur_stripe_addr) = true ->
  emits (stores_only (store_allowed cfg heap cur_stripe_addr))
    (scavenge_large_array_contents cfg heap (object_start heap cur_stripe_addr)
       cur_stripe_addr (stripe_end cfg cur_stripe_addr space_top) space_top false).
Proof.
  intros Hlarge.
  eapply emits_weaken; [|apply emits_scavenge_large_array_contents; exact card_size_pos].
  intros [c v| | |]; cbn; try tauto.
  unfold large_array_limits, store_allowed.
  destruct (Z.leb_spec cur_stripe_addr (object_start heap cur_stripe_addr)) as [|_]; [lia|].
  fold (straddler_end heap cur_stripe_addr).
  destruct (Z.leb_spec (straddler_end heap cur_stripe_addr)
                       (stripe_end cfg cur_stripe_addr space_top)) as [Hle|Hgt];
    cbn; intros Hc.
  - right. split; [exact Hlarge|lia].
  - right. split; [exact Hlarge|].
    pose proof (byte_for_mono cfg card_size_pos (stripe_end cfg cur_stripe_addr space_top)
                  (straddler_end heap cur_stripe_addr) ltac:(lia)).
    lia.
Qed.

Lemma emits_scavenge_trailing_array flag :
  cur_stripe_addr <= object_start heap (stripe_end cfg cur_stripe_addr space_top - 1) ->
  emits (stores_only (store_allowed cfg heap cur_stripe_addr))
    (scavenge_large_array_contents cfg heap
       (object_start heap (stripe_end cfg cur_stripe_addr space_top - 1))
       cur_stripe_addr (stripe_end cfg cur_stripe_addr space_top) space_top flag).
Proof.
  intros Htail. pose proof stripe_end_bounds as Hce.
  assert (Hdisj : straddler_end heap cur_stripe_addr
                  <= object_start heap (stripe_end cfg cur_stripe_addr space_top - 1)).
  { unfold straddler_end.
    apply (parsable_disjoint heap bottom space_top cur_stripe_addr
             (stripe_end cfg cur_stripe_addr space_top - 1) Hparsable); lia. }
  eapply emits_weaken; [|apply emits_scavenge_large_array_contents; exact card_size_pos].
  intros [c v| | |]; cbn; try tauto.
  unfold large_array_limits, store_allowed.
  set (tail := object_start heap (stripe_end cfg cur_stripe_addr space_top - 1)) in *.
  destruct (Z.leb_spec cur_stripe_addr tail); [|lia].
  pose proof (byte_for_mono cfg card_size_pos (straddler_end heap cur_stripe_addr - 1)
                (tail - 1) ltac:(lia)).
  pose proof (byte_for_mono cfg card_size_pos (tail - 1) tail ltac:(lia)).
  destruct flag, (tail + size heap tail <=? stripe_end cfg cur_stripe_addr space_top);
    cbn; intros Hc; left; lia.
Qed.

Lemma emits_dirty_chunks_of_stripe n large_arr iter_r clear_r cur_card :
  emits (stores_only (store_allowed cfg heap cur_stripe_addr))
    (dirty_chunks cfg heap n (first_obj_addr (identify_left_ends cfg heap cur_stripe_addr))
       (stripe_end cfg cur_stripe_addr space_top) large_arr
       {| iter_limit_l := left_iter_limit (identify_left_ends cfg heap cur_stripe_addr);
          iter_limit_r := iter_r;
          clear_limit_l := left_clear_limit (identify_left_ends cfg heap cur_stripe_addr);
          clear_limit_r := clear_r |} cur_card).
Proof.
  eapply emits_weaken; [|apply emits_dirty_chunks].
  intros [c v| | |]; cbn; try tauto.
  unfold identify_left_ends, store_allowed.
  destruct (Z.ltb_spec (object_start heap cur_stripe_addr) cur_stripe_addr); [|lia].
  cbn. fold (straddler_end heap cur_stripe_addr). intros Hc. left. lia.
Qed.

Lemma emits_scavenge_stripe start_cache :
  StartCache_valid heap start_cache cur_stripe_addr ->
  emits (stores_only (store_allowed cfg heap cur_stripe_addr))
    (scavenge_stripe cfg heap space_top cur_stripe_addr start_cache).
Proof.
  intros Hvalid. unfold scavenge_stripe. cbv zeta.
  fold (stripe_end cfg cur_stripe_addr space_top).
  destruct (object_starts_in_range heap cur_stripe_addr _); cbn [negb].
  - (* Process objects starting in this stripe. *)
    destruct (Z.ltb_spec (object_start heap cur_stripe_addr) cur_stripe_addr) as [_|]; [|lia].
    apply emits_bind.
    { destruct (is_large_obj_array heap (object_start heap cur_stripe_addr)) eqn:Hlarge;
        [apply emits_scavenge_straddling_array; exact Hlarge|apply emits_ret]. }
    intros _.
    apply emits_bind; [apply emits_assert|]. intros _.
    apply emits_bind; [apply emits_assert|]. intros _.
    apply emits_bind; [apply emits_get_cards|]. intros ct.
    unfold identify_right_ends. cbv zeta.
    destruct (is_large_obj_array heap
                (object_start heap (stripe_end cfg cur_stripe_addr space_top - 1))).
    + destruct (Z.ltb_spec (object_start heap (stripe_end cfg cur_stripe_addr space_top - 1))
                           cur_stripe_addr) as [|Htail].
      * apply emits_bind; [apply emits_assert|]. intros _. apply emits_ret.
      * apply emits_bind; [apply emits_ret|]. intros _.
        apply emits_bind; [apply emits_assert|]. intros _.
        apply emits_bind; [apply emits_dirty_chunks_of_stripe|]. intros _.
        apply emits_bind; [|intros _; apply emits_ret].
        apply emits_scavenge_trailing_array. exact Htail.
    + apply emits_bind; [apply emits_assert|]. intros _.
      apply emits_bind; [apply emits_assert|]. intros _.
      apply emits_bind; [apply emits_dirty_chunks_of_stripe|]. intros _.
      apply emits_bind; [apply emits_ret|]. intros _. apply emits_ret.
  - (* No object start means nothing to do, except for a large array. *)
    apply (emits_bind_post _ (fun r => fst r = object_start heap cur_stripe_addr)).
    + intros s r s' Hrun.
      exact (StartCache_object_start_valid cfg heap _ _ s r s' Hvalid Hrun).
    + apply emits_StartCache_object_start.
    + intros r Hr. rewrite Hr.
      apply emits_bind; [|intros _; apply emits_ret].
      destruct (is_large_obj_array heap (object_start heap cur_stripe_addr)) eqn:Hlarge;
        [apply emits_scavenge_straddling_array; exact Hlarge|apply emits_ret].
Qed.

End StripeStores.

Lemma heap_straddling_array_parsable :
  heap_parsable Examples.heap_straddling_array 0 24576.
Proof. layout_parsable. Qed.

(** C3, as the code has it. In a parsable space, for a stripe into which an
    object straddles from the left, every store of the stripe's worker goes
    to a card at or after [byte_for(first_obj_addr - 1) + 1], where
    [first_obj_addr] is the end of the straddling object, or, if that object
    is a large array, to one of the array's cards of this stripe before the
    card of [first_obj_addr]. So a worker whose straddling object is not a
    large array stores to no card below the limit, and in every case the
    card shared between the straddling object's tail and the first object of
    the stripe is not stored to. *)
Theorem scavenge_stripe_spares_shared_card
    cfg heap bottom space_top cur_stripe_addr start_cache s :
  0 < card_size_in_words cfg ->
  0 < stripe_size_in_words cfg ->
  heap_parsable heap bottom space_top ->
  bottom <= cur_stripe_addr < space_top ->
  StartCache_valid heap start_cache cur_stripe_addr ->
  object_start heap cur_stripe_addr < cur_stripe_addr ->
  exists tr,
    trace (final_state (scavenge_stripe cfg heap space_top cur_stripe_addr start_cache s))
      = trace s ++ tr
    /\ Forall (store_allowed cfg heap cur_stripe_addr) (stored_cards tr)
    /\ (is_large_obj_array heap (object_start heap cur_stripe_addr) = false ->
        Forall (fun c => byte_for cfg (straddler_end heap cur_stripe_addr - 1) + 1 <= c)
               (stored_cards tr))
    /\ (is_card_aligned cfg (straddler_end heap cur_stripe_addr) = false ->
        ~ In (byte_for cfg (straddler_end heap cur_stripe_addr - 1)) (stored_cards tr)).
Proof.
  intros Hcs Hss Hp Hcur Hvalid Hstr.
  destruct (emits_scavenge_stripe cfg heap bottom space_top cur_stripe_addr
              Hcs Hss Hp Hcur Hstr start_cache Hvalid s) as (tr & Htr & HP).
  apply Forall_stored_cards in HP.
  exists tr. split; [exact Htr|]. split; [exact HP|]. split.
  - intros Hsmall. eapply Forall_impl; [|exact HP].
    intros c [Hc|[Hl _]]; [exact Hc|congruence].
  - intros Hun Hin. rewrite Forall_forall in HP. specialize (HP _ Hin).
    pose proof (byte_for_pred_unaligned cfg Hcs _ Hun).
    destruct HP as [Hc|[_ Hc]]; lia.
Qed.

(** Stripe 1 of [heap_straddle] with cards 133 and 134 dirty: the straddling
    object ends on card 133, which the worker leaves alone. *)
Lemma scavenge_stripe_spares_shared_card_witness :
  let cfg := Examples.cfg true in
  let heap := Examples.heap_straddle in
  exists tr,
    trace (final_state (scavenge_stripe cfg heap 16384 8192 StartCache_init
                          (Examples.st [(133, 0); (134, 0)])))
      = trace (Examples.st [(133, 0); (134, 0)]) ++ tr
    /\ Forall (store_allowed cfg heap 8192) (stored_cards tr)
    /\ (is_large_obj_array heap (object_start heap 8192) = false ->
        Forall (fun c => byte_for cfg (straddler_end heap 8192 - 1) + 1 <= c)
               (stored_cards tr))
    /\ (is_card_aligned cfg (straddler_end heap 8192) = false ->
        ~ In (byte_for cfg (straddler_end heap 8192 - 1)) (stored_cards tr)).
Proof.
  apply (scavenge_stripe_spares_shared_card
           (Examples.cfg true) Examples.heap_straddle 0 16384 8192 StartCache_init
           (Examples.st [(133, 0); (134, 0)])).
  - reflexivity.
  - reflexivity.
  - exact heap_straddle_parsable.
  - lia.
  - left. cbn. lia.
  - reflexivity.
Defined.

Example scavenge_stripe_straddling_object :
  trace (final_state
           (scavenge_stripe (Examples.cfg true) Examples.heap_straddle 16384 8192
              StartCache_init (Examples.st [(133, 0); (134, 0)])))
  = [StoreCard 134 255; StoreCard 135 255; StoreCard 136 255; StoreCard 137 255;
     StoreCard 138 255; StoreCard 139 255; PushContents 8542; DrainStacksCondDepth].
Proof. vm_compute. reflexivity. Qed.

Example scavenge_stripe_straddling_array :
  trace (final_state
           (scavenge_stripe (Examples.cfg true) Examples.heap_straddling_array 24576 16384
              StartCache_init (Examples.st [(256, 0); (257, 0); (320, 0)])))
  = [StoreCard 256 255; StoreCard 257 255;
     PushObjArrayContents 100 16384 16512; PushObjArrayContents 100 20480 20544;
     StoreCard 321 255; StoreCard 322 255; StoreCard 323 255; StoreCard 324 255;
     StoreCard 325 255; StoreCard 326 255; StoreCard 327 255;
     PushContents 20542; DrainStacksCondDepth].
Proof. vm_compute. reflexivity. Qed.

(** C3 as specified fails when the straddling object is a large array: in
    stripe 2 of [heap_straddling_array] the array ends on card 320, the
    limit is card 321, and the worker clears the array's dirty cards 256 and
    257. *)
Lemma stripe_worker_as_specified_fails :
  ~ stripe_worker_as_specified (Examples.cfg true) Examples.heap_straddling_array
      24576 16384 StartCache_init (Examples.st [(256, 0); (257, 0); (320, 0)]).
Proof.
  unfold stripe_worker_as_specified. intros H.
  assert (Hlt : object_start Examples.heap_straddling_array 16384 < 16384) by reflexivity.
  specialize (H Hlt). cbv zeta in H.
  specialize (H _ scavenge_stripe_straddling_array).
  inversion H as [|c l Hc _]. vm_compute in Hc. apply Hc. reflexivity.
Qed.

(** ** The start cache *)

Lemma returns_ret {A} (Q : A -> Prop) a : Q a -> returns Q (ret a).
Proof. intros H s a' s' Hr. inversion Hr; subst. exact H. Qed.

Lemma returns_bind {A B} (Q : B -> Prop) (m : M A) (k : A -> M B) :
  (forall a, returns Q (k a)) -> returns Q (bind m k).
Proof.
  intros Hk s b s' Hr. unfold bind in Hr.
  destruct (m s) as [a s1|msg s1|s1]; try discriminate.
  exact (Hk a s1 b s' Hr).
Qed.

Lemma returns_bind_post {A B} (P : A -> Prop) (Q : B -> Prop) (m : M A) (k : A -> M B) :
  returns P m -> (forall a, P a -> returns Q (k a)) -> returns Q (bind m k).
Proof.
  intros Hm Hk s b s' Hr. unfold bind in Hr.
  destruct (m s) as [a s1|msg s1|s1] eqn:Hrun; try discriminate.
  exact (Hk a (Hm s a s1 Hrun) s1 b s' Hr).
Qed.

(** A cache that satisfies the invariant answers a query that is not below
    the previous one as the start array would. *)
Lemma StartCache_inv_valid heap bottom top c addr :
  heap_parsable heap bottom top ->
  StartCache_inv heap bottom top c ->
  prev_query c <= addr -> bottom <= addr < top ->
  StartCache_valid heap c addr.
Proof.
  intros Hp [Hempty|(q & Hq & Hprev & Hs & He)] Hmono Haddr.
  - left. lia.
  - destruct (Z.le_gt_cases (obj_end c) addr) as [|Hgt]; [left; assumption|right].
    rewrite Hs. symmetry.
    apply (parsable_same _ _ _ Hp q addr Hq).
    pose proof (parsable_start _ _ _ Hp q Hq). rewrite <- Hs, <- He. lia.
Qed.

Lemma StartCache_init_inv heap bottom top :
  0 <= bottom -> StartCache_inv heap bottom top StartCache_init.
Proof. intros H. left. exact H. Qed.

Lemma returns_StartCache_object_start cfg heap bottom top c addr :
  StartCache_inv heap bottom top c ->
  prev_query c <= addr -> bottom <= addr < top ->
  returns (fun r => StartCache_inv heap bottom top (snd r) /\ prev_query (snd r) = addr)
    (StartCache_object_start cfg heap c addr).
Proof.
  intros Hinv Hmono Haddr. unfold StartCache_object_start.
  apply returns_bind. intros _.
  destruct (Z.leb_spec (obj_end c) addr); apply returns_ret; cbn; (split; [|reflexivity]).
  - right. exists addr. cbn. repeat split; lia.
  - destruct Hinv as [Hempty|(q & Hq & Hprev & Hs & He)]; [lia|].
    right. exists q. cbn. repeat split; try lia; assumption.
Qed.

(** The driver keeps the invariant of its start cache from stripe to
    stripe, and the cache's last query is never above the current stripe. *)
Lemma returns_scavenge_stripe_StartCache_inv cfg heap bottom space_top cur_stripe_addr c :
  StartCache_inv heap bottom space_top c ->
  prev_query c <= cur_stripe_addr -> bottom <= cur_stripe_addr < space_top ->
  returns (fun c' => StartCache_inv heap bottom space_top c'
                     /\ prev_query c' <= cur_stripe_addr)
    (scavenge_stripe cfg heap space_top cur_stripe_addr c).
Proof.
  intros Hinv Hmono Hcur. unfold scavenge_stripe. cbv zeta.
  destruct (negb _).
  - eapply returns_bind_post;
      [apply (returns_StartCache_object_start cfg heap bottom space_top); assumption|].
    intros r [Hr1 Hr2]. apply returns_bind. intros _.
    apply returns_ret. split; [exact Hr1|lia].
  - apply returns_bind. intros _.
    apply returns_bind. intros _.
    apply returns_bind. intros _.
    apply returns_bind. intros ct.
    destruct (identify_right_ends cfg heap ct cur_stripe_addr _).
    + apply returns_bind. intros _. apply returns_ret. auto.
    + apply returns_bind. intros _.
      apply returns_bind. intros _.
      apply returns_bind. intros _.
      apply returns_bind. intros _.
      apply returns_ret. auto.
Qed.

(** ** Boundary scenarios of the driver *)

(** A worker whose first stripe starts at or above [space_top] (in
    particular any worker on an empty space) returns at once and touches
    nothing. *)
Lemma scavenge_contents_parallel_nothing_to_do
    cfg heap bottom space_top stripe_index n_stripes s :
  space_top <= bottom + stripe_index * stripe_size_in_words cfg ->
  scavenge_contents_parallel cfg heap bottom space_top stripe_index n_stripes s = Ret tt s.
Proof.
  intros H. unfold scavenge_contents_parallel. cbv zeta.
  replace (Z.to_nat (space_top - (bottom + stripe_index * stripe_size_in_words cfg)))
    with O by lia.
  cbn. destruct (Z.ltb_spec (bottom + stripe_index * stripe_size_in_words cfg) space_top);
    [lia|reflexivity].
Qed.

(** A large array that starts in the middle of card 1, which it shares with
    the object before it: the worker of stripe 0 clears card 1 in the run of
    that object and then pushes the array's prefix on card 1 explicitly. *)
Example scavenge_stripe_unaligned_large_array :
  trace (final_state
           (scavenge_stripe (Examples.cfg true) Examples.heap_large_array 20100 0
              StartCache_init (Examples.st [(1, 0); (5, 0)])))
  = [StoreCard 1 255; PushContents 0; DrainStacksCondDepth;
     PushObjArrayContents 100 100 128;
     StoreCard 5 255; PushObjArrayContents 100 320 384].
Proof. vm_compute. reflexivity. Qed.

(** Two workers on [heap_straddle]: each object that overlaps a dirty card
    is pushed by exactly one of them, and card 133, shared by the
    straddling object and the first object of stripe 1, is cleared by
    neither. *)
Example scavenge_contents_parallel_two_workers :
  let s := Examples.st [(127, 0); (133, 0)] in
  trace (final_state (scavenge_contents_parallel (Examples.cfg true) Examples.heap_straddle
                        0 16384 0 2 s))
  = [StoreCard 127 255; StoreCard 128 255; StoreCard 129 255; StoreCard 130 255;
     StoreCard 131 255; StoreCard 132 255; PushContents 8000; DrainStacksCondDepth]
  /\ trace (final_state (scavenge_contents_parallel (Examples.cfg true) Examples.heap_straddle
                           0 16384 1 2 s))
     = [StoreCard 134 255; StoreCard 135 255; StoreCard 136 255; StoreCard 137 255;
        StoreCard 138 255; StoreCard 139 255; PushContents 8542; DrainStacksCondDepth].
Proof. split; vm_compute; reflexivity. Qed.

(** * Further properties of the engine *)

(** ** Postconditions of the scanners *)

(** X1. [find_first_dirty_card] returns [end_card] or a card of
    [start_card, end_card) that is not clean, and every card of the range
    before the one it returns is clean; on an empty or inverted range it
    returns [end_card]. *)
Theorem find_first_dirty_card_post cfg ct start_card end_card :
  let d := find_first_dirty_card cfg ct start_card end_card in
  (d = end_card \/ (start_card <= d < end_card /\ ct d <> clean_card cfg))
  /\ (forall c, start_card <= c < d -> ct c = clean_card cfg)
  /\ (end_card <= start_card -> d = end_card).
Proof.
  intros d. destruct (Z.le_gt_cases start_card end_card) as [Hle|Hgt].
  - destruct (find_first_dirty_card_spec cfg ct start_card end_card Hle) as (H1 & H2 & H3).
    fold d in H1, H2, H3. split; [|split; [exact H3|]].
    + destruct (Z.eq_dec d end_card); [left; assumption|right]. split; [lia|apply H2; lia].
    + intros. lia.
  - assert (Hd : d = end_card).
    { subst d. unfold find_first_dirty_card.
      replace (Z.to_nat (end_card - start_card)) with O by lia. reflexivity. }
    rewrite Hd. split; [left; reflexivity|]. split; [intros; lia|reflexivity].
Qed.

(** X2. [find_first_clean_card] (the byte scan) returns [end_card] or a
    clean card of [start_card, end_card), and no card of the range before
    the one it returns is clean; on an empty or inverted range it returns
    [end_card]. *)
Theorem find_first_clean_card_post cfg ct start_card end_card :
  let d := find_first_clean_card cfg ct start_card end_card in
  (d = end_card \/ (start_card <= d < end_card /\ ct d = clean_card cfg))
  /\ (forall c, start_card <= c < d -> ct c <> clean_card cfg)
  /\ (end_card <= start_card -> d = end_card).
Proof.
  intros d. destruct (Z.le_gt_cases start_card end_card) as [Hle|Hgt].
  - destruct (find_first_clean_card_spec cfg ct start_card end_card Hle) as (H1 & H2 & H3).
    fold d in H1, H2, H3. split; [|split; [exact H3|]].
    + destruct (Z.eq_dec d end_card); [left; assumption|right]. split; [lia|apply H2; lia].
    + intros. lia.
  - assert (Hd : d = end_card).
    { subst d. unfold find_first_clean_card.
      replace (Z.to_nat (end_card - start_card)) with O by lia. reflexivity. }
    rewrite Hd. split; [left; reflexivity|]. split; [intros; lia|reflexivity].
Qed.

Lemma find_first_clean_card_obj_loop_outcome cfg heap s start_card end_card n : forall i,
  start_card < i ->
  (Z.to_nat (end_card - i) <= n)%nat ->
  match find_first_clean_card_obj_loop cfg heap n start_card i end_card s with
  | Ret r s' =>
      s' = s
      /\ (r = end_card
          \/ (i <= r /\ i < end_card /\ cards s r = clean_card cfg
              /\ (ASSERT cfg = true -> r < end_card)))
  | Abort _ s' => ASSERT cfg = true /\ s' = s
  | OutOfFuel _ => False
  end.
Proof.
  induction n as [|n IH]; intros i Hi Hn.
  - cbn. destruct (Z.ltb_spec i end_card); [lia|]. cbn. auto.
  - cbn [find_first_clean_card_obj_loop].
    destruct (Z.ltb_spec i end_card) as [Hlt|Hge]; [|cbn; auto].
    unfold bind at 1. unfold load_card at 1.
    destruct (Z.eqb_spec (cards s i) (clean_card cfg)) as [Hclean|Hdirty]; cbn [negb].
    { cbv zeta.
      set (fin := byte_for cfg (object_start heap (addr_for cfg i - 1)
                                + size heap (object_start heap (addr_for cfg i - 1)) - 1)).
      unfold bind, assert, guarantee, load_card, ret, abort.
      destruct (ASSERT cfg) eqn:Hdbg.
      - destruct (start_card <=? i - 1); [|auto].
        destruct (negb (cards s (i - 1) =? clean_card cfg)); [|auto].
        destruct (Z.ltb_spec fin end_card) as [Hfin|]; [|auto].
        destruct (Z.leb_spec fin i).
        + split; [reflexivity|right]. repeat split; try lia; auto; try discriminate.
        + destruct (Z.eqb_spec (cards s fin) (clean_card cfg)).
          * split; [reflexivity|right]. repeat split; try lia; auto; try discriminate.
          * specialize (IH (fin + 1) ltac:(lia) ltac:(lia)).
            destruct (find_first_clean_card_obj_loop cfg heap n start_card (fin + 1) end_card s)
              as [r s'|msg s'|s']; [|exact IH|exact IH].
            destruct IH as [Hs [Hr|(Hr1 & Hr2 & Hr3 & Hr4)]]; (split; [exact Hs|]);
              [left; exact Hr|right; repeat split; try lia; auto].
      - destruct (Z.leb_spec fin i).
        + split; [reflexivity|right]. repeat split; try lia; auto; try discriminate.
        + destruct (Z.eqb_spec (cards s fin) (clean_card cfg)).
          * split; [reflexivity|right]. repeat split; try lia; auto; try discriminate.
          * specialize (IH (fin + 1) ltac:(lia) ltac:(lia)).
            destruct (find_first_clean_card_obj_loop cfg heap n start_card (fin + 1) end_card s)
              as [r s'|msg s'|s']; [|exact IH|exact IH].
            destruct IH as [Hs [Hr|(Hr1 & Hr2 & Hr3 & Hr4)]]; (split; [exact Hs|]);
              [left; exact Hr|right; repeat split; try lia; auto]. }
    specialize (IH (i + 1) ltac:(lia) ltac:(lia)).
    destruct (find_first_clean_card_obj_loop cfg heap n start_card (i + 1) end_card s)
      as [r s'|msg s'|s']; [|exact IH|exact IH].
    destruct IH as [Hs [Hr|(Hr1 & Hr2 & Hr3 & Hr4)]]; (split; [exact Hs|]);
      [left; exact Hr|right; repeat split; try lia; auto].
Qed.

Lemma find_first_clean_card_obj_outcome cfg heap s start_card end_card :
  match find_first_clean_card_obj cfg heap start_card end_card s with
  | Ret r s' =>
      s' = s
      /\ (r = end_card
          \/ (start_card < r /\ start_card + 1 < end_card /\ cards s r = clean_card cfg
              /\ (ASSERT cfg = true -> r < end_card)))
  | Abort _ s' => ASSERT cfg = true /\ s' = s
  | OutOfFuel _ => False
  end.
Proof.
  unfold find_first_clean_card_obj, bind, load_card, assert, guarantee, ret, abort.
  pose proof (find_first_clean_card_obj_loop_outcome cfg heap s start_card end_card
                (Z.to_nat (end_card - start_card)) (start_card + 1) ltac:(lia) ltac:(lia)) as H.
  destruct (ASSERT cfg) eqn:Hdbg.
  - destruct ((start_card =? end_card) || negb (cards s start_card =? clean_card cfg));
      [|auto].
    destruct (find_first_clean_card_obj_loop cfg heap _ start_card (start_card + 1) end_card s)
      as [r s'|msg s'|s']; [|exact H|exact H].
    destruct H as [Hs [Hr|(Hr1 & Hr2 & Hr3 & Hr4)]]; (split; [exact Hs|]);
      [left; exact Hr|right; repeat split; try lia; auto].
  - destruct (find_first_clean_card_obj_loop cfg heap _ start_card (start_card + 1) end_card s)
      as [r s'|msg s'|s']; [|exact H|exact H].
    destruct H as [Hs [Hr|(Hr1 & Hr2 & Hr3 & Hr4)]]; (split; [exact Hs|]);
      [left; exact Hr|right; repeat split; try lia; auto].
Qed.

(** In a parsable space the search returns [end_card] or a card of the
    space. *)
Lemma find_first_clean_card_obj_loop_in_space
    cfg heap bottom top s start_card end_card n :
  0 < card_size_in_words cfg ->
  heap_parsable heap bottom top ->
  bottom < addr_for cfg (start_card + 1) ->
  end_card <= byte_for cfg (top - 1) + 1 ->
  forall i r s', start_card < i ->
  find_first_clean_card_obj_loop cfg heap n start_card i end_card s = Ret r s' ->
  r = end_card \/ r <= byte_for cfg (top - 1).
Proof.
  intros Hcs Hp Hb Ht.
  induction n as [|n IH]; intros i r s' Hi Hrun; cbn [find_first_clean_card_obj_loop] in Hrun.
  - destruct (i <? end_card); [discriminate|]. inversion Hrun. left. reflexivity.
  - destruct (Z.ltb_spec i end_card) as [Hlt|Hge]; [|inversion Hrun; left; reflexivity].
    unfold bind at 1 in Hrun. unfold load_card at 1 in Hrun.
    destruct (negb (cards s i =? clean_card cfg));
      [apply (IH (i + 1) r s'); [lia|exact Hrun]|].
    cbv zeta in Hrun.
    assert (Hfin : byte_for cfg (object_start heap (addr_for cfg i - 1)
                                 + size heap (object_start heap (addr_for cfg i - 1)) - 1)
                   <= byte_for cfg (top - 1)).
    { pose proof (addr_for_mono cfg Hcs (start_card + 1) i ltac:(lia)).
      assert (Hi' : i <= byte_for cfg (top - 1)) by lia.
      apply (addr_for_le_iff cfg Hcs) in Hi'.
      assert (Ha : bottom <= addr_for cfg i - 1 < top) by lia.
      pose proof (parsable_cover _ _ _ Hp _ Ha).
      apply byte_for_mono; [exact Hcs|lia]. }
    set (fin := byte_for cfg (object_start heap (addr_for cfg i - 1)
                              + size heap (object_start heap (addr_for cfg i - 1)) - 1)) in *.
    unfold bind, assert, guarantee, load_card, ret, abort in Hrun.
    destruct (ASSERT cfg).
    + destruct (start_card <=? i - 1); [|discriminate].
      destruct (negb (cards s (i - 1) =? clean_card cfg)); [|discriminate].
      destruct (fin <? end_card); [|discriminate].
      destruct (Z.leb_spec fin i); [inversion Hrun; subst; right; lia|].
      destruct (cards s fin =? clean_card cfg);
        [inversion Hrun; subst; right; exact Hfin|].
      apply (IH (fin + 1) r s'); [lia|exact Hrun].
    + destruct (Z.leb_spec fin i); [inversion Hrun; subst; right; lia|].
      destruct (cards s fin =? clean_card cfg);
        [inversion Hrun; subst; right; exact Hfin|].
      apply (IH (fin + 1) r s'); [lia|exact Hrun].
Qed.

(** X3. In a parsable space, for a card range of the space, the
    object-aware search ends whether or not its preconditions hold (the
    first card may be clean, an examined object may reach beyond
    [end_card]): it returns [end_card] or a clean card of the space after
    [start_card] (a card before [end_card] in a debug build), it changes
    nothing, and it aborts only in a debug build. *)
Theorem find_first_clean_card_obj_post cfg heap bottom top s start_card end_card :
  0 < card_size_in_words cfg ->
  heap_parsable heap bottom top ->
  bottom < addr_for cfg (start_card + 1) ->
  end_card <= byte_for cfg (top - 1) + 1 ->
  match find_first_clean_card_obj cfg heap start_card end_card s with
  | Ret r s' =>
      s' = s
      /\ (r = end_card
          \/ (start_card < r <= byte_for cfg (top - 1) /\ cards s r = clean_card cfg
              /\ (ASSERT cfg = true -> r < end_card)))
  | Abort _ s' => ASSERT cfg = true /\ s' = s
  | OutOfFuel _ => False
  end.
Proof.
  intros Hcs Hp Hb Ht.
  pose proof (find_first_clean_card_obj_outcome cfg heap s start_card end_card) as H.
  destruct (find_first_clean_card_obj cfg heap start_card end_card s)
    as [r s'|msg s'|s'] eqn:Hrun; [|exact H|exact H].
  destruct H as [Hs [Hr|(Hr1 & Hr2 & Hr3 & Hr4)]]; (split; [exact Hs|]);
    [left; exact Hr|].
  assert (Hin : r = end_card \/ r <= byte_for cfg (top - 1)).
  { unfold find_first_clean_card_obj, bind, load_card, assert, guarantee, ret, abort in Hrun.
    destruct (ASSERT cfg).
    - destruct ((start_card =? end_card) || negb (cards s start_card =? clean_card cfg));
        [|discriminate].
      apply (find_first_clean_card_obj_loop_in_space cfg heap bottom top s start_card
               end_card (Z.to_nat (end_card - start_card)) Hcs Hp Hb Ht
               (start_card + 1) r s'); [lia|exact Hrun].
    - apply (find_first_clean_card_obj_loop_in_space cfg heap bottom top s start_card
               end_card (Z.to_nat (end_card - start_card)) Hcs Hp Hb Ht
               (start_card + 1) r s'); [lia|exact Hrun]. }
  destruct Hin as [Hin|Hin]; [left; exact Hin|right].
  split; [lia|]. split; assumption.
Qed.

(** A product build on [heap_two_objects] with cards 0 and 1 dirty and the
    range [0, 3): the object examined at card 2 reaches card 3, which is
    clean and is returned. *)
Lemma find_first_clean_card_obj_post_witness :
  match find_first_clean_card_obj (Examples.cfg false) Examples.heap_two_objects 0 3
          (Examples.st [(0, 0); (1, 0)]) with
  | Ret r s' =>
      s' = Examples.st [(0, 0); (1, 0)]
      /\ (r = 3
          \/ (0 < r <= byte_for (Examples.cfg false) (256 - 1)
              /\ cards (Examples.st [(0, 0); (1, 0)]) r = clean_card (Examples.cfg false)
              /\ (ASSERT (Examples.cfg false) = true -> r < 3)))
  | Abort _ s' => ASSERT (Examples.cfg false) = true /\ s' = Examples.st [(0, 0); (1, 0)]
  | OutOfFuel _ => False
  end.
Proof.
  apply (find_first_clean_card_obj_post (Examples.cfg false) Examples.heap_two_objects
           0 256 (Examples.st [(0, 0); (1, 0)]) 0 3).
  - reflexivity.
  - exact heap_two_objects_parsable.
  - reflexivity.
  - vm_compute. discriminate.
Defined.

(** ** Composition of clear_cards *)

(** X4. Clearing [a, b) and then [b, c) is clearing [a, c): the same
    stores in the same order and the same card table. *)
Theorem clear_cards_adjacent cfg a b c s :
  a <= b <= c ->
  exists s1 s2,
    (clear_cards cfg a b ;;; clear_cards cfg b c) s = Ret tt s1
    /\ clear_cards cfg a c s = Ret tt s2
    /\ trace s1 = trace s2
    /\ forall x, cards s1 x = cards s2 x.
Proof.
  intros Habc.
  destruct (clear_cards_loop_spec cfg (Z.to_nat (b - a)) a b s (le_n _))
    as (t1 & Hr1 & Ht1 & Hc1).
  destruct (clear_cards_loop_spec cfg (Z.to_nat (c - b)) b c t1 (le_n _))
    as (t2 & Hr2 & Ht2 & Hc2).
  destruct (clear_cards_loop_spec cfg (Z.to_nat (c - a)) a c s (le_n _))
    as (t3 & Hr3 & Ht3 & Hc3).
  exists t2, t3. split; [|split; [exact Hr3|split]].
  - unfold bind, clear_cards. rewrite Hr1. exact Hr2.
  - rewrite Ht2, Ht1, Ht3, (interval_app a b c Habc), map_app, app_assoc. reflexivity.
  - intros x. rewrite Hc2, Hc1, Hc3.
    destruct (Z.leb_spec b x), (Z.ltb_spec x c), (Z.leb_spec a x), (Z.ltb_spec x b);
      cbn; try reflexivity; lia.
Qed.

Lemma clear_cards_adjacent_witness :
  exists s1 s2,
    (clear_cards (Examples.cfg true) 3 5 ;;; clear_cards (Examples.cfg true) 5 9)
      (Examples.st [(4, 0); (7, 0)]) = Ret tt s1
    /\ clear_cards (Examples.cfg true) 3 9 (Examples.st [(4, 0); (7, 0)]) = Ret tt s2
    /\ trace s1 = trace s2
    /\ forall x, cards s1 x = cards s2 x.
Proof.
  apply (clear_cards_adjacent (Examples.cfg true) 3 5 9 (Examples.st [(4, 0); (7, 0)])).
  lia.
Defined.

(** ** Card values the queries do not handle *)

(** X5. On a card whose value is none of dirty, newgen and clean (a verify
    card, for one), [addr_is_marked_imprecise] fails its assert in a debug
    build and answers false in a product build; [addr_is_marked_precise]
    does the same on a card that is not a verify card either. Neither
    changes the state. *)
Theorem addr_is_marked_unhandled_value cfg addr s :
  cards s (byte_for cfg addr) <> dirty_card cfg ->
  cards s (byte_for cfg addr) <> youngergen_card cfg ->
  cards s (byte_for cfg addr) <> clean_card cfg ->
  addr_is_marked_imprecise cfg addr s
    = (if ASSERT cfg then Abort "Found unhandled card mark type" s else Ret false s)
  /\ (cards s (byte_for cfg addr) <> verify_card cfg ->
      addr_is_marked_precise cfg addr s
        = (if ASSERT cfg then Abort "Found unhandled card mark type" s else Ret false s)).
Proof.
  intros Hd Hy Hc.
  unfold addr_is_marked_imprecise, addr_is_marked_precise, bind, load_card, assert,
    guarantee, ret, abort, card_is_dirty, card_is_newgen, card_is_clean, card_is_verify.
  destruct (Z.eqb_spec (cards s (byte_for cfg addr)) (dirty_card cfg)); [contradiction|].
  destruct (Z.eqb_spec (cards s (byte_for cfg addr)) (youngergen_card cfg)); [contradiction|].
  destruct (Z.eqb_spec (cards s (byte_for cfg addr)) (clean_card cfg)); [contradiction|].
  split.
  - destruct (ASSERT cfg); reflexivity.
  - intros Hv.
    destruct (Z.eqb_spec (cards s (byte_for cfg addr)) (verify_card cfg)); [contradiction|].
    destruct (ASSERT cfg); reflexivity.
Qed.

Lemma addr_is_marked_unhandled_value_witness :
  addr_is_marked_imprecise (Examples.cfg true) 200 (Examples.st [(3, 9)])
    = Abort "Found unhandled card mark type" (Examples.st [(3, 9)])
  /\ (cards (Examples.st [(3, 9)]) (byte_for (Examples.cfg true) 200) <> 6 ->
      addr_is_marked_precise (Examples.cfg true) 200 (Examples.st [(3, 9)])
        = Abort "Found unhandled card mark type" (Examples.st [(3, 9)])).
Proof.
  apply (addr_is_marked_unhandled_value (Examples.cfg true) 200 (Examples.st [(3, 9)]));
    vm_compute; discriminate.
Defined.

(** ** What a call of scavenge_large_array_contents clears and pushes *)

Lemma pushed_slices_app tr1 tr2 :
  pushed_slices (tr1 ++ tr2) = pushed_slices tr1 ++ pushed_slices tr2.
Proof. unfold pushed_slices. apply flat_map_app. Qed.

Lemma pushed_slices_stores v l :
  pushed_slices (map (fun c => StoreCard c v) l) = [].
Proof. induction l as [|c l IH]; [reflexivity|exact IH]. Qed.

Lemma increasing_slices_weaken lo lo' l :
  lo' <= lo -> increasing_slices lo l -> increasing_slices lo' l.
Proof.
  destruct l as [|[a b] t]; cbn; [auto|]. intros H (H1 & H2 & H3).
  repeat split; try lia; assumption.
Qed.

Lemma large_array_chunks_full cfg arr lim n : forall cur s,
  0 < card_size_in_words cfg ->
  clear_limit_r lim <= iter_limit_r lim ->
  (Z.to_nat (iter_limit_r lim - cur) <= n)%nat ->
  exists s' tr,
    large_array_chunks cfg n arr lim cur s = Ret tt s'
    /\ trace s' = trace s ++ tr
    /\ (forall c, cur <= c < iter_limit_r lim ->
                  clear_limit_l lim <= c < clear_limit_r lim ->
                  cards s' c = clean_card cfg)
    /\ (forall c, ~ (cur <= c < iter_limit_r lim
                     /\ clear_limit_l lim <= c < clear_limit_r lim) ->
                  cards s' c = cards s c)
    /\ pushes_dirty_runs cfg (cards s) cur (iter_limit_r lim) (pushed_slices tr).
Proof.
  induction n as [|n IH]; intros cur s Hcs Hlim Hn.
  - cbn. destruct (Z.ltb_spec cur (iter_limit_r lim)); [lia|].
    exists s, []. rewrite app_nil_r. unfold pushes_dirty_runs. cbn.
    repeat split; try tauto; intros; lia.
  - cbn [large_array_chunks].
    destruct (Z.ltb_spec cur (iter_limit_r lim)) as [Hlt|Hge].
    2:{ exists s, []. rewrite app_nil_r. unfold pushes_dirty_runs. cbn.
        repeat split; try tauto; intros; lia. }
    unfold bind at 1. unfold get_cards at 1. cbv zeta.
    pose proof (find_first_dirty_card_spec cfg (cards s) cur (iter_limit_r lim) ltac:(lia))
      as Hdl.
    set (dirty_l := find_first_dirty_card cfg (cards s) cur (iter_limit_r lim)) in *.
    cbv zeta in Hdl. destruct Hdl as (Hdl1 & Hdl2 & Hdl3).
    pose proof (find_first_clean_card_spec cfg (cards s) dirty_l (iter_limit_r lim) ltac:(lia))
      as Hdr.
    set (dirty_r := find_first_clean_card cfg (cards s) dirty_l (iter_limit_r lim)) in *.
    cbv zeta in Hdr. destruct Hdr as (Hdr1 & Hdr2 & Hdr3).
    rewrite assert_true_bind by (apply Z.leb_le; lia).
    destruct (Z.eqb_spec dirty_l dirty_r) as [Heq|Hne].
    + assert (Hend : dirty_r = iter_limit_r lim).
      { destruct (Z.eq_dec dirty_r (iter_limit_r lim)) as [|Hn']; [assumption|exfalso].
        apply (Hdl2 ltac:(lia)). rewrite Heq. apply Hdr2. lia. }
      exists s, []. rewrite app_nil_r. unfold pushes_dirty_runs. cbn.
      split; [apply assert_true; apply Z.eqb_eq; exact Hend|].
      split; [reflexivity|]. split; [|split; [reflexivity|split; [exact I|split]]].
      * intros c Hc _. apply Hdl3. lia.
      * intros l r [].
      * intros c Hc Hd. exfalso. apply Hd. apply Hdl3. lia.
    + rewrite assert_true_bind.
      2:{ apply negb_true_iff, Z.eqb_neq. apply Hdl2. lia. }
      rewrite assert_true_bind.
      2:{ apply orb_true_iff.
          destruct (Z.eq_dec dirty_r (iter_limit_r lim)) as [He|Hn'].
          - right. apply Z.leb_le. lia.
          - left. apply Z.eqb_eq. apply Hdr2. lia. }
      unfold bind at 1.
      destruct (clear_cards_loop_spec cfg
                  (Z.to_nat (Z.min dirty_r (clear_limit_r lim) - Z.max dirty_l (clear_limit_l lim)))
                  (Z.max dirty_l (clear_limit_l lim)) (Z.min dirty_r (clear_limit_r lim))
                  s (le_n _)) as (s1 & Hrun1 & Htr1 & Hc1).
      unfold clear_cards at 1. rewrite Hrun1.
      unfold bind at 1. unfold emit at 1.
      destruct (IH (dirty_r + 1)
                  {| cards := cards s1;
                     trace := trace s1 ++ [PushObjArrayContents arr (addr_for cfg dirty_l)
                                             (addr_for cfg dirty_r)] |}
                  Hcs Hlim ltac:(lia))
        as (s' & tr & Hrun & Htr & HA & HB & HC & HD & HE).
      cbn [cards trace] in *.
      assert (Hs1 : forall c, cards s1 c
                = if (Z.max dirty_l (clear_limit_l lim) <=? c)
                     && (c <? Z.min dirty_r (clear_limit_r lim))
                  then clean_card cfg else cards s c) by exact Hc1.
      assert (Hkeep : forall c, dirty_r <= c -> cards s1 c = cards s c).
      { intros c Hc. rewrite Hs1.
        destruct (Z.leb_spec (Z.max dirty_l (clear_limit_l lim)) c),
                 (Z.ltb_spec c (Z.min dirty_r (clear_limit_r lim))); cbn; try reflexivity; lia. }
      assert (Hrclean : dirty_r < iter_limit_r lim -> cards s dirty_r = clean_card cfg).
      { intros Hr. apply Hdr2. lia. }
      exists s'. eexists. split; [exact Hrun|]. split.
      { rewrite Htr, Htr1. rewrite <- !app_assoc. reflexivity. }
      split; [|split; [|split; [|split]]].
      * intros c Hc Hcl.
        destruct (Z.lt_ge_cases dirty_r c) as [Hgt|Hle].
        { apply HA; lia. }
        rewrite HB by lia. rewrite Hs1.
        destruct (Z.leb_spec (Z.max dirty_l (clear_limit_l lim)) c),
                 (Z.ltb_spec c (Z.min dirty_r (clear_limit_r lim))); cbn; try reflexivity.
        -- destruct (Z.eq_dec c dirty_r) as [->|]; [apply Hdr2; lia|lia].
        -- apply Hdl3. lia.
        -- apply Hdl3. lia.
      * intros c Hc. rewrite HB by lia. rewrite Hs1.
        destruct (Z.leb_spec (Z.max dirty_l (clear_limit_l lim)) c),
                 (Z.ltb_spec c (Z.min dirty_r (clear_limit_r lim))); cbn; try reflexivity.
        exfalso. apply Hc. lia.
      * rewrite !pushed_slices_app, pushed_slices_stores. cbn.
        split; [apply addr_for_mono; [exact Hcs|lia]|].
        split; [unfold addr_for; nia|].
        eapply increasing_slices_weaken; [|exact HC].
        apply addr_for_mono; [exact Hcs|lia].
      * rewrite !pushed_slices_app, pushed_slices_stores. cbn.
        intros l r [Heq|Hin].
        -- inversion Heq; subst. exists dirty_l, dirty_r.
           split; [reflexivity|]. split; [reflexivity|].
           split; [lia|]. split; [lia|]. split; [intros c Hc; apply Hdr3; lia|]. split.
           ++ destruct (Z.eq_dec dirty_l cur) as [|Hn']; [left; assumption|right].
              apply Hdl3. lia.
           ++ destruct (Z.eq_dec dirty_r (iter_limit_r lim)) as [|Hn'];
                [left; assumption|right]. apply Hrclean. lia.
        -- destruct (HD l r Hin) as (dl & dr & Hl & Hr & Hb1 & Hb2 & Hd & Hleft & Hright).
           exists dl, dr. split; [exact Hl|]. split; [exact Hr|].
           split; [lia|]. split; [lia|]. split; [|split].
           ++ intros c Hc. rewrite <- Hkeep by lia. apply Hd. exact Hc.
           ++ right. destruct Hleft as [Hleft|Hleft].
              ** subst dl. replace (dirty_r + 1 - 1) with dirty_r by lia.
                 apply Hrclean. lia.
              ** rewrite <- Hkeep by lia. exact Hleft.
           ++ destruct Hright as [Hright|Hright]; [left; exact Hright|right].
              rewrite <- Hkeep by lia. exact Hright.
      * rewrite !pushed_slices_app, pushed_slices_stores. cbn.
        intros c Hc Hd.
        destruct (Z.lt_ge_cases c dirty_l) as [Hb|Hb].
        { exfalso. apply Hd. apply Hdl3. lia. }
        destruct (Z.lt_ge_cases c dirty_r) as [Hb'|Hb'].
        { exists dirty_l, dirty_r. split; [left; reflexivity|lia]. }
        destruct (Z.eq_dec c dirty_r) as [->|Hne'].
        { exfalso. apply Hd. apply Hdr2. lia. }
        destruct (HE c ltac:(lia)) as (dl & dr & Hin & Hb2).
        { rewrite Hkeep by lia. exact Hd. }
        exists dl, dr. split; [right; exact Hin|exact Hb2].
Qed.

Lemma large_array_limits_bounds cfg heap arr stripe_addr stripe_end_addr flag :
  0 < card_size_in_words cfg ->
  let lim := large_array_limits cfg heap arr stripe_addr stripe_end_addr flag in
  byte_for cfg stripe_addr <= iter_limit_l lim
  /\ iter_limit_l lim <= clear_limit_l lim
  /\ clear_limit_r lim <= iter_limit_r lim
  /\ iter_limit_r lim <= byte_for cfg (stripe_end_addr - 1) + 1.
Proof.
  intros Hcs. unfold large_array_limits.
  pose proof (byte_for_pred cfg Hcs arr).
  pose proof (byte_for_pred cfg Hcs stripe_end_addr).
  pose proof (byte_for_pred cfg Hcs (arr + size heap arr)).
  destruct (Z.leb_spec stripe_addr arr) as [Hl|Hl];
    destruct flag;
    destruct (Z.leb_spec (arr + size heap arr) stripe_end_addr) as [Hr|Hr]; cbn;
    try pose proof (byte_for_mono cfg Hcs stripe_addr arr Hl);
    try pose proof (byte_for_mono cfg Hcs (arr + size heap arr - 1) (stripe_end_addr - 1)
                      ltac:(lia));
    lia.
Qed.

Lemma scavenge_large_array_contents_full
    cfg heap arr stripe_addr stripe_end_addr space_top flag s :
  0 < card_size_in_words cfg ->
  (ASSERT cfg = true ->
   large_array_preconditions cfg arr stripe_addr stripe_end_addr space_top flag = true) ->
  let lim := large_array_limits cfg heap arr stripe_addr stripe_end_addr flag in
  exists s' tr,
    scavenge_large_array_contents cfg heap arr stripe_addr stripe_end_addr space_top flag s
      = Ret tt s'
    /\ trace s' = trace s ++ large_array_prefix_push cfg arr stripe_addr flag ++ tr
    /\ (forall c, clear_limit_l lim <= c < clear_limit_r lim -> cards s' c = clean_card cfg)
    /\ (forall c, ~ (clear_limit_l lim <= c < clear_limit_r lim) -> cards s' c = cards s c)
    /\ pushes_dirty_runs cfg (cards s) (iter_limit_l lim) (iter_limit_r lim)
         (pushed_slices tr).
Proof.
  intros Hcs Hpre lim.
  destruct (large_array_limits_bounds cfg heap arr stripe_addr stripe_end_addr flag Hcs)
    as (_ & Hb1 & Hb2 & _). fold lim in Hb1, Hb2.
  assert (Hloop : forall s0, cards s0 = cards s -> exists s' tr,
    large_array_chunks cfg (Z.to_nat (iter_limit_r lim - iter_limit_l lim)) arr lim
      (iter_limit_l lim) s0 = Ret tt s'
    /\ trace s' = trace s0 ++ tr
    /\ (forall c, clear_limit_l lim <= c < clear_limit_r lim -> cards s' c = clean_card cfg)
    /\ (forall c, ~ (clear_limit_l lim <= c < clear_limit_r lim) -> cards s' c = cards s c)
    /\ pushes_dirty_runs cfg (cards s) (iter_limit_l lim) (iter_limit_r lim)
         (pushed_slices tr)).
  { intros s0 Hs0.
    destruct (large_array_chunks_full cfg arr lim
                (Z.to_nat (iter_limit_r lim - iter_limit_l lim)) (iter_limit_l lim) s0
                Hcs Hb2 (le_n _)) as (s' & tr & Hrun & Htr & HA & HB & HC).
    rewrite Hs0 in *.
    exists s', tr. split; [exact Hrun|]. split; [exact Htr|].
    split; [intros c Hc; apply HA; lia|].
    split; [intros c Hc; apply HB; lia|]. exact HC. }
  unfold scavenge_large_array_contents. fold lim.
  unfold large_array_preconditions in Hpre. unfold large_array_prefix_push.
  unfold bind, assert, guarantee, ret, abort, emit.
  destruct (ASSERT cfg).
  - specialize (Hpre eq_refl).
    apply andb_true_iff in Hpre. destruct Hpre as [Hpre H3].
    apply andb_true_iff in Hpre. destruct Hpre as [H1 H2].
    rewrite H1, H2.
    destruct ((stripe_addr <=? arr) && flag).
    + cbn in H3. rewrite H3.
      destruct (Hloop {| cards := cards s;
                         trace := trace s ++ [PushObjArrayContents arr arr (align_up_card cfg arr)] |}
                  eq_refl) as (s' & tr & Hrun & Htr & Hrest).
      exists s', tr. split; [exact Hrun|]. split; [|exact Hrest].
      rewrite Htr. cbn [trace]. rewrite <- app_assoc. reflexivity.
    + destruct (Hloop s eq_refl) as (s' & tr & Hrun & Htr & Hrest).
      exists s', tr. split; [exact Hrun|]. split; [exact Htr|exact Hrest].
  - destruct ((stripe_addr <=? arr) && flag).
    + destruct (Hloop {| cards := cards s;
                         trace := trace s ++ [PushObjArrayContents arr arr (align_up_card cfg arr)] |}
                  eq_refl) as (s' & tr & Hrun & Htr & Hrest).
      exists s', tr. split; [exact Hrun|]. split; [|exact Hrest].
      rewrite Htr. cbn [trace]. rewrite <- app_assoc. reflexivity.
    + destruct (Hloop s eq_refl) as (s' & tr & Hrun & Htr & Hrest).
      exists s', tr. split; [exact Hrun|]. split; [exact Htr|exact Hrest].
Qed.




(** The same array with the flag off and its first card 1 dirty: the walk
    starts on card 1, which begins the first slice. *)
Example scavenge_large_array_contents_first_card_examined :
  trace (final_state
           (scavenge_large_array_contents (Examples.cfg true) Examples.heap_large_array
              100 0 8192 20100 false (Examples.st [(1, 0); (3, 0)])))
  = [PushObjArrayContents 100 64 128; StoreCard 3 255; PushObjArrayContents 100 192 256].
Proof. vm_compute. reflexivity. Qed.

(** X6. A call of [scavenge_large_array_contents] whose asserted
    preconditions hold returns, and afterwards every card of
    [clear_limit_l, clear_limit_r) is clean and every other card has the
    value it had. *)
Theorem scavenge_large_array_contents_clears_its_range
    cfg heap arr stripe_addr stripe_end_addr space_top flag s :
  0 < card_size_in_words cfg ->
  (ASSERT cfg = true ->
   large_array_preconditions cfg arr stripe_addr stripe_end_addr space_top flag = true) ->
  let lim := large_array_limits cfg heap arr stripe_addr stripe_end_addr flag in
  exists s',
    scavenge_large_array_contents cfg heap arr stripe_addr stripe_end_addr space_top flag s
      = Ret tt s'
    /\ (forall c, clear_limit_l lim <= c < clear_limit_r lim -> cards s' c = clean_card cfg)
    /\ (forall c, ~ (clear_limit_l lim <= c < clear_limit_r lim) -> cards s' c = cards s c).
Proof.
  intros Hcs Hpre lim.
  destruct (scavenge_large_array_contents_full cfg heap arr stripe_addr stripe_end_addr
              space_top flag s Hcs Hpre) as (s' & tr & Hrun & _ & HA & HB & _).
  exists s'. auto.
Qed.

(** The array of [heap_large_array] in stripe 1, which it covers: the dirty
    cards 130 and 200 are cleared. *)
Lemma scavenge_large_array_contents_clears_its_range_witness :
  let cfg := Examples.cfg true in
  let heap := Examples.heap_large_array in
  let s := Examples.st [(130, 0); (200, 0)] in
  let lim := large_array_limits cfg heap 100 8192 16384 false in
  exists s',
    scavenge_large_array_contents cfg heap 100 8192 16384 20100 false s = Ret tt s'
    /\ (forall c, clear_limit_l lim <= c < clear_limit_r lim -> cards s' c = clean_card cfg)
    /\ (forall c, ~ (clear_limit_l lim <= c < clear_limit_r lim) -> cards s' c = cards s c).
Proof.
  apply (scavenge_large_array_contents_clears_its_range
           (Examples.cfg true) Examples.heap_large_array 100 8192 16384 20100 false
           (Examples.st [(130, 0); (200, 0)])).
  - reflexivity.
  - intros _. reflexivity.
Defined.

(** X7. The slices that a call of [scavenge_large_array_contents] pushes
    after the prefix are exactly the maximal runs of cards of
    [iter_limit_l, iter_limit_r) that were not clean, each once and in
    increasing order: every slice is card-aligned and not empty, lies on
    cards that were not clean, starts at [iter_limit_l] or after a clean
    card and ends at [iter_limit_r] or at a clean card; and every card of
    the range that was not clean lies in one of the slices. *)
Theorem scavenge_large_array_contents_pushes_dirty_runs
    cfg heap arr stripe_addr stripe_end_addr space_top flag s :
  0 < card_size_in_words cfg ->
  (ASSERT cfg = true ->
   large_array_preconditions cfg arr stripe_addr stripe_end_addr space_top flag = true) ->
  let lim := large_array_limits cfg heap arr stripe_addr stripe_end_addr flag in
  exists s' tr,
    scavenge_large_array_contents cfg heap arr stripe_addr stripe_end_addr space_top flag s
      = Ret tt s'
    /\ trace s' = trace s ++ large_array_prefix_push cfg arr stripe_addr flag ++ tr
    /\ pushes_dirty_runs cfg (cards s) (iter_limit_l lim) (iter_limit_r lim)
         (pushed_slices tr).
Proof.
  intros Hcs Hpre lim.
  destruct (scavenge_large_array_contents_full cfg heap arr stripe_addr stripe_end_addr
              space_top flag s Hcs Hpre) as (s' & tr & Hrun & Htr & _ & _ & HC).
  exists s', tr. auto.
Qed.

Lemma scavenge_large_array_contents_pushes_dirty_runs_witness :
  let cfg := Examples.cfg true in
  let heap := Examples.heap_large_array in
  let s := Examples.st [(130, 0); (131, 0); (200, 0)] in
  let lim := large_array_limits cfg heap 100 8192 16384 false in
  exists s' tr,
    scavenge_large_array_contents cfg heap 100 8192 16384 20100 false s = Ret tt s'
    /\ trace s' = trace s ++ large_array_prefix_push cfg 100 8192 false ++ tr
    /\ pushes_dirty_runs cfg (cards s) (iter_limit_l lim) (iter_limit_r lim)
         (pushed_slices tr).
Proof.
  apply (scavenge_large_array_contents_pushes_dirty_runs
           (Examples.cfg true) Examples.heap_large_array 100 8192 16384 20100 false
           (Examples.st [(130, 0); (131, 0); (200, 0)])).
  - reflexivity.
  - intros _. reflexivity.
Defined.

Example scavenge_large_array_contents_two_runs :
  trace (final_state
           (scavenge_large_array_contents (Examples.cfg true) Examples.heap_large_array
              100 8192 16384 20100 false (Examples.st [(130, 0); (131, 0); (200, 0)])))
  = [StoreCard 130 255; StoreCard 131 255; PushObjArrayContents 100 8320 8448;
     StoreCard 200 255; PushObjArrayContents 100 12800 12864].
Proof. vm_compute. reflexivity. Qed.

(** X8. The limits of [scavenge_large_array_contents] stay on the cards of
    the stripe, and the cards it may clear are among those it examines:
    [byte_for(stripe_addr) <= iter_limit_l <= clear_limit_l] and
    [clear_limit_r <= iter_limit_r <= byte_for(stripe_end_addr - 1) + 1]. *)
Theorem large_array_limits_within_stripe
    cfg heap arr stripe_addr stripe_end_addr first_card_already_cleared :
  0 < card_size_in_words cfg ->
  let lim := large_array_limits cfg heap arr stripe_addr stripe_end_addr
               first_card_already_cleared in
  byte_for cfg stripe_addr <= iter_limit_l lim
  /\ iter_limit_l lim <= clear_limit_l lim
  /\ clear_limit_r lim <= iter_limit_r lim
  /\ iter_limit_r lim <= byte_for cfg (stripe_end_addr - 1) + 1.
Proof.
  intros Hcs. unfold large_array_limits.
  pose proof (byte_for_pred cfg Hcs arr).
  pose proof (byte_for_pred cfg Hcs stripe_end_addr).
  pose proof (byte_for_pred cfg Hcs (arr + size heap arr)).
  destruct (Z.leb_spec stripe_addr arr) as [Hl|Hl];
    destruct first_card_already_cleared;
    destruct (Z.leb_spec (arr + size heap arr) stripe_end_addr) as [Hr|Hr]; cbn;
    try pose proof (byte_for_mono cfg Hcs stripe_addr arr Hl);
    try pose proof (byte_for_mono cfg Hcs (arr + size heap arr - 1) (stripe_end_addr - 1)
                      ltac:(lia));
    lia.
Qed.

Lemma large_array_limits_within_stripe_witness :
  let cfg := Examples.cfg true in
  let lim := large_array_limits cfg Examples.heap_large_array 100 0 8192 true in
  byte_for cfg 0 <= iter_limit_l lim
  /\ iter_limit_l lim <= clear_limit_l lim
  /\ clear_limit_r lim <= iter_limit_r lim
  /\ iter_limit_r lim <= byte_for cfg (8192 - 1) + 1.
Proof.
  apply (large_array_limits_within_stripe (Examples.cfg true) Examples.heap_large_array
           100 0 8192 true).
  reflexivity.
Defined.

(** ** The start cache of the driver *)

Lemma StartCache_object_start_run cfg heap bottom top c addr s :
  heap_parsable heap bottom top ->
  StartCache_inv heap bottom top c ->
  prev_query c <= addr -> bottom <= addr < top ->
  exists c',
    StartCache_object_start cfg heap c addr s = Ret (object_start heap addr, c') s
    /\ StartCache_inv heap bottom top c'
    /\ prev_query c' = addr.
Proof.
  intros Hp Hinv Hmono Haddr.
  pose proof (StartCache_inv_valid heap bottom top c addr Hp Hinv Hmono Haddr) as Hvalid.
  unfold StartCache_object_start.
  rewrite assert_true_bind by (apply orb_true_iff; right; apply Z.leb_le; exact Hmono).
  destruct (Z.leb_spec (obj_end c) addr) as [Hstale|Hhit]; unfold ret.
  - eexists. split; [reflexivity|]. split; [|reflexivity].
    right. exists addr. cbn. repeat split; lia.
  - destruct Hvalid as [|Hv]; [lia|]. rewrite <- Hv.
    eexists. split; [reflexivity|]. split; [|reflexivity].
    destruct Hinv as [Hempty|(q & Hq & Hprev & Hs & He)]; [lia|].
    right. exists q. cbn. repeat split; try lia; assumption.
Qed.

(** X9. In a parsable space, a start cache that satisfies its invariant,
    asked about an address not below its previous query, answers what the
    start array answers, passes its assert, and keeps the invariant with
    the address as its new previous query. *)
Theorem StartCache_object_start_correct cfg heap bottom top c addr s :
  heap_parsable heap bottom top ->
  StartCache_inv heap bottom top c ->
  prev_query c <= addr -> bottom <= addr < top ->
  exists c',
    StartCache_object_start cfg heap c addr s = Ret (object_start heap addr, c') s
    /\ StartCache_inv heap bottom top c'
    /\ prev_query c' = addr.
Proof.
  intros Hp Hinv Hmono Haddr.
  destruct (StartCache_object_start_run cfg heap bottom top c addr s Hp Hinv Hmono Haddr)
    as (c' & Hrun & Hinv' & Hq).
  exists c'. split; [exact Hrun|]. split; assumption.
Qed.

(** A cache filled in stripe 1 of [heap_large_array] answers the query of
    stripe 2 without asking the start array. *)
Lemma StartCache_object_start_correct_witness :
  exists c',
    StartCache_object_start (Examples.cfg true) Examples.heap_large_array
      {| obj_start := 100; obj_end := 20100; prev_query := 8192 |} 16384 (Examples.st [])
    = Ret (object_start Examples.heap_large_array 16384, c') (Examples.st [])
    /\ StartCache_inv Examples.heap_large_array 0 20100 c'
    /\ prev_query c' = 16384.
Proof.
  apply (StartCache_object_start_correct (Examples.cfg true) Examples.heap_large_array
           0 20100 {| obj_start := 100; obj_end := 20100; prev_query := 8192 |} 16384
           (Examples.st [])).
  - exact heap_large_array_parsable.
  - right. exists 8192. cbn. repeat split; lia.
  - cbn. lia.
  - lia.
Defined.

(** ** A stripe inside an object that is not a large array *)

(** X10. In a parsable space, when no object starts in a stripe and the
    object that covers it is not a large object array, the worker of the
    stripe does nothing: no card is stored to and nothing is pushed; only
    the start cache records the query. *)
Theorem scavenge_stripe_inside_plain_object
    cfg heap bottom space_top cur_stripe_addr start_cache s :
  heap_parsable heap bottom space_top ->
  StartCache_inv heap bottom space_top start_cache ->
  prev_query start_cache <= cur_stripe_addr ->
  bottom <= cur_stripe_addr < space_top ->
  object_starts_in_range heap cur_stripe_addr (stripe_end cfg cur_stripe_addr space_top)
    = false ->
  is_large_obj_array heap (object_start heap cur_stripe_addr) = false ->
  exists start_cache',
    scavenge_stripe cfg heap space_top cur_stripe_addr start_cache s = Ret start_cache' s
    /\ StartCache_inv heap bottom space_top start_cache'
    /\ prev_query start_cache' = cur_stripe_addr.
Proof.
  intros Hp Hinv Hmono Hcur Hnone Hplain.
  destruct (StartCache_object_start_run cfg heap bottom space_top start_cache
              cur_stripe_addr s Hp Hinv Hmono Hcur) as (c' & Hrun & Hinv' & Hq).
  exists c'. split; [|split; assumption].
  unfold scavenge_stripe. cbv zeta. fold (stripe_end cfg cur_stripe_addr space_top).
  rewrite Hnone. cbn [negb]. unfold bind. rewrite Hrun. cbn [fst snd].
  rewrite Hplain. reflexivity.
Qed.

Lemma heap_big_plain_object_parsable :
  heap_parsable Examples.heap_big_plain_object 0 20100.
Proof. layout_parsable. Qed.

Lemma scavenge_stripe_inside_plain_object_witness :
  exists start_cache',
    scavenge_stripe (Examples.cfg true) Examples.heap_big_plain_object 20100 8192
      StartCache_init (Examples.st [(130, 0); (200, 0)])
    = Ret start_cache' (Examples.st [(130, 0); (200, 0)])
    /\ StartCache_inv Examples.heap_big_plain_object 0 20100 start_cache'
    /\ prev_query start_cache' = 8192.
Proof.
  apply (scavenge_stripe_inside_plain_object (Examples.cfg true)
           Examples.heap_big_plain_object 0 20100 8192 StartCache_init
           (Examples.st [(130, 0); (200, 0)])).
  - exact heap_big_plain_object_parsable.
  - left. cbn. lia.
  - cbn. lia.
  - lia.
  - reflexivity.
  - reflexivity.
Defined.

(** ** The events of a worker *)

Lemma returns_assert cfg cond msg :
  returns (fun _ => ASSERT cfg = true -> cond = true) (assert cfg cond msg).
Proof.
  intros s a s' Hr. unfold assert, guarantee, ret, abort in Hr.
  destruct (ASSERT cfg); [|discriminate]. destruct cond; [reflexivity|discriminate].
Qed.

Lemma emits_worker_scan_objects_in_range cfg heap start end_ :
  emits (worker_event cfg heap) (scan_objects_in_range cfg heap start end_).
Proof.
  unfold scan_objects_in_range.
  apply emits_bind; [|intros _; apply emits_emit; exact I].
  generalize (Z.to_nat (end_ - start)) as n. intros n. revert start.
  induction n as [|n IH]; intros a; cbn [scan_objects_in_range_loop];
    destruct (a <? end_); try apply emits_ret; try apply emits_out_of_fuel.
  apply (emits_bind_post _ (fun _ => ASSERT cfg = true -> is_oop heap a = true));
    [exact (returns_assert cfg _ _)|apply emits_assert|]. intros _ Hoop.
  apply (emits_bind_post _
           (fun _ => ASSERT cfg = true ->
                     negb (is_objArray heap a) || negb (is_large_obj_array heap a) = true));
    [exact (returns_assert cfg _ _)|apply emits_assert|]. intros _ Hsmall.
  apply emits_bind; [|intros _; apply IH].
  apply emits_emit. cbn. auto.
Qed.

Lemma emits_worker_large_array_chunks cfg heap arr lim n : forall cur_card,
  is_large_obj_array heap arr = true ->
  emits (worker_event cfg heap) (large_array_chunks cfg n arr lim cur_card).
Proof.
  induction n as [|n IH]; intros cur_card Hlarge; cbn [large_array_chunks];
    destruct (cur_card <? iter_limit_r lim);
    try apply emits_ret; try apply emits_out_of_fuel.
  apply emits_bind; [apply emits_get_cards|]. intros ct. cbv zeta.
  apply emits_bind; [apply emits_assert|]. intros _.
  destruct (_ =? _); [apply emits_assert|].
  apply emits_bind; [apply emits_assert|]. intros _.
  apply emits_bind; [apply emits_assert|]. intros _.
  apply emits_bind; [apply emits_clear_cards; intros; reflexivity|]. intros _.
  apply emits_bind; [apply emits_emit; exact Hlarge|]. intros _.
  apply IH. exact Hlarge.
Qed.

Lemma emits_worker_scavenge_large_array_contents
    cfg heap arr stripe_addr stripe_end_addr space_top flag :
  is_large_obj_array heap arr = true ->
  emits (worker_event cfg heap)
    (scavenge_large_array_contents cfg heap arr stripe_addr stripe_end_addr space_top flag).
Proof.
  intros Hlarge. unfold scavenge_large_array_contents. cbv zeta.
  apply emits_bind; [apply emits_assert|]. intros _.
  apply emits_bind; [apply emits_assert|]. intros _.
  apply emits_bind.
  { destruct (_ && flag); [|apply emits_ret].
    apply emits_bind; [apply emits_assert|]. intros _. apply emits_emit. exact Hlarge. }
  intros _. apply emits_worker_large_array_chunks. exact Hlarge.
Qed.

Lemma emits_worker_dirty_chunks cfg heap first_obj cur_stripe_end_addr large_arr lim n :
  forall cur_card,
  emits (worker_event cfg heap)
    (dirty_chunks cfg heap n first_obj cur_stripe_end_addr large_arr lim cur_card).
Proof.
  induction n as [|n IH]; intros cur_card; cbn [dirty_chunks];
    destruct (cur_card <? iter_limit_r lim);
    try apply emits_ret; try apply emits_out_of_fuel.
  apply emits_bind; [apply emits_get_cards|]. intros ct. cbv zeta.
  apply emits_bind; [apply emits_find_first_clean_card_obj|]. intros dirty_r.
  apply emits_bind; [apply emits_assert|]. intros _.
  destruct (_ =? dirty_r); [apply emits_assert|].
  apply emits_bind; [apply emits_assert|]. intros _.
  apply emits_bind; [apply emits_assert|]. intros _.
  apply emits_bind; [apply emits_clear_cards; intros; reflexivity|]. intros _.
  apply emits_bind; [apply emits_worker_scan_objects_in_range|]. intros _.
  apply IH.
Qed.

Lemma emits_worker_scavenge_stripe cfg heap space_top cur_stripe_addr start_cache :
  emits (worker_event cfg heap)
    (scavenge_stripe cfg heap space_top cur_stripe_addr start_cache).
Proof.
  unfold scavenge_stripe. cbv zeta.
  destruct (negb _).
  - apply emits_bind; [apply emits_StartCache_object_start|]. intros r.
    apply emits_bind; [|intros _; apply emits_ret].
    destruct (is_large_obj_array heap (fst r)) eqn:Hlarge; [|apply emits_ret].
    apply emits_worker_scavenge_large_array_contents. exact Hlarge.
  - apply emits_bind.
    { destruct (_ <? cur_stripe_addr); [|apply emits_assert].
      destruct (is_large_obj_array heap (object_start heap cur_stripe_addr)) eqn:Hlarge;
        [|apply emits_ret].
      apply emits_worker_scavenge_large_array_contents. exact Hlarge. }
    intros _.
    apply emits_bind; [apply emits_assert|]. intros _.
    apply emits_bind; [apply emits_assert|]. intros _.
    apply emits_bind; [apply emits_get_cards|]. intros ct.
    unfold identify_right_ends. cbv zeta.
    destruct (is_large_obj_array heap (object_start heap _)) eqn:Hlarge.
    + destruct (_ <? cur_stripe_addr).
      * apply emits_bind; [apply emits_assert|]. intros _. apply emits_ret.
      * apply emits_bind; [apply emits_ret|]. intros _.
        apply emits_bind; [apply emits_assert|]. intros _.
        apply emits_bind; [apply emits_worker_dirty_chunks|]. intros _.
        apply emits_bind; [|intros _; apply emits_ret].
        apply emits_worker_scavenge_large_array_contents. exact Hlarge.
    + apply emits_bind; [apply emits_assert|]. intros _.
      apply emits_bind; [apply emits_assert|]. intros _.
      apply emits_bind; [apply emits_worker_dirty_chunks|]. intros _.
      apply emits_bind; [apply emits_ret|]. intros _. apply emits_ret.
Qed.

Lemma emits_worker_scavenge_stripes cfg heap space_top slice_size_in_words n :
  forall cur_stripe_addr start_cache,
  emits (worker_event cfg heap)
    (scavenge_stripes cfg heap n space_top slice_size_in_words cur_stripe_addr start_cache).
Proof.
  induction n as [|n IH]; intros cur c; cbn [scavenge_stripes];
    destruct (cur <? space_top); try apply emits_ret; try apply emits_out_of_fuel.
  apply emits_bind; [apply emits_worker_scavenge_stripe|]. intros c'. apply IH.
Qed.

(** X11. Whatever the heap, the cards and the outcome, a worker of
    [scavenge_contents_parallel] only ever stores [clean_card] to the card
    table, pushes slices only of objects classified as large object arrays,
    and in a debug build pushes as whole objects only objects that passed
    the asserts of [scan_objects_in_range]. *)
Theorem scavenge_contents_parallel_events
    cfg heap bottom space_top stripe_index n_stripes s :
  exists tr,
    trace (final_state
             (scavenge_contents_parallel cfg heap bottom space_top stripe_index n_stripes s))
      = trace s ++ tr
    /\ Forall (worker_event cfg heap) tr.
Proof.
  unfold scavenge_contents_parallel. cbv zeta.
  apply emits_worker_scavenge_stripes.
Qed.

(** ** Termination of a worker *)

Lemma total_ret cfg {A} (Q : A -> Prop) a : Q a -> total cfg Q (ret a).
Proof. intros H s. exact H. Qed.

Lemma total_bind cfg {A B} (P : A -> Prop) (Q : B -> Prop) (m : M A) (k : A -> M B) :
  total cfg P m -> (forall a, P a -> total cfg Q (k a)) -> total cfg Q (bind m k).
Proof.
  intros Hm Hk s. unfold bind. specialize (Hm s).
  destruct (m s) as [a s1|msg s1|s1]; [|exact Hm|exact Hm].
  exact (Hk a Hm s1).
Qed.

Lemma total_weaken cfg {A} (P Q : A -> Prop) (m : M A) :
  (forall a, P a -> Q a) -> total cfg P m -> total cfg Q m.
Proof.
  intros HPQ Hm s. specialize (Hm s). destruct (m s); auto.
Qed.

Lemma total_assert cfg cond msg : total cfg (fun _ => True) (assert cfg cond msg).
Proof.
  intros s. unfold assert, guarantee, ret, abort.
  destruct (ASSERT cfg) eqn:Hd; [destruct cond|]; auto.
Qed.

Lemma total_get_cards cfg : total cfg (fun _ => True) get_cards.
Proof. intros s. exact I. Qed.

Lemma total_emit cfg e : total cfg (fun _ => True) (emit e).
Proof. intros s. exact I. Qed.

Lemma total_clear_cards cfg start end_ : total cfg (fun _ => True) (clear_cards cfg start end_).
Proof.
  intros s.
  destruct (clear_cards_loop_spec cfg (Z.to_nat (end_ - start)) start end_ s (le_n _))
    as (s' & Hrun & _).
  unfold clear_cards. rewrite Hrun. exact I.
Qed.

Lemma total_find_first_clean_card_obj cfg heap start_card end_card :
  total cfg (fun r => r = end_card \/ (start_card < r /\ start_card + 1 < end_card))
    (find_first_clean_card_obj cfg heap start_card end_card).
Proof.
  intros s.
  pose proof (find_first_clean_card_obj_outcome cfg heap s start_card end_card) as H.
  destruct (find_first_clean_card_obj cfg heap start_card end_card s) as [r s'|msg s'|s'].
  - destruct H as [_ [Hr|(H1 & H2 & _)]]; [left; exact Hr|right; split; assumption].
  - apply H.
  - exact H.
Qed.

Lemma total_scavenge_large_array_contents
    cfg heap arr stripe_addr stripe_end_addr space_top flag :
  0 < card_size_in_words cfg ->
  total cfg (fun _ => True)
    (scavenge_large_array_contents cfg heap arr stripe_addr stripe_end_addr space_top flag).
Proof.
  intros Hcs s.
  pose proof (scavenge_large_array_contents_outcome cfg heap arr stripe_addr
                stripe_end_addr space_top flag s Hcs) as Ho.
  cbv zeta in Ho.
  destruct (ASSERT cfg) eqn:Hd; cbn [andb] in Ho.
  - destruct (negb _).
    + destruct Ho as (msg & ->). reflexivity.
    + destruct Ho as (s' & tr & -> & _). exact I.
  - destruct Ho as (s' & tr & -> & _). exact I.
Qed.

Section WorkerTermination.

Variable cfg : Config.
Variable heap : Heap.
Variables bottom space_top : HeapWord.

Hypothesis card_size_pos : 0 < card_size_in_words cfg.
Hypothesis Hparsable : heap_parsable heap bottom space_top.

(** An address of the space at which the object walk can start: an object
    start, or the end of the space. *)
Lemma total_scan_objects_in_range_loop n : forall a end_,
  bottom <= a -> (a < space_top -> object_start heap a = a) -> end_ <= space_top ->
  (Z.to_nat (end_ - a) <= n)%nat ->
  total cfg (fun _ => True) (scan_objects_in_range_loop cfg heap n a end_).
Proof.
  induction n as [|n IH]; intros a end_ Ha Hs He Hn; cbn [scan_objects_in_range_loop];
    destruct (Z.ltb_spec a end_) as [Hlt|Hge]; try (apply total_ret; exact I); [lia|].
  destruct (starts_in_cons heap bottom space_top a Hparsable ltac:(lia) (Hs ltac:(lia)))
    as (_ & Hsz & Hnext).
  eapply total_bind; [apply total_assert|]. intros _ _.
  eapply total_bind; [apply total_assert|]. intros _ _.
  eapply total_bind; [apply total_emit|]. intros _ _.
  apply IH; try lia; try exact Hnext.
Qed.

Lemma total_scan_objects_in_range a end_ :
  bottom <= a -> (a < space_top -> object_start heap a = a) -> end_ <= space_top ->
  total cfg (fun _ => True) (scan_objects_in_range cfg heap a end_).
Proof.
  intros Ha Hs He. unfold scan_objects_in_range.
  eapply total_bind; [apply total_scan_objects_in_range_loop; try assumption; apply le_n|].
  intros _ _. apply total_emit.
Qed.

Lemma total_dirty_chunks first_obj cur_stripe_end_addr large_arr lim n : forall cur_card,
  (forall dirty_l, iter_limit_l lim <= dirty_l < iter_limit_r lim ->
                   bottom <= addr_for cfg dirty_l < space_top) ->
  bottom <= first_obj ->
  (first_obj < space_top -> object_start heap first_obj = first_obj) ->
  match large_arr with Some arr => arr | None => cur_stripe_end_addr end <= space_top ->
  iter_limit_l lim <= cur_card ->
  (Z.to_nat (iter_limit_r lim - cur_card) <= n)%nat ->
  total cfg (fun _ => True)
    (dirty_chunks cfg heap n first_obj cur_stripe_end_addr large_arr lim cur_card).
Proof.
  induction n as [|n IH]; intros cur_card Hin Hfb Hfs Hend Hcur Hn; cbn [dirty_chunks];
    destruct (Z.ltb_spec cur_card (iter_limit_r lim)) as [Hlt|Hge];
    try (apply total_ret; exact I); [lia|].
  eapply total_bind; [apply total_get_cards|]. intros ct _. cbv zeta.
  pose proof (find_first_dirty_card_spec cfg ct cur_card (iter_limit_r lim) ltac:(lia)) as Hdl.
  set (dirty_l := find_first_dirty_card cfg ct cur_card (iter_limit_r lim)) in *.
  cbv zeta in Hdl. destruct Hdl as (Hdl1 & _ & _).
  eapply total_bind; [apply total_find_first_clean_card_obj|]. intros dirty_r Hdr.
  eapply total_bind; [apply total_assert|]. intros _ _.
  destruct (Z.eqb_spec dirty_l dirty_r) as [Heq|Hne]; [apply total_assert|].
  assert (Hdl2 : dirty_l < iter_limit_r lim /\ dirty_l < dirty_r).
  { destruct Hdr as [Hr|[Hr1 Hr2]]; lia. }
  eapply total_bind; [apply total_assert|]. intros _ _.
  eapply total_bind; [apply total_assert|]. intros _ _.
  eapply total_bind; [apply total_clear_cards|]. intros _ _.
  eapply total_bind.
  { pose proof (Hin dirty_l ltac:(lia)) as Hdla.
    pose proof (parsable_start _ _ _ Hparsable _ Hdla) as Hst.
    pose proof (parsable_start_idem heap bottom space_top _ Hparsable Hdla) as Hidem.
    apply total_scan_objects_in_range.
    - lia.
    - intros Hlt'. destruct (Z.max_spec (object_start heap (addr_for cfg dirty_l)) first_obj)
        as [[_ ->]|[_ ->]]; [apply Hfs; lia|exact Hidem].
    - destruct large_arr; lia. }
  intros _ _. apply IH; try assumption; lia.
Qed.

Lemma total_scavenge_stripe cur_stripe_addr start_cache :
  0 < stripe_size_in_words cfg ->
  is_card_aligned cfg cur_stripe_addr = true ->
  bottom <= cur_stripe_addr < space_top ->
  total cfg (fun _ => True) (scavenge_stripe cfg heap space_top cur_stripe_addr start_cache).
Proof.
  intros Hss Hal Hcur. unfold scavenge_stripe. cbv zeta.
  fold (stripe_end cfg cur_stripe_addr space_top).
  assert (Hce : cur_stripe_addr < stripe_end cfg cur_stripe_addr space_top <= space_top)
    by (unfold stripe_end; lia).
  set (cur_end := stripe_end cfg cur_stripe_addr space_top) in *.
  destruct (negb _).
  { apply (total_bind cfg (fun _ => True)).
    { unfold StartCache_object_start.
      apply (total_bind cfg (fun _ => True)); [apply total_assert|]. intros _ _.
      destruct (_ <=? cur_stripe_addr); apply total_ret; exact I. }
    intros r _.
    apply (total_bind cfg (fun _ => True)); [|intros _ _; apply total_ret; exact I].
    destruct (is_large_obj_array heap (fst r));
      [apply total_scavenge_large_array_contents; exact card_size_pos|apply total_ret; exact I]. }
  assert (Hc : bottom <= cur_stripe_addr < space_top) by lia.
  assert (He : bottom <= cur_end - 1 < space_top) by lia.
  pose proof (parsable_start _ _ _ Hparsable _ Hc) as Hs1.
  pose proof (parsable_cover _ _ _ Hparsable _ Hc) as Hc1.
  pose proof (parsable_start_idem heap bottom space_top _ Hparsable Hc) as Hi1.
  pose proof (parsable_start _ _ _ Hparsable _ He) as Hs2.
  pose proof (parsable_cover _ _ _ Hparsable _ He) as Hc2.
  pose proof (byte_for_pred_aligned cfg card_size_pos _ Hal) as Hpa.
  assert (Hcura : addr_for cfg (byte_for cfg cur_stripe_addr) = cur_stripe_addr).
  { unfold is_card_aligned in Hal. apply Z.eqb_eq in Hal.
    unfold addr_for, byte_for.
    pose proof (Z.div_mod cur_stripe_addr (card_size_in_words cfg) ltac:(lia)). lia. }
  apply (total_bind cfg (fun _ => True)).
  { destruct (_ <? cur_stripe_addr); [|apply total_assert].
    destruct (is_large_obj_array heap _);
      [apply total_scavenge_large_array_contents; exact card_size_pos|apply total_ret; exact I]. }
  intros _ _.
  apply (total_bind cfg (fun _ => True)); [apply total_assert|]. intros _ _.
  apply (total_bind cfg (fun _ => True)); [apply total_assert|]. intros _ _.
  apply (total_bind cfg (fun _ => True)); [apply total_get_cards|]. intros ct _.
  (* the left ends *)
  assert (Hleft : bottom <= first_obj_addr (identify_left_ends cfg heap cur_stripe_addr)
                  /\ (first_obj_addr (identify_left_ends cfg heap cur_stripe_addr) < space_top ->
                      object_start heap (first_obj_addr (identify_left_ends cfg heap cur_stripe_addr))
                      = first_obj_addr (identify_left_ends cfg heap cur_stripe_addr))
                  /\ byte_for cfg cur_stripe_addr
                     <= left_iter_limit (identify_left_ends cfg heap cur_stripe_addr)).
  { unfold identify_left_ends.
    destruct (Z.ltb_spec (object_start heap cur_stripe_addr) cur_stripe_addr) as [Hstr|Hno];
      cbn.
    - destruct (starts_in_cons heap bottom space_top (object_start heap cur_stripe_addr)
                  Hparsable ltac:(lia) Hi1) as (_ & Hsz & Hnext).
      split; [lia|]. split; [exact Hnext|].
      apply byte_for_mono; [exact card_size_pos|lia].
    - split; [lia|]. split; [intros _; exact Hi1|lia]. }
  destruct Hleft as (Hfb & Hfs & Hil).
  assert (Hlow : forall dirty_l, byte_for cfg cur_stripe_addr <= dirty_l ->
                                 bottom <= addr_for cfg dirty_l).
  { intros dl Hdl. pose proof (addr_for_mono cfg card_size_pos _ _ Hdl). lia. }
  unfold identify_right_ends. cbv zeta. fold cur_end.
  set (tail := object_start heap (cur_end - 1)) in *.
  destruct (is_large_obj_array heap tail).
  - destruct (Z.ltb_spec tail cur_stripe_addr) as [|Htail].
    + apply (total_bind cfg (fun _ => True)); [apply total_assert|]. intros _ _. apply total_ret. exact I.
    + apply (total_bind cfg (fun _ => True)); [apply total_ret; exact I|]. intros _ _.
      apply (total_bind cfg (fun _ => True)); [apply total_assert|]. intros _ _.
      apply (total_bind cfg (fun _ => True)).
      { assert (Hin : forall dl,
                  left_iter_limit (identify_left_ends cfg heap cur_stripe_addr) <= dl
                    < byte_for cfg (tail - 1) + 1 ->
                  bottom <= addr_for cfg dl < space_top).
        { intros dl Hdl. split; [apply Hlow; lia|].
          assert (Hle : dl <= byte_for cfg (tail - 1)) by lia.
          apply (addr_for_le_iff cfg card_size_pos) in Hle. lia. }
        apply total_dirty_chunks; cbn [iter_limit_l iter_limit_r]; try assumption;
          try lia; try apply le_n. }
      intros _ _.
      apply (total_bind cfg (fun _ => True)); [|intros _ _; apply total_ret; exact I].
      apply total_scavenge_large_array_contents. exact card_size_pos.
  - apply (total_bind cfg (fun _ => True)); [apply total_assert|]. intros _ _.
    apply (total_bind cfg (fun _ => True)); [apply total_assert|]. intros _ _.
    apply (total_bind cfg (fun _ => True)).
    { assert (Hin : forall dl,
                left_iter_limit (identify_left_ends cfg heap cur_stripe_addr) <= dl
                  < byte_for cfg (tail + size heap tail - 1) + 1 ->
                bottom <= addr_for cfg dl < space_top).
      { intros dl Hdl. split; [apply Hlow; lia|].
        assert (Hle : dl <= byte_for cfg (tail + size heap tail - 1)) by lia.
        apply (addr_for_le_iff cfg card_size_pos) in Hle. lia. }
      apply total_dirty_chunks; cbn [iter_limit_l iter_limit_r]; try assumption;
        try lia; try apply le_n. }
    intros _ _.
    apply (total_bind cfg (fun _ => True)); [apply total_ret; exact I|]. intros _ _. apply total_ret. exact I.
Qed.

Lemma total_scavenge_stripes slice_size_in_words n : forall cur_stripe_addr start_cache,
  0 < stripe_size_in_words cfg ->
  0 < slice_size_in_words ->
  slice_size_in_words mod card_size_in_words cfg = 0 ->
  is_card_aligned cfg cur_stripe_addr = true ->
  bottom <= cur_stripe_addr ->
  (Z.to_nat (space_top - cur_stripe_addr) <= n)%nat ->
  total cfg (fun _ => True)
    (scavenge_stripes cfg heap n space_top slice_size_in_words cur_stripe_addr start_cache).
Proof.
  induction n as [|n IH]; intros cur c Hss Hsl Hmod Hal Hb Hn; cbn [scavenge_stripes];
    destruct (Z.ltb_spec cur space_top) as [Hlt|Hge];
    try (apply total_ret; exact I); [lia|].
  eapply total_bind; [apply total_scavenge_stripe; try assumption; lia|].
  intros c' _. apply IH; try assumption; try lia.
  unfold is_card_aligned in *. apply Z.eqb_eq in Hal. apply Z.eqb_eq.
  rewrite Zplus_mod, Hal, Hmod. reflexivity.
Qed.

End WorkerTermination.

(** X12. On a parsable space with a card-aligned bottom, a worker of
    [scavenge_contents_parallel] terminates for every stripe index, number
    of stripes and card table: each loop of the driver advances, so the
    iteration bound of the model is never reached.  A product build
    returns; a debug build returns or stops at a failed assert. *)
Theorem scavenge_contents_parallel_terminates
    cfg heap bottom space_top stripe_index n_stripes s :
  0 < card_size_in_words cfg ->
  0 < num_cards_in_stripe cfg ->
  0 < n_stripes ->
  0 <= stripe_index ->
  is_card_aligned cfg bottom = true ->
  heap_parsable heap bottom space_top ->
  match scavenge_contents_parallel cfg heap bottom space_top stripe_index n_stripes s with
  | Ret _ _ => True
  | Abort _ _ => ASSERT cfg = true
  | OutOfFuel _ => False
  end.
Proof.
  intros Hcs Hnc Hn Hi Hal Hp.
  assert (Hss : 0 < stripe_size_in_words cfg) by (unfold stripe_size_in_words; nia).
  assert (Hmod : forall k, (k * stripe_size_in_words cfg) mod card_size_in_words cfg = 0).
  { intros k. unfold stripe_size_in_words.
    rewrite Z.mul_assoc. apply Z_mod_mult. }
  unfold scavenge_contents_parallel. cbv zeta.
  apply (total_scavenge_stripes cfg heap bottom space_top Hcs Hp); try assumption.
  - nia.
  - rewrite Z.mul_comm. apply Hmod.
  - unfold is_card_aligned in *. apply Z.eqb_eq in Hal. apply Z.eqb_eq.
    rewrite Zplus_mod, Hal, Hmod. reflexivity.
  - nia.
  - apply le_n.
Qed.

Lemma scavenge_contents_parallel_terminates_witness :
  match scavenge_contents_parallel (Examples.cfg false) Examples.heap_straddle 0 16384 1 2
          (Examples.st [(130, 0); (140, 0)]) with
  | Ret _ _ => True
  | Abort _ _ => ASSERT (Examples.cfg false) = true
  | OutOfFuel _ => False
  end.
Proof.
  apply (scavenge_contents_parallel_terminates (Examples.cfg false) Examples.heap_straddle
           0 16384 1 2 (Examples.st [(130, 0); (140, 0)])).
  - reflexivity.
  - reflexivity.
  - lia.
  - lia.
  - reflexivity.
  - exact heap_straddle_parsable.
Defined.

(** ** The verifiers *)

Lemma addr_is_marked_imprecise_product cfg addr s :
  ASSERT cfg = false -> exists b, addr_is_marked_imprecise cfg addr s = Ret b s.
Proof.
  intros Hd.
  unfold addr_is_marked_imprecise, bind, load_card, assert, guarantee, ret, abort.
  rewrite Hd.
  destruct (card_is_dirty cfg _); [eexists; reflexivity|].
  destruct (card_is_newgen cfg _); [eexists; reflexivity|].
  destruct (card_is_clean cfg _); eexists; reflexivity.
Qed.

Lemma CheckForUnmarkedOops_iterate_product cfg heap s fields :
  ASSERT cfg = false ->
  forall u, exists u', CheckForUnmarkedOops_iterate cfg heap fields u s = Ret u' s.
Proof.
  intros Hd. induction fields as [|[p o] rest IH]; intros u.
  - exists u. reflexivity.
  - cbn [CheckForUnmarkedOops_iterate]. unfold bind, CheckForUnmarkedOops_do_oop_work.
    destruct (is_in_reserved heap o); [|apply IH].
    unfold bind. destruct (addr_is_marked_imprecise_product cfg p s Hd) as (b & ->).
    destruct b; cbn [negb]; [apply IH|]. destruct u; apply IH.
Qed.

Lemma verify_all_young_refs_imprecise_product cfg heap s objs :
  ASSERT cfg = false ->
  verify_all_young_refs_imprecise cfg heap objs s = Ret tt s
  \/ verify_all_young_refs_imprecise cfg heap objs s
       = Abort "Found unmarked young_gen object" s.
Proof.
  intros Hd. induction objs as [|obj rest IH]; [left; reflexivity|].
  cbn [verify_all_young_refs_imprecise]. unfold bind at 1.
  unfold CheckForUnmarkedObjects_do_object, bind.
  destruct (CheckForUnmarkedOops_iterate_product cfg heap s (oop_fields heap obj) Hd None)
    as (u' & ->).
  destruct (has_unmarked_oop u'); [|exact IH].
  destruct (addr_is_marked_imprecise_product cfg obj s Hd) as (b & ->).
  destruct b; [exact IH|right; reflexivity].
Qed.

(** X13. The imprecise verifier never changes the card table and records
    nothing. In a product build it returns exactly when no old object has
    both a young reference in a slot whose card is neither dirty nor newgen
    and a start whose card is neither dirty nor newgen; otherwise it stops
    at the guarantee [Found unmarked young_gen object]. *)
Theorem verify_all_young_refs_imprecise_product_build cfg heap objs s :
  ASSERT cfg = false ->
  (verify_all_young_refs_imprecise cfg heap objs s = Ret tt s
   /\ forall obj, In obj objs ->
        ~ (holds_unmarked_young_ref cfg heap s obj /\ card_unmarked cfg s obj))
  \/ (verify_all_young_refs_imprecise cfg heap objs s
        = Abort "Found unmarked young_gen object" s
      /\ exists obj, In obj objs
           /\ holds_unmarked_young_ref cfg heap s obj /\ card_unmarked cfg s obj).
Proof.
  intros Hd.
  destruct (verify_all_young_refs_imprecise_outcome cfg heap s objs)
    as [H | [Hrun | H]]; [left; exact H| |right; exact H].
  destruct (verify_all_young_refs_imprecise_product cfg heap s objs Hd) as [Hp|Hp];
    rewrite Hp in Hrun; discriminate.
Qed.

(** A product build on an object whose young reference sits on a dirty
    card: the verifier returns. *)
Lemma verify_all_young_refs_imprecise_product_build_witness :
  (verify_all_young_refs_imprecise (Examples.cfg false) Examples.heap_one_young_ref [0]
     (Examples.st [(0, 0)]) = Ret tt (Examples.st [(0, 0)])
   /\ forall obj, In obj [0] ->
        ~ (holds_unmarked_young_ref (Examples.cfg false) Examples.heap_one_young_ref
             (Examples.st [(0, 0)]) obj
           /\ card_unmarked (Examples.cfg false) (Examples.st [(0, 0)]) obj))
  \/ (verify_all_young_refs_imprecise (Examples.cfg false) Examples.heap_one_young_ref [0]
        (Examples.st [(0, 0)]) = Abort "Found unmarked young_gen object" (Examples.st [(0, 0)])
      /\ exists obj, In obj [0]
           /\ holds_unmarked_young_ref (Examples.cfg false) Examples.heap_one_young_ref
                (Examples.st [(0, 0)]) obj
           /\ card_unmarked (Examples.cfg false) (Examples.st [(0, 0)]) obj).
Proof.
  apply (verify_all_young_refs_imprecise_product_build (Examples.cfg false)
           Examples.heap_one_young_ref [0] (Examples.st [(0, 0)])).
  reflexivity.
Defined.

Lemma total_addr_is_marked_precise cfg addr s :
  (exists b, addr_is_marked_precise cfg addr s = Ret b s)
  \/ (ASSERT cfg = true /\ exists msg, addr_is_marked_precise cfg addr s = Abort msg s).
Proof.
  unfold addr_is_marked_precise, bind, load_card, assert, guarantee, ret, abort.
  destruct (card_is_newgen cfg _); [left; eexists; reflexivity|].
  destruct (card_is_verify cfg _); [left; eexists; reflexivity|].
  destruct (card_is_clean cfg _); [left; eexists; reflexivity|].
  destruct (card_is_dirty cfg _); [left; eexists; reflexivity|].
  destruct (ASSERT cfg); [right; split; [reflexivity|eexists; reflexivity]|].
  left; eexists; reflexivity.
Qed.

Lemma CheckForPreciseMarks_do_oop_work_spec cfg heap p obj s :
  match CheckForPreciseMarks_do_oop_work cfg heap p obj s with
  | Ret _ s' =>
      s' = if is_in_reserved heap obj
           then {| cards := upd (cards s) (byte_for cfg p) (set_card_newgen_val cfg);
                   trace := trace s ++ [newgen_store cfg p] |}
           else s
  | Abort _ _ => ASSERT cfg = true
  | OutOfFuel _ => False
  end.
Proof.
  unfold CheckForPreciseMarks_do_oop_work.
  destruct (is_in_reserved heap obj); [|reflexivity].
  unfold bind at 1.
  destruct (total_addr_is_marked_precise cfg p s) as [(b & ->)|(Hd & msg & ->)];
    [|exact Hd].
  unfold bind, assert, guarantee, ret, abort, set_card_newgen, store_card.
  destruct (ASSERT cfg); [destruct b|]; reflexivity.
Qed.

Lemma CheckForPreciseMarks_iterate_spec cfg heap fields : forall s,
  let slots := map fst (filter (fun f => is_in_reserved heap (snd f)) fields) in
  match CheckForPreciseMarks_iterate cfg heap fields s with
  | Ret _ s' =>
      trace s' = trace s ++ map (newgen_store cfg) slots
      /\ forall c, cards s' c
                   = if holds_slot cfg slots c then set_card_newgen_val cfg else cards s c
  | Abort _ _ => ASSERT cfg = true
  | OutOfFuel _ => False
  end.
Proof.
  induction fields as [|[p o] rest IH]; intros s; cbv zeta.
  - cbn. rewrite app_nil_r. split; reflexivity.
  - cbn [CheckForPreciseMarks_iterate]. unfold bind.
    pose proof (CheckForPreciseMarks_do_oop_work_spec cfg heap p o s) as H1.
    destruct (CheckForPreciseMarks_do_oop_work cfg heap p o s) as [[] s1|msg s1|s1];
      [|exact H1|exact H1].
    specialize (IH s1). cbv zeta in IH.
    destruct (CheckForPreciseMarks_iterate cfg heap rest s1) as [[] s'|msg s'|s'];
      [|exact IH|exact IH].
    destruct IH as [Htr Hc]. cbn [filter snd].
    destruct (is_in_reserved heap o); subst s1; cbn [map fst holds_slot existsb].
    + cbn [trace cards] in Htr, Hc. split.
      * rewrite Htr, <- app_assoc. reflexivity.
      * intros c. rewrite Hc. fold (holds_slot cfg (map fst (filter (fun f => is_in_reserved heap (snd f)) rest)) c).
        unfold upd. rewrite (Z.eqb_sym c).
        destruct (holds_slot cfg _ c); [rewrite orb_true_r; reflexivity|].
        rewrite orb_false_r. reflexivity.
    + split; [exact Htr|exact Hc].
Qed.

Lemma holds_slot_app cfg l1 l2 c :
  holds_slot cfg (l1 ++ l2) c = holds_slot cfg l1 c || holds_slot cfg l2 c.
Proof. unfold holds_slot. apply existsb_app. Qed.

Lemma old_gen_oop_iterate_spec cfg heap objs : forall s,
  match old_gen_oop_iterate cfg heap objs s with
  | Ret _ s' =>
      trace s' = trace s ++ map (newgen_store cfg) (young_slots heap objs)
      /\ forall c, cards s' c
                   = if holds_slot cfg (young_slots heap objs) c
                     then set_card_newgen_val cfg else cards s c
  | Abort _ _ => ASSERT cfg = true
  | OutOfFuel _ => False
  end.
Proof.
  induction objs as [|obj rest IH]; intros s.
  - cbn. rewrite app_nil_r. split; reflexivity.
  - cbn [old_gen_oop_iterate]. unfold bind.
    pose proof (CheckForPreciseMarks_iterate_spec cfg heap (oop_fields heap obj) s) as H1.
    cbv zeta in H1. fold (young_slots_of heap obj) in H1.
    destruct (CheckForPreciseMarks_iterate cfg heap (oop_fields heap obj) s)
      as [[] s1|msg s1|s1]; [|exact H1|exact H1].
    specialize (IH s1).
    destruct (old_gen_oop_iterate cfg heap rest s1) as [[] s'|msg s'|s'];
      [|exact IH|exact IH].
    destruct H1 as [Htr1 Hc1]. destruct IH as [Htr Hc].
    cbn [young_slots flat_map]. fold (young_slots heap rest). split.
    + rewrite Htr, Htr1, map_app, app_assoc. reflexivity.
    + intros c. rewrite Hc, Hc1, holds_slot_app.
      destruct (holds_slot cfg (young_slots heap rest) c);
        [rewrite orb_true_r; reflexivity|rewrite orb_false_r; reflexivity].
Qed.

(** X14. The reference walk of the precise verifier never runs out of steps
    and stops only at an assert of a debug build. When it returns it has
    made one store per slot that holds a young reference, in visiting
    order, each of the value of [set_card_newgen] to the card of the slot.
    The cards that hold such a slot end with that value, all other cards
    are as before, and nothing else is recorded. *)
Theorem old_gen_oop_iterate_marks_young_slots cfg heap objs s :
  match old_gen_oop_iterate cfg heap objs s with
  | Ret _ s' =>
      trace s' = trace s ++ map (newgen_store cfg) (young_slots heap objs)
      /\ forall c, cards s' c
                   = if holds_slot cfg (young_slots heap objs) c
                     then set_card_newgen_val cfg else cards s c
  | Abort _ _ => ASSERT cfg = true
  | OutOfFuel _ => False
  end.
Proof. apply old_gen_oop_iterate_spec. Qed.

Lemma holds_slot_In cfg slots p : In p slots -> holds_slot cfg slots (byte_for cfg p) = true.
Proof.
  intros Hin. unfold holds_slot. apply existsb_exists.
  exists p. split; [exact Hin|apply Z.eqb_refl].
Qed.

(** X15. Where [set_card_newgen] stores [verify_card], the precise verifier
    leaves [youngergen_card] on every card of the used region that holds a
    slot with a young reference, whatever the card held before. It never
    runs out of steps and stops only at an assert of a debug build. *)
Theorem verify_all_young_refs_precise_young_slots
    cfg heap objs used_start used_end s :
  set_card_newgen_val cfg = verify_card cfg ->
  match verify_all_young_refs_precise cfg heap objs used_start used_end s with
  | Ret _ s' =>
      forall p, In p (young_slots heap objs) ->
        byte_for cfg used_start <= byte_for cfg p <= byte_for cfg used_end ->
        cards s' (byte_for cfg p) = youngergen_card cfg
  | Abort _ _ => ASSERT cfg = true
  | OutOfFuel _ => False
  end.
Proof.
  intros Hv. unfold verify_all_young_refs_precise, bind.
  pose proof (old_gen_oop_iterate_spec cfg heap objs s) as H1.
  destruct (old_gen_oop_iterate cfg heap objs s) as [[] s1|msg s1|s1];
    [|exact H1|exact H1].
  destruct H1 as [_ Hc1]. unfold verify_all_young_refs_precise_helper.
  pose proof (verify_helper_loop_spec cfg
                (Z.to_nat (byte_for cfg used_end - byte_for cfg used_start + 1))
                (byte_for cfg used_start) (byte_for cfg used_end) s1 (le_n _)) as H.
  destruct (verify_all_young_refs_precise_helper_loop cfg _ _ _ s1) as [[] s'|msg s'|s'].
  - destruct H as [Hin _]. intros p Hp Hr. destruct (Hin _ Hr) as [_ Hval].
    rewrite Hval, Hc1, (holds_slot_In cfg _ p Hp), Hv, Z.eqb_refl. reflexivity.
  - apply H.
  - exact H.
Qed.

(** The slot at word 10 of [heap_one_young_ref] on a dirty card, in a
    product build: card 0 ends as [youngergen_card]. *)
Lemma verify_all_young_refs_precise_young_slots_witness :
  match verify_all_young_refs_precise (Examples.cfg false) Examples.heap_one_young_ref
          [0] 0 100 (Examples.st [(0, 0)]) with
  | Ret _ s' =>
      forall p, In p (young_slots Examples.heap_one_young_ref [0]) ->
        byte_for (Examples.cfg false) 0 <= byte_for (Examples.cfg false) p
          <= byte_for (Examples.cfg false) 100 ->
        cards s' (byte_for (Examples.cfg false) p) = youngergen_card (Examples.cfg false)
  | Abort _ _ => ASSERT (Examples.cfg false) = true
  | OutOfFuel _ => False
  end.
Proof.
  apply (verify_all_young_refs_precise_young_slots (Examples.cfg false)
           Examples.heap_one_young_ref [0] 0 100 (Examples.st [(0, 0)])).
  reflexivity.
Defined.

(** ** A worker on a clean card table *)

Lemma final_state_bind {A B} (m : M A) (k : A -> M B) s :
  final_state (m s) = s ->
  (forall a, m s = Ret a s -> final_state (k a s) = s) ->
  final_state (bind m k s) = s.
Proof.
  intros Hm Hk. unfold bind.
  destruct (m s) as [a s1|msg s1|s1] eqn:E; cbn in Hm; subst s1;
    [apply (Hk a); reflexivity|reflexivity|reflexivity].
Qed.

Lemma final_state_assert cfg cond msg s : final_state (assert cfg cond msg s) = s.
Proof.
  unfold assert, guarantee, ret, abort. destruct (ASSERT cfg); [destruct cond|]; reflexivity.
Qed.

Lemma find_first_dirty_card_loop_all_clean cfg ct n : forall i_card end_card,
  (forall c, ct c = clean_card cfg) ->
  find_first_dirty_card_loop cfg n ct i_card end_card = end_card.
Proof.
  induction n as [|n IH]; intros i e Hc; cbn [find_first_dirty_card_loop]; [reflexivity|].
  destruct (i <? e); [|reflexivity].
  rewrite Hc, Z.eqb_refl. cbn [negb]. apply IH. exact Hc.
Qed.

Lemma find_first_clean_card_obj_empty cfg heap end_card s :
  find_first_clean_card_obj cfg heap end_card end_card s = Ret end_card s.
Proof.
  unfold find_first_clean_card_obj, bind, load_card, assert, guarantee, ret.
  rewrite Z.eqb_refl, Z.sub_diag. cbn [orb Z.to_nat find_first_clean_card_obj_loop].
  destruct (Z.ltb_spec (end_card + 1) end_card); [lia|].
  destruct (ASSERT cfg); reflexivity.
Qed.

Lemma final_state_dirty_chunks_all_clean
    cfg heap n first_obj cur_stripe_end_addr large_arr lim cur_card s :
  (forall c, cards s c = clean_card cfg) ->
  final_state (dirty_chunks cfg heap n first_obj cur_stripe_end_addr large_arr lim cur_card s)
  = s.
Proof.
  intros Hc. destruct n as [|n]; cbn [dirty_chunks];
    destruct (cur_card <? iter_limit_r lim); try reflexivity.
  unfold bind at 1. unfold get_cards at 1. cbv zeta.
  unfold find_first_dirty_card. rewrite find_first_dirty_card_loop_all_clean by exact Hc.
  unfold bind at 1. rewrite find_first_clean_card_obj_empty.
  apply final_state_bind; [apply final_state_assert|]. intros _ _.
  rewrite Z.eqb_refl. apply final_state_assert.
Qed.

Lemma final_state_large_array_chunks_all_clean cfg n large_arr lim cur_card s :
  (forall c, cards s c = clean_card cfg) ->
  final_state (large_array_chunks cfg n large_arr lim cur_card s) = s.
Proof.
  intros Hc. destruct n as [|n]; cbn [large_array_chunks];
    destruct (cur_card <? iter_limit_r lim); try reflexivity.
  unfold bind at 1. unfold get_cards at 1. cbv zeta.
  unfold find_first_dirty_card. rewrite find_first_dirty_card_loop_all_clean by exact Hc.
  unfold find_first_clean_card. rewrite Z.sub_diag. cbn [Z.to_nat find_first_clean_card_loop].
  apply final_state_bind; [apply final_state_assert|]. intros _ _.
  rewrite Z.eqb_refl. apply final_state_assert.
Qed.

Lemma final_state_scavenge_large_array_contents_all_clean
    cfg heap arr stripe_addr stripe_end_addr space_top s :
  (forall c, cards s c = clean_card cfg) ->
  final_state
    (scavenge_large_array_contents cfg heap arr stripe_addr stripe_end_addr space_top false s)
  = s.
Proof.
  intros Hc. unfold scavenge_large_array_contents. cbv zeta.
  apply final_state_bind; [apply final_state_assert|]. intros _ _.
  apply final_state_bind; [apply final_state_assert|]. intros _ _.
  rewrite andb_false_r.
  apply final_state_bind; [reflexivity|]. intros _ _.
  apply final_state_large_array_chunks_all_clean. exact Hc.
Qed.

Lemma final_state_scavenge_stripe_all_clean cfg heap space_top cur_stripe_addr start_cache s :
  (forall c, cards s c = clean_card cfg) ->
  final_state (scavenge_stripe cfg heap space_top cur_stripe_addr start_cache s) = s.
Proof.
  intros Hc. unfold scavenge_stripe. cbv zeta.
  destruct (negb _).
  { apply final_state_bind.
    { unfold StartCache_object_start.
      apply final_state_bind; [apply final_state_assert|]. intros _ _.
      destruct (_ <=? cur_stripe_addr); reflexivity. }
    intros r _. apply final_state_bind; [|intros _ _; reflexivity].
    destruct (is_large_obj_array heap (fst r)); [|reflexivity].
    apply final_state_scavenge_large_array_contents_all_clean. exact Hc. }
  apply final_state_bind.
  { destruct (_ <? cur_stripe_addr); [|apply final_state_assert].
    destruct (is_large_obj_array heap _); [|reflexivity].
    apply final_state_scavenge_large_array_contents_all_clean. exact Hc. }
  intros _ _.
  apply final_state_bind; [apply final_state_assert|]. intros _ _.
  apply final_state_bind; [apply final_state_assert|]. intros _ _.
  unfold bind at 1. unfold get_cards at 1.
  unfold identify_right_ends. cbv zeta. rewrite Hc, Z.eqb_refl, andb_false_r.
  destruct (is_large_obj_array heap _).
  - destruct (_ <? cur_stripe_addr).
    + apply final_state_bind; [apply final_state_assert|]. intros _ _. reflexivity.
    + apply final_state_bind; [reflexivity|]. intros _ _.
      apply final_state_bind; [apply final_state_assert|]. intros _ _.
      apply final_state_bind;
        [apply final_state_dirty_chunks_all_clean; exact Hc|]. intros _ _.
      apply final_state_bind; [|intros _ _; reflexivity].
      apply final_state_scavenge_large_array_contents_all_clean. exact Hc.
  - apply final_state_bind; [apply final_state_assert|]. intros _ _.
    apply final_state_bind; [apply final_state_assert|]. intros _ _.
    apply final_state_bind;
      [apply final_state_dirty_chunks_all_clean; exact Hc|]. intros _ _.
    apply final_state_bind; [reflexivity|]. intros _ _. reflexivity.
Qed.

Lemma final_state_scavenge_stripes_all_clean cfg heap space_top slice_size_in_words s n :
  (forall c, cards s c = clean_card cfg) ->
  forall cur_stripe_addr start_cache,
  final_state
    (scavenge_stripes cfg heap n space_top slice_size_in_words cur_stripe_addr start_cache s)
  = s.
Proof.
  intros Hc. induction n as [|n IH]; intros cur c; cbn [scavenge_stripes];
    destruct (cur <? space_top); try reflexivity.
  apply final_state_bind; [apply final_state_scavenge_stripe_all_clean; exact Hc|].
  intros c' _. apply IH.
Qed.

(** X16. A worker of [scavenge_contents_parallel] that finds every card
    clean does nothing: whatever the heap, the stripe index and the number
    of stripes, it stores to no card, pushes no object and no array slice,
    and drains no stack. *)
Theorem scavenge_contents_parallel_all_clean
    cfg heap bottom space_top stripe_index n_stripes s :
  (forall c, cards s c = clean_card cfg) ->
  final_state (scavenge_contents_parallel cfg heap bottom space_top stripe_index n_stripes s)
  = s.
Proof.
  intros Hc. unfold scavenge_contents_parallel. cbv zeta.
  apply final_state_scavenge_stripes_all_clean. exact Hc.
Qed.

Lemma scavenge_contents_parallel_all_clean_witness :
  final_state (scavenge_contents_parallel (Examples.cfg true) Examples.heap_large_array
                 0 20100 0 1 (Examples.st []))
  = Examples.st [].
Proof.
  apply (scavenge_contents_parallel_all_clean (Examples.cfg true) Examples.heap_large_array
           0 20100 0 1 (Examples.st [])).
  intros c. reflexivity.
Defined.
